(** * Verification of the button showcase application (src/app.js, src/icons/index.js)

    The development embeds the icon loader, the contrast calculator, the
    label updater and the document-level event handlers of [app.js] as
    Rocq functions, and proves the properties stated for them.

    Conventions of the embedding:
    - JavaScript numbers are idealised as real numbers ([R]) or, where the
      code only produces integers, as [Z]; the value [NaN] is kept apart as
      [None] where the code can produce it.
    - JavaScript strings are [string]s of code units below 256.
    - DOM elements are records holding exactly the attributes, classes and
      computed style values the code reads or writes; the buttons of the
      document are identified by their position in
      [document.querySelectorAll('.button')]. *)

From Stdlib Require Import Reals Lra Lia ZArith Bool QArith Qround.
From Stdlib Require Import Ascii List.
From stdpp Require Import gmap strings list.
Import ListNotations.

(** * Part I: the program *)

(** ** Strings and the regular-expression fragments the code uses *)

Module Str.

Definition code (c : ascii) : nat := nat_of_ascii c.

(** [\d] *)
Definition isDigit (c : ascii) : bool := (48 <=? code c) && (code c <=? 57).

(** [\s] (and the white space [parseInt] skips), on code units below 256:
    TAB, LF, VT, FF, CR, SPACE and NBSP. *)
Definition isSpace (c : ascii) : bool :=
  ((9 <=? code c) && (code c <=? 13)) || (code c =? 32) || (code c =? 160).

(** Canonicalisation of the [i] flag: only A-Z and a-z are identified. *)
Definition lower (c : ascii) : ascii :=
  if (65 <=? code c) && (code c <=? 90) then ascii_of_nat (code c + 32) else c.

Definition eq_ci (a b : ascii) : bool := Ascii.eqb (lower a) (lower b).

(** Number of leading characters of [s] in the class [p]: the greedy
    match of [[p]*]. *)
Fixpoint span (p : ascii -> bool) (s : string) : nat :=
  match s with
  | String c s' => if p c then S (span p s') else 0
  | EmptyString => 0
  end.

Fixpoint take (n : nat) (s : string) : string :=
  match n, s with
  | S n', String c s' => String c (take n' s')
  | _, _ => EmptyString
  end.

Fixpoint drop (n : nat) (s : string) : string :=
  match n, s with
  | S n', String _ s' => drop n' s'
  | _, _ => s
  end.

(** [s.includes(c)] for a character [c]. *)
Fixpoint contains (c : ascii) (s : string) : bool :=
  match s with
  | String c' s' => Ascii.eqb c c' || contains c s'
  | EmptyString => false
  end.

(** Matches the literal [lit] at the head of [s] and returns what follows. *)
Fixpoint strip (lit s : string) : option string :=
  match lit with
  | EmptyString => Some s
  | String a lit' =>
      match s with
      | String c s' => if Ascii.eqb a c then strip lit' s' else None
      | EmptyString => None
      end
  end.

(** The same under the [i] flag. *)
Fixpoint strip_ci (lit s : string) : option string :=
  match lit with
  | EmptyString => Some s
  | String a lit' =>
      match s with
      | String c s' => if eq_ci a c then strip_ci lit' s' else None
      | EmptyString => None
      end
  end.

Definition startsWith_ci (lit s : string) : bool :=
  match strip_ci lit s with Some _ => true | None => false end.

(** [s.replace(re, repl)] for a global regular expression [re] without
    look-behind, given as the function [re] that returns the length of the
    match of the expression at the head of a string.  The scan goes left to
    right; after a match it resumes behind the matched text ([skip] counts
    the characters of the match still to be dropped). *)
Fixpoint replaceFrom (re : string -> option nat) (repl : string)
    (skip : nat) (s : string) : string :=
  match s with
  | EmptyString => EmptyString
  | String c s' =>
      match skip with
      | S k => replaceFrom re repl k s'
      | O =>
          match re s with
          | Some (S k) => repl +:+ replaceFrom re repl k s'
          | _ => String c (replaceFrom re repl 0 s')
          end
      end
  end.

Definition replaceAll (re : string -> option nat) (repl s : string) : string :=
  replaceFrom re repl 0 s.

End Str.

(** ** The icon catalog: [src/icons/index.js] *)

Module Icons.

Definition iconPaths : list (string * string) :=
  [ ("add", "add.svg"); ("arrow-left", "arrow-left.svg");
    ("arrow-right", "arrow-right.svg"); ("cancel", "cancel.svg");
    ("contrast", "contrast.svg"); ("delete", "delete.svg");
    ("done", "done.svg"); ("exit", "exit.svg");
    ("extention", "extention.svg"); ("favicon", "favicon.svg");
    ("help", "help.svg"); ("home", "home.svg"); ("info", "info.svg");
    ("large", "large.svg"); ("lowpos", "lowpos.svg");
    ("minus", "minus.svg"); ("ok", "ok.svg"); ("order", "order.svg");
    ("pay", "pay.svg"); ("placeholder", "placeholder.svg");
    ("plus", "plus.svg"); ("print", "print.svg"); ("reset", "reset.svg");
    ("restart", "restart.svg"); ("soldout-large", "soldout-large.svg");
    ("soldout-small", "soldout-small.svg"); ("step", "step.svg");
    ("takein", "takein.svg"); ("takeout", "takeout.svg");
    ("time", "time.svg"); ("toggle", "toggle.svg");
    ("volume", "volume.svg"); ("warning", "warning.svg") ].

(** [iconPaths[iconKey]] *)
Fixpoint lookupPath (paths : list (string * string)) (iconKey : string)
    : option string :=
  match paths with
  | [] => None
  | (k, f) :: rest => if String.eqb k iconKey then Some f else lookupPath rest iconKey
  end.

(** [getIconPath], over a catalog [paths]; a missing or empty file name
    gives the placeholder path. *)
Definition getIconPathIn (paths : list (string * string)) (iconKey : string)
    : string :=
  match lookupPath paths iconKey with
  | None | Some EmptyString => "./assets/icons/placeholder.svg"
  | Some filename => "./assets/icons/" +:+ filename
  end.

Definition getIconPath : string -> string := getIconPathIn iconPaths.

(** One value of the icon map: [{ path, selector }].  The selector
    [[data-icon="key"]] is kept as the key it tests for. *)
Record config := Config { path : string; selector : string }.

(** [Object.entries(createIconMap())], over a catalog [paths]. *)
Definition createIconMapIn (paths : list (string * string))
    : list (string * config) :=
  map (fun '(key, _) => (key, Config (getIconPathIn paths key) key)) paths.

Definition createIconMap : list (string * config) := createIconMapIn iconPaths.

Definition fallbackIcon : string := "placeholder".

End Icons.

(** ** The SVG loader: [SVGLoader] *)

Module SVGLoader.

Import Str.

(** *** [convertToCurrentColor] *)

(** The negative look-ahead [(?!none|transparent)] fails where the text
    begins with one of the two words; under the [i] flag, in any case. *)
Definition excluded (s : string) : bool :=
  startsWith_ci "none" s || startsWith_ci "transparent" s.

(** [/name=q(?!none|transparent)[^q]*q/i] at the head of [s], for the quote
    character [q]: the length of the match.  [[^q]*] is followed by [q], so
    its greedy match is the only one that can succeed. *)
Definition attrDirective (name : string) (q : ascii) (s : string) : option nat :=
  match strip_ci (name +:+ "=" +:+ String q EmptyString) s with
  | None => None
  | Some value =>
      if excluded value then None
      else
        let n := span (fun c => negb (Ascii.eqb c q)) value in
        match drop n value with
        | String _ _ => Some (String.length name + 2 + n + 1)
        | EmptyString => None
        end
  end.

(** A character of [[^;}\s]]. *)
Definition isValueChar (c : ascii) : bool :=
  negb (Ascii.eqb c ";" || Ascii.eqb c "}" || isSpace c).

(** [/name:\s*(?!none|transparent)[^;}\s]+/i] at the head of [s].  With
    fewer white-space characters given to [\s*] the class [[^;}\s]+] would
    have to start on white space, so only the greedy match of [\s*] can
    succeed. *)
Definition styleDirective (name : string) (s : string) : option nat :=
  match strip_ci (name +:+ ":") s with
  | None => None
  | Some rest =>
      let w := span isSpace rest in
      let value := drop w rest in
      if excluded value then None
      else
        match span isValueChar value with
        | O => None
        | S n => Some (String.length name + 1 + w + S n)
        end
  end.

(** The two quote characters of the attribute patterns. *)
Definition dquote : ascii := ascii_of_nat 34.
Definition squote : ascii := ascii_of_nat 39.

(** The replacement text [name=qcurrentColorq]. *)
Definition attrCurrentColor (name : string) (q : ascii) : string :=
  name +:+ "=" +:+ String q ("currentColor" +:+ String q EmptyString).

Definition convertToCurrentColor (svgMarkup : string) : string :=
  let s := replaceAll (attrDirective "fill" dquote) (attrCurrentColor "fill" dquote) svgMarkup in
  let s := replaceAll (attrDirective "stroke" dquote) (attrCurrentColor "stroke" dquote) s in
  let s := replaceAll (attrDirective "fill" squote) (attrCurrentColor "fill" squote) s in
  let s := replaceAll (attrDirective "stroke" squote) (attrCurrentColor "stroke" squote) s in
  let s := replaceAll (styleDirective "fill") "fill: currentColor" s in
  let s := replaceAll (styleDirective "stroke") "stroke: currentColor" s in
  s.

(** *** [preloadAllIcons] *)

(** What a request settles to: a response with its [ok] flag and the
    outcome of reading its body, or a rejected [fetch]. *)
Inductive body := Text (markup : string) | BodyError.
Inductive fetched := Response (ok : bool) (text : body) | TransportError.

(** The asset transport.  [net key attempt path] is what the request for
    [path] issued by the task of the icon [key] settles to; [attempt] is 0
    for the icon's own file and 1 for the fallback file. *)
Definition network := string -> nat -> string -> fetched.

Inductive exn := SvgNotFound (path : string) | Rejection.

(** Code that works on the cache and may throw. *)
Definition M (A : Type) : Type := gmap string string -> gmap string string * (exn + A).

Definition ret {A} (a : A) : M A := fun cache => (cache, inr a).
Definition throw {A} (e : exn) : M A := fun cache => (cache, inl e).
Definition bind {A B} (m : M A) (k : A -> M B) : M B :=
  fun cache =>
    match m cache with
    | (cache', inr a) => k a cache'
    | (cache', inl e) => (cache', inl e)
    end.
Definition tryCatch {A} (block : M A) (handler : exn -> M A) : M A :=
  fun cache =>
    match block cache with
    | (cache', inl e) => handler e cache'
    | settled => settled
    end.
Definition cacheSet (key value : string) : M unit :=
  fun cache => (<[key := value]> cache, inr tt).

(** [await fetch(path)] *)
Definition awaitFetch (net : network) (key : string) (attempt : nat)
    (path : string) : M (bool * body) :=
  match net key attempt path with
  | Response ok text => ret (ok, text)
  | TransportError => throw Rejection
  end.

(** [await response.text()] *)
Definition awaitText (text : body) : M string :=
  match text with
  | Text markup => ret markup
  | BodyError => throw Rejection
  end.

Notation "'let*' x ':=' m 'in' k" := (bind m (fun x => k))
  (at level 10, x name, m at level 100, k at level 200).

(** The body of the callback of [Object.entries(this.iconMap).map(...)];
    the console output is not modelled. *)
Definition loadIcon (net : network) (entry : string * Icons.config) : M unit :=
  let '(key, config) := entry in
  tryCatch
    (let* response := awaitFetch net key 0 (Icons.path config) in
     if negb (fst response) then throw (SvgNotFound (Icons.path config))
     else
       let* svgMarkup := awaitText (snd response) in
       cacheSet key svgMarkup)
    (fun error =>
       tryCatch
         (let fallbackPath := Icons.getIconPath Icons.fallbackIcon in
          let* fallback := awaitFetch net key 1 fallbackPath in
          if fst fallback then
            let* markup := awaitText (snd fallback) in
            cacheSet key markup
          else cacheSet key "")
         (fun fallbackError => cacheSet key "")).

(** [await Promise.all(promises)]: every task runs to its end, and the
    result rejects when one of them rejected. *)
Fixpoint promiseAll (promises : list (M unit)) : M unit :=
  fun cache =>
    match promises with
    | [] => (cache, inr tt)
    | p :: rest =>
        let '(cache1, r1) := p cache in
        let '(cache2, r2) := promiseAll rest cache1 in
        (cache2, match r1 with inl e => inl e | inr _ => r2 end)
    end.

(** [preloadAllIcons].  The tasks are started together and each one writes
    the cache once, in its last step; [completion] lists the entries of
    the icon map in the order in which their tasks reach that step. *)
Definition preloadAllIcons (net : network)
    (completion : list (string * Icons.config)) : M unit :=
  promiseAll (map (loadIcon net) completion).

(** *** [injectAllIcons] *)

(** An element that may be the target of an icon: the value of its
    [data-icon] attribute, whether [closest('.toggle')] finds an element,
    whether its class list has [pressed], and its content, kept as the
    markup it was last set from: the markup of the page, or the string
    assigned to [innerHTML] (what reading [innerHTML] back serialises that
    content to is not modelled).  The elements are kept in a list: what an
    assignment to [innerHTML] does to the elements inside the content is
    not modelled, so the list stands for the document only where no
    content, old or new, holds an element with [data-icon]. *)
Record target := Target {
  dataIcon : option string;
  closestToggle : bool;
  classPressed : bool;
  innerHTML : string
}.

Inductive message :=
| NoCachedSvg (key : string)
| NoElements (selector : string)
| AllInjected.

(** [document.querySelectorAll('[data-icon="key"]')] picks the elements
    for which this holds. *)
Definition matchesSelector (selector : string) (el : target) : bool :=
  match dataIcon el with
  | Some v => String.eqb v selector
  | None => false
  end.

(** The callback of [targets.forEach]. *)
Definition injectInto (processedSvg : string) (el : target) : target :=
  if closestToggle el && classPressed el then el
  else Target (dataIcon el) (closestToggle el) (classPressed el) processedSvg.

(** The callback of [Object.entries(this.iconMap).forEach], on the
    elements of the document and the console. *)
Definition injectIcon (cache : gmap string string)
    (st : list target * list message) (entry : string * Icons.config)
    : list target * list message :=
  let '(key, config) := entry in
  let '(document, console) := st in
  if String.eqb key "toggle" then st
  else
    match cache !! key with
    | None | Some EmptyString => (document, console ++ [NoCachedSvg key])
    | Some svgMarkup =>
        let processedSvg := convertToCurrentColor svgMarkup in
        let selected := matchesSelector (Icons.selector config) in
        let targets := List.filter selected document in
        let console :=
          if (length targets =? 0)%nat
          then console ++ [NoElements (Icons.selector config)] else console in
        (map (fun el => if selected el then injectInto processedSvg el else el)
             document,
         console)
    end.

Definition injectAllIcons (iconMap : list (string * Icons.config))
    (cache : gmap string string) (document : list target)
    : list target * list message :=
  let '(document, console) := fold_left (injectIcon cache) iconMap (document, []) in
  (document, console ++ [AllInjected]).

End SVGLoader.

(** ** Vocabulary of the statements *)

Module Spec.

Import SVGLoader.

(** Follows the specification's words for [preloadAll], to be compared with
    [SVGLoader.loadIcon]: the fetched markup on success; on failure the
    markup of the fallback asset, if that can be fetched; else the empty
    string.  A fetch succeeds when the response is [ok] and its text can be
    read. *)
Definition cachedMarkup (net : network) (key : string) (config : Icons.config)
    : string :=
  match net key 0%nat (Icons.path config) with
  | Response true (Text markup) => markup
  | _ =>
      match net key 1%nat (Icons.getIconPath Icons.fallbackIcon) with
      | Response true (Text markup) => markup
      | _ => EmptyString
      end
  end.

(** The cache after the tasks of [entries] have stored what the
    specification says, one after the other. *)
Fixpoint written (net : network) (entries : list (string * Icons.config))
    (cache : gmap string string) : gmap string string :=
  match entries with
  | [] => cache
  | (key, config) :: rest =>
      written net rest (<[key := cachedMarkup net key config]> cache)
  end.

(** The content of an icon target after [injectAll], as the code decides
    it, to be compared with [SVGLoader.injectAllIcons]: the normalised
    cached markup when the value of [data-icon] is an identifier of the
    catalog other than [toggle], the cache holds a non-empty markup for it
    and the element is not one with [closest('.toggle')] and the class
    [pressed]; else the content it had. *)
Definition injectedContent (keys : list string) (cache : gmap string string)
    (el : target) : string :=
  match dataIcon el with
  | Some key =>
      if bool_decide (key ∈ keys) && negb (String.eqb key "toggle")
         && negb (closestToggle el && classPressed el)
      then
        match cache !! key with
        | Some (String c markup) => convertToCurrentColor (String c markup)
        | _ => innerHTML el
        end
      else innerHTML el
  | None => innerHTML el
  end.

(** What one entry of the icon map does to one element. *)
Definition injectStep (cache : gmap string string) (el : target)
    (entry : string * Icons.config) : target :=
  let '(key, config) := entry in
  if String.eqb key "toggle" then el
  else
    match cache !! key with
    | None | Some EmptyString => el
    | Some svgMarkup =>
        if matchesSelector (Icons.selector config) el
        then injectInto (convertToCurrentColor svgMarkup) el else el
    end.

(** The entries of an icon map select by their own key. *)
Definition selectsOwnKey (entry : string * Icons.config) : Prop :=
  Icons.selector (snd entry) = fst entry.

Definition injected (keys : list string) (cache : gmap string string)
    (el : target) : target :=
  Target (dataIcon el) (closestToggle el) (classPressed el)
    (injectedContent keys cache el).

(** The text of a directive in attribute form, [name=qvalueq], and in
    inline-style form, [name:value] with [blank] behind the colon. *)
Definition attribute (name : string) (q : ascii) (value : string) : string :=
  name +:+ "=" +:+ String q (value +:+ String q EmptyString).

Definition declaration (name blank value : string) : string :=
  name +:+ String ":" (blank +:+ value).

(** [s] consists of white space. *)
Fixpoint blanks (s : string) : bool :=
  match s with
  | String c s' => Str.isSpace c && blanks s'
  | EmptyString => true
  end.

End Spec.

(** ** The buttons of the document *)

(** The [.label] element of a button: its content and its computed
    [color]. *)
Record label := Label {
  labelHTML : string;
  color : string
}.

(** An element of class [button], with what the code reads and writes:
    the classes [pressed] and [toggle], the attributes [aria-disabled] and
    [aria-pressed], [dataset.isToggleButton], whether [offsetParent] is not
    [null], the element [closest('.showcase')] finds (if any), the computed
    [backgroundColor] and the first descendant of class [label] (if any). *)
Record button := Button {
  pressed : bool;
  toggle : bool;
  ariaDisabled : option string;
  ariaPressed : option string;
  isToggleButton : option string;
  offsetParent : bool;
  showcase : option nat;
  backgroundColor : string;
  buttonLabel : option label
}.

(** ** The style manager: [StyleManager] *)

Module StyleManager.

Import Str.

(** *** [calculateContrastRGBA] *)

Section Numbers.
Local Open Scope R_scope.

(** The callback of [[r, g, b].map(c => ...)] in [getLuminance]. *)
Definition channel (c : R) : R :=
let c := c / 255 in
if Rle_dec c 0.03928 then c / 12.92 else Rpower ((c + 0.055) / 1.055) 2.4.

Definition getLuminance (r g b : R) : R :=
let rs := channel r in
let gs := channel g in
let bs := channel b in
0.2126 * rs + 0.7152 * gs + 0.0722 * bs.

Definition calculateContrastRGBA (r1 g1 b1 r2 g2 b2 : R) : R :=
let lum1 := getLuminance r1 g1 b1 in
let lum2 := getLuminance r2 g2 b2 in
let brightest := Rmax lum1 lum2 in
let darkest := Rmin lum1 lum2 in
let contrastRatio := (brightest + 0.05) / (darkest + 0.05) in
contrastRatio.

End Numbers.

(** *** [getRGB], the colour parser of [calculateContrast] *)

Inductive error :=
| InvalidColor
| ColorParseFailure (color : string).

Definition digit (c : ascii) : Z := (Z.of_nat (code c) - 48)%Z.

(** The value of a string of decimal digits. *)
Fixpoint decimal (acc : Z) (s : string) : Z :=
  match s with
  | String c s' => decimal (10 * acc + digit c)%Z s'
  | EmptyString => acc
  end.

(** [\d+(?:\.\d+)?] at the head of [s]: the digits before the point, the
    digits behind it (none when the group does not match) and what
    follows.  In the pattern the first two numbers are followed by
    [\s*,] and the third one ends it, so the greedy match is the one the
    matcher returns. *)
Definition number (s : string) : option (string * string * string) :=
  match span isDigit s with
  | O => None
  | n =>
      let whole := take n s in
      let rest := drop n s in
      match rest with
      | String "." rest' =>
          match span isDigit rest' with
          | O => Some (whole, EmptyString, rest)
          | k => Some (whole, take k rest', drop k rest')
          end
      | _ => Some (whole, EmptyString, rest)
      end
  end.

(** [parseFloat] of a captured number, as the exact rational. *)
Definition parseFloat (capture : string * string) : Q :=
  let '(whole, fraction) := capture in
  (inject_Z (decimal 0 whole)
   + Qmake (decimal 0 fraction) (Z.to_pos (10 ^ Z.of_nat (String.length fraction))))%Q.

(** [Math.round]: the nearest integer, a tie going up. *)
Definition Math_round (x : Q) : Z := Qfloor (x + (1 # 2))%Q.

Definition skipSpaces (s : string) : string := drop (span isSpace s) s.

(** The regular expression of [getRGB] at the head of [s]: the three
    captures. *)
Definition rgbaAt (s : string)
    : option ((string * string) * (string * string) * (string * string)) :=
  s ← strip "rgb" s;
  let s := match s with String "a" s' => s' | _ => s end in
  s ← strip "(" s;
  '(w1, f1, s) ← number (skipSpaces s);
  s ← strip "," (skipSpaces s);
  '(w2, f2, s) ← number (skipSpaces s);
  s ← strip "," (skipSpaces s);
  '(w3, f3, s) ← number (skipSpaces s);
  Some ((w1, f1), (w2, f2), (w3, f3)).

(** [color.match(/rgba?\(.../)]: the leftmost match. *)
Fixpoint rgbaMatch (color : string)
    : option ((string * string) * (string * string) * (string * string)) :=
  match rgbaAt color with
  | Some captures => Some captures
  | None =>
      match color with
      | String _ color' => rgbaMatch color'
      | EmptyString => None
      end
  end.

Definition hexDigit (c : ascii) : option Z :=
  if isDigit c then Some (digit c)
  else if (97 <=? code c) && (code c <=? 102) then Some (Z.of_nat (code c) - 87)%Z
  else if (65 <=? code c) && (code c <=? 70) then Some (Z.of_nat (code c) - 55)%Z
  else None.

Definition isHexDigit (c : ascii) : bool :=
  match hexDigit c with Some _ => true | None => false end.

Fixpoint hexadecimal (acc : Z) (s : string) : Z :=
  match s with
  | String c s' => hexadecimal (16 * acc + default 0 (hexDigit c))%Z s'
  | EmptyString => acc
  end.

(** [parseInt(s, 16)]; [None] is [NaN]. *)
Definition parseInt16 (s : string) : option Z :=
  let s := skipSpaces s in
  let '(sign, s) :=
    match s with
    | String "-" s' => ((-1)%Z, s')
    | String "+" s' => (1%Z, s')
    | _ => (1%Z, s)
    end in
  let s :=
    match s with
    | String "0" (String "x" s') => s'
    | String "0" (String "X" s') => s'
    | _ => s
    end in
  match span isHexDigit s with
  | O => None
  | n => Some (sign * hexadecimal 0 (take n s))%Z
  end.

(** [hex.substr(start, 2)] *)
Definition substr2 (start : nat) (hex : string) : string := take 2 (drop start hex).

(** [getRGB]: the three channels, each an integer or [NaN]. *)
Definition getRGB (color : string) : error + (option Z * option Z * option Z) :=
  match color with
  | EmptyString => inl InvalidColor
  | _ =>
      if String.eqb color "transparent" then inl InvalidColor
      else
        match rgbaMatch color with
        | Some (c1, c2, c3) =>
            inr (Some (Math_round (parseFloat c1)),
                 Some (Math_round (parseFloat c2)),
                 Some (Math_round (parseFloat c3)))
        | None =>
            match color with
            | String "#" hex =>
                if (6 <=? String.length hex)%nat then
                  inr (parseInt16 (substr2 0 hex),
                       parseInt16 (substr2 2 hex),
                       parseInt16 (substr2 4 hex))
                else inl (ColorParseFailure color)
            | _ => inl (ColorParseFailure color)
            end
        end
  end.

(** [calculateContrast].  A channel that is [NaN] makes every step of
    [calculateContrastRGBA] yield [NaN], here [None]. *)
Definition calculateContrast (color1 color2 : string) : error + option R :=
  match getRGB color1 with
  | inl e => inl e
  | inr (r1, g1, b1) =>
      match getRGB color2 with
      | inl e => inl e
      | inr (r2, g2, b2) =>
          inr (match r1, g1, b1, r2, g2, b2 with
               | Some r1, Some g1, Some b1, Some r2, Some g2, Some b2 =>
                   Some (calculateContrastRGBA (IZR r1) (IZR g1) (IZR b1)
                                               (IZR r2) (IZR g2) (IZR b2))
               | _, _, _, _, _, _ => None
               end)
      end
  end.

(** *** [updateButtonLabels] *)

(** [label.innerHTML.split('<br>')[0]]: the text before the first [<br>]. *)
Fixpoint beforeBr (s : string) : string :=
  match strip "<br>" s with
  | Some _ => EmptyString
  | None =>
      match s with
      | String c s' => String c (beforeBr s')
      | EmptyString => EmptyString
      end
  end.

Section Labels.

(** [contrast.toFixed(2)], the decimal rendering of a number. *)
Variable toFixed2 : option R -> string.

(** The callback of [allButtons.forEach]: the button with its label
    rewritten, or the exception [calculateContrast] throws. *)
Definition updateLabel (b : button) : error + button :=
  match buttonLabel b with
  | None => inr b
  | Some label =>
      let backgroundColor := backgroundColor b in
      let textColor := color label in
      match calculateContrast textColor backgroundColor with
      | inl e => inl e
      | inr contrast =>
          let contrastRatio := toFixed2 contrast in
          let labelText := beforeBr (labelHTML label) in
          inr (Button (pressed b) (toggle b) (ariaDisabled b) (ariaPressed b)
                 (isToggleButton b) (offsetParent b) (showcase b)
                 backgroundColor
                 (Some (Label (labelText +:+ "<br>" +:+ contrastRatio) textColor)))
      end
  end.

(** [updateButtonLabels] on the buttons of the document, in document
    order: the buttons afterwards, and the exception that ended the
    pass, if one was thrown. *)
Fixpoint updateButtonLabels (allButtons : list button)
    : list button * option error :=
  match allButtons with
  | [] => ([], None)
  | b :: rest =>
      match updateLabel b with
      | inl e => (b :: rest, Some e)
      | inr b' =>
          let '(rest', thrown) := updateButtonLabels rest in
          (b' :: rest', thrown)
      end
  end.

End Labels.

End StyleManager.

(** ** The label pass on labels that are read back *)

Module ReadBack.

Import Str StyleManager.

Section Pass.

(** [contrast.toFixed(2)], and what [label.innerHTML] returns once a markup
    has been assigned to it: the serialisation of the nodes the markup was
    parsed to. *)
Variable toFixed2 : option R -> string.
Variable serialized : string -> string.

(** The markup the callback of [allButtons.forEach] assigns to the label
    of [b], if it gets that far. *)
Definition assignedMarkup (b : button) : option string :=
  match buttonLabel b with
  | None => None
  | Some label =>
      match calculateContrast (color label) (backgroundColor b) with
      | inl _ => None
      | inr contrast =>
          Some (beforeBr (labelHTML label) +:+ "<br>" +:+ toFixed2 contrast)
      end
  end.

(** The callback of [allButtons.forEach], where [labelHTML] is what
    [label.innerHTML] returns. *)
Definition updateLabel (b : button) : error + button :=
  match buttonLabel b with
  | None => inr b
  | Some label =>
      let backgroundColor := backgroundColor b in
      let textColor := color label in
      match calculateContrast textColor backgroundColor with
      | inl e => inl e
      | inr contrast =>
          let contrastRatio := toFixed2 contrast in
          let labelText := beforeBr (labelHTML label) in
          inr (Button (pressed b) (toggle b) (ariaDisabled b) (ariaPressed b)
                 (isToggleButton b) (offsetParent b) (showcase b)
                 backgroundColor
                 (Some (Label (serialized (labelText +:+ "<br>" +:+ contrastRatio))
                          textColor)))
      end
  end.

Fixpoint updateButtonLabels (allButtons : list button)
    : list button * option error :=
  match allButtons with
  | [] => ([], None)
  | b :: rest =>
      match updateLabel b with
      | inl e => (b :: rest, Some e)
      | inr b' =>
          let '(rest', thrown) := updateButtonLabels rest in
          (b' :: rest', thrown)
      end
  end.

End Pass.

End ReadBack.

(** ** The document-level event handlers of [initializeApp] *)

Module Interaction.

(** A dispatched event.  [target] lists the elements of class [button] on
    the way from the event target up to the document root, the nearest
    first, each as its position among the buttons of the document. *)
Record event := Event {
  target : list nat;
  defaultPrevented : bool;
  propagationStopped : bool;
  immediatePropagationStopped : bool
}.

(** The buttons of the document and the number of calls of
    [StyleManager.scheduleUpdate] so far. *)
Record page := Page {
  buttons : list button;
  scheduledUpdates : nat
}.

Definition isTrue (attribute : option string) : bool :=
  match attribute with
  | Some v => String.eqb v "true"
  | None => false
  end.

(** [event.target.closest('.button')] *)
Definition closestButton (ev : event) : option nat := head (target ev).

(** [event.target.closest('.button[aria-disabled="true"]')] *)
Definition closestDisabledButton (pg : page) (ev : event) : option nat :=
  List.find
    (fun i => match buttons pg !! i with
              | Some b => isTrue (ariaDisabled b)
              | None => false
              end)
    (target ev).

Definition setPressed (b : button) (on : bool) : button :=
  Button on (toggle b) (ariaDisabled b)
    (Some (if on then "true" else "false"))
    (isToggleButton b) (offsetParent b) (showcase b) (backgroundColor b)
    (buttonLabel b).

(** The [click] listener that toggles a toggle button. *)
Definition toggleClick (ev : event) (pg : page) : event * page :=
  match closestButton ev with
  | None => (ev, pg)
  | Some i =>
      match buttons pg !! i with
      | None => (ev, pg)
      | Some button =>
          if isTrue (ariaDisabled button) || negb (isTrue (isToggleButton button))
          then (ev, pg)
          else
            let wasPressed := pressed button in
            (ev, Page (<[i := setPressed button (negb wasPressed)]> (buttons pg))
                      (S (scheduledUpdates pg)))
      end
  end.

(** [blockDisabledButtonEvents] *)
Definition blockDisabledButtonEvents (ev : event) (pg : page) : event * page :=
  match closestDisabledButton pg ev with
  | Some _ => (Event (target ev) true true true, pg)
  | None => (ev, pg)
  end.

(** A listener registered on [document]: its name, the [useCapture]
    argument of [addEventListener] and the function. *)
Record listener := Listener {
  name : string;
  useCapture : bool;
  handler : event -> page -> event * page
}.

(** The [click] listeners of [document], in the order of registration. *)
Definition clickListeners : list listener :=
  [ Listener "toggle" false toggleClick;
    Listener "blockDisabledButtonEvents" true blockDisabledButtonEvents ].

(** Invokes the listeners of one phase in order; none is invoked once
    [stopImmediatePropagation] was called.  [trace] collects the names of
    the listeners that ran. *)
Fixpoint invoke (ls : list listener) (st : event * page * list string)
    : event * page * list string :=
  match ls with
  | [] => st
  | l :: rest =>
      let '(ev, pg, trace) := st in
      if immediatePropagationStopped ev then st
      else
        let '(ev', pg') := handler l ev pg in
        invoke rest (ev', pg', trace ++ [name l])
  end.

(** Dispatch of a bubbling event whose target lies below [document], as
    far as the listeners of [document] are concerned: the capturing
    listeners run on the way down, the others on the way up unless the
    propagation was stopped. *)
Definition dispatch (listeners : list listener) (ev : event) (pg : page)
    : event * page * list string :=
  let '(ev1, pg1, trace1) :=
    invoke (List.filter useCapture listeners) (ev, pg, []) in
  if propagationStopped ev1 then (ev1, pg1, trace1)
  else invoke (List.filter (fun l => negb (useCapture l)) listeners) (ev1, pg1, trace1).

(** *** Focus navigation with the arrow keys *)

(** What the [keydown] listener did: whether it called [preventDefault]
    and the button whose [focus()] it called, if any. *)
Record navigation := Navigation {
  prevented : bool;
  focusCall : option nat
}.

Definition isArrowKey (key : string) : bool :=
  existsb (String.eqb key)
    ["ArrowDown"; "ArrowUp"; "ArrowRight"; "ArrowLeft"; "Home"; "End"].

(** The buttons of the document, each with its position. *)
Definition numbered (doc : list button) : list (nat * button) :=
  combine (seq 0 (length doc)) doc.

(** [Array.from(document.querySelectorAll('.button')).filter(btn =>
    btn.offsetParent !== null)] *)
Definition visibleButtons (doc : list button) : list (nat * button) :=
  List.filter (fun btn => offsetParent (snd btn)) (numbered doc).

(** [allButtons.indexOf(focusedButton)] *)
Fixpoint indexOf (focusedButton : nat) (allButtons : list (nat * button))
    : option nat :=
  match allButtons with
  | [] => None
  | btn :: rest =>
      if (fst btn =? focusedButton)%nat then Some 0%nat
      else option_map S (indexOf focusedButton rest)
  end.

(** [a !== b] on the results of [closest('.showcase')] *)
Definition differentContainer (a b : option nat) : bool :=
  negb (bool_decide (a = b)).

(** [focusedButton.closest('.showcase')] *)
Definition containerOf (doc : list button) (focusedButton : nat) : option nat :=
  match doc !! focusedButton with
  | Some b => showcase b
  | None => None
  end.

Definition containerAt (allButtons : list (nat * button)) (index : nat)
    : option nat :=
  match allButtons !! index with
  | Some btn => showcase (snd btn)
  | None => None
  end.

(** The loop of the [ArrowDown] case: the first [i] of 1, ..., length - 1
    whose button lies in another container. *)
Definition arrowDownStep (allButtons : list (nat * button))
    (currentIndex : nat) (currentContainer : option nat) : option nat :=
  List.find
    (fun i =>
       let nextIndex := ((currentIndex + i) mod length allButtons)%nat in
       differentContainer (containerAt allButtons nextIndex) currentContainer)
    (seq 1 (length allButtons - 1)).

Definition arrowDown (allButtons : list (nat * button))
    (currentIndex : nat) (currentContainer : option nat) : option (nat * button) :=
  match arrowDownStep allButtons currentIndex currentContainer with
  | Some i => allButtons !! ((currentIndex + i) mod length allButtons)%nat
  | None => None
  end.

(** [(currentIndex - i + allButtons.length) % allButtons.length]; on
    natural numbers the length is added before [i] is subtracted. *)
Definition prevIndexAt (allButtons : list (nat * button))
    (currentIndex i : nat) : nat :=
  ((currentIndex + length allButtons - i) mod length allButtons)%nat.

(** The loop of the [ArrowUp] case. *)
Definition arrowUpStep (allButtons : list (nat * button))
    (currentIndex : nat) (currentContainerUp : option nat) : option nat :=
  List.find
    (fun i =>
       let prevIndex := prevIndexAt allButtons currentIndex i in
       differentContainer (containerAt allButtons prevIndex) currentContainerUp)
    (seq 1 (length allButtons - 1)).

Definition arrowUp (allButtons : list (nat * button))
    (currentIndex : nat) (currentContainerUp : option nat) : option (nat * button) :=
  match arrowUpStep allButtons currentIndex currentContainerUp with
  | Some i =>
      let prevIndex := prevIndexAt allButtons currentIndex i in
      let prevContainer := containerAt allButtons prevIndex in
      let buttonsInPrevContainer :=
        List.filter
          (fun btn => bool_decide (showcase (snd btn) = prevContainer))
          allButtons in
      head buttonsInPrevContainer
  | None => None
  end.

(** The [keydown] listener for the arrow keys.  [activeElement] is the
    position of [document.activeElement] among the buttons, or [None]
    when that element is not of class [button]. *)
Definition arrowNavigation (key : string) (doc : list button)
    (activeElement : option nat) : navigation :=
  match activeElement with
  | None =>
      if isArrowKey key then
        (* document.querySelector('.button') *)
        Navigation true (match doc with [] => None | _ :: _ => Some 0%nat end)
      else Navigation false None
  | Some focusedButton =>
      let allButtons := visibleButtons doc in
      match allButtons with
      | [] => Navigation false None
      | _ :: _ =>
          match indexOf focusedButton allButtons with
          | None => Navigation false None
          | Some currentIndex =>
              let focus targetButton := Navigation true (option_map fst targetButton) in
              if String.eqb key "ArrowRight" then
                let nextIndex := ((currentIndex + 1) mod length allButtons)%nat in
                focus (allButtons !! nextIndex)
              else if String.eqb key "ArrowLeft" then
                let prevIndex :=
                  if (currentIndex =? 0)%nat then (length allButtons - 1)%nat
                  else (currentIndex - 1)%nat in
                focus (allButtons !! prevIndex)
              else if String.eqb key "ArrowDown" then
                focus (arrowDown allButtons currentIndex
                         (containerOf doc focusedButton))
              else if String.eqb key "ArrowUp" then
                focus (arrowUp allButtons currentIndex
                         (containerOf doc focusedButton))
              else if String.eqb key "Home" then
                focus (allButtons !! 0%nat)
              else if String.eqb key "End" then
                focus (allButtons !! (length allButtons - 1)%nat)
              else Navigation false None
          end
      end
  end.

End Interaction.

(** ** The pointer and keyboard listeners of [initializeApp] *)

Module Handlers.

Import Interaction.

(** [button.classList.add('pressed')] and [classList.remove('pressed')]. *)
Definition setClassPressed (b : button) (on : bool) : button :=
  Button on (toggle b) (ariaDisabled b) (ariaPressed b) (isToggleButton b)
    (offsetParent b) (showcase b) (backgroundColor b) (buttonLabel b).

(** The [mousedown] and the [touchstart] listener. *)
Definition pressDown (ev : event) (pg : page) : event * page :=
  match closestButton ev with
  | None => (ev, pg)
  | Some i =>
      match buttons pg !! i with
      | None => (ev, pg)
      | Some button =>
          if negb (isTrue (ariaDisabled button)) && negb (toggle button)
          then (ev, Page (<[i := setClassPressed button true]> (buttons pg))
                         (scheduledUpdates pg))
          else (ev, pg)
      end
  end.

(** The [mouseup], [mouseleave], [touchend] and [touchcancel] listener. *)
Definition release (ev : event) (pg : page) : event * page :=
  match closestButton ev with
  | None => (ev, pg)
  | Some i =>
      match buttons pg !! i with
      | None => (ev, pg)
      | Some button =>
          if pressed button && negb (toggle button)
          then (ev, Page (<[i := setClassPressed button false]> (buttons pg))
                         (S (scheduledUpdates pg)))
          else (ev, pg)
      end
  end.

Definition isActivationKey (key : string) : bool :=
  String.eqb key " " || String.eqb key "Enter" || String.eqb key "NumpadEnter".

(** The page together with the callbacks handed to [setTimeout] that have
    not run yet; a callback is kept as the button chain of the button it
    closes over. *)
Record world := World {
  current : page;
  timers : list (list nat)
}.

(** [enabledButton.dispatchEvent(new MouseEvent('click', ...))]: a fresh
    click on the button at the head of [chain], through the click listeners
    of the document. *)
Definition syntheticClick (chain : list nat) (pg : page) : page :=
  snd (fst (dispatch clickListeners (Event chain false false false) pg)).

(** The first [keydown] listener: [Space] and [Enter]. *)
Definition keyActivation (key : string) (ev : event) (w : world) : event * world :=
  let pg := current w in
  let blocked := Event (target ev) true true (immediatePropagationStopped ev) in
  let activate :=
    match closestButton ev with
    | None => (ev, w)
    | Some i =>
        match buttons pg !! i with
        | None => (ev, w)
        | Some enabledButton =>
            if negb (isTrue (ariaDisabled enabledButton)) && isActivationKey key
            then
              if toggle enabledButton
              then (blocked, World (syntheticClick (target ev) pg) (timers w))
              else (blocked,
                    World (Page (<[i := setClassPressed enabledButton true]> (buttons pg))
                                (scheduledUpdates pg))
                          (timers w ++ [target ev]))
            else (ev, w)
        end
    end in
  match closestDisabledButton pg ev with
  | Some _ => if isActivationKey key then (blocked, w) else activate
  | None => activate
  end.

(** The callback of [setTimeout(..., 100)] for the button chain [chain]. *)
Definition timerCallback (chain : list nat) (pg : page) : page :=
  match head chain with
  | None => pg
  | Some i =>
      match buttons pg !! i with
      | None => pg
      | Some enabledButton =>
          syntheticClick chain
            (Page (<[i := setClassPressed enabledButton false]> (buttons pg))
                  (scheduledUpdates pg))
      end
  end.

(** What reaches the document: events of the pointer and the keyboard, each
    with the button chain of its target, and the expiry of the oldest
    timer. *)
Inductive input :=
| Click (chain : list nat)
| MouseDown (chain : list nat)
| MouseUp (chain : list nat)
| MouseLeave (chain : list nat)
| TouchStart (chain : list nat)
| TouchEnd (chain : list nat)
| TouchCancel (chain : list nat)
| KeyDown (key : string) (chain : list nat)
| TimerExpires.

Definition fresh (chain : list nat) : event := Event chain false false false.

(** One turn of the event loop. *)
Definition step (w : world) (i : input) : world :=
  match i with
  | Click chain => World (syntheticClick chain (current w)) (timers w)
  | MouseDown chain | TouchStart chain =>
      World (snd (pressDown (fresh chain) (current w))) (timers w)
  | MouseUp chain | MouseLeave chain | TouchEnd chain | TouchCancel chain =>
      World (snd (release (fresh chain) (current w))) (timers w)
  | KeyDown key chain => snd (keyActivation key (fresh chain) w)
  | TimerExpires =>
      match timers w with
      | [] => w
      | chain :: rest => World (timerCallback chain (current w)) rest
      end
  end.

Definition run (w : world) (inputs : list input) : world :=
  fold_left step inputs w.

(** The marks of a toggle button agree: a button with
    [data-is-toggle-button="true"] has the class [toggle], and its
    [aria-pressed] says whether it has the class [pressed]. *)
Definition wellMarked (b : button) : Prop :=
  isTrue (isToggleButton b) = true ->
  toggle b = true /\ ariaPressed b = Some (if pressed b then "true" else "false").

(** Two buttons differ at most in the class [pressed] and in
    [aria-pressed]. *)
Definition sameButStatus (b b' : button) : Prop :=
  toggle b' = toggle b /\ ariaDisabled b' = ariaDisabled b /\
  isToggleButton b' = isToggleButton b /\ offsetParent b' = offsetParent b /\
  showcase b' = showcase b /\ backgroundColor b' = backgroundColor b /\
  buttonLabel b' = buttonLabel b.

(** Two buttons agree in what the listeners read of a button and do not
    write: the class [toggle], [aria-disabled], [dataset.isToggleButton] and
    the element [closest('.showcase')] finds. *)
Definition sameAttributes (b b' : button) : Prop :=
  toggle b' = toggle b /\ ariaDisabled b' = ariaDisabled b /\
  isToggleButton b' = isToggleButton b /\ showcase b' = showcase b.

(** What a listener may do to the page: nothing, or replace one button by a
    button that differs in its status only and stays well marked. *)
Definition touches (pg pg' : page) : Prop :=
  pg' = pg \/
  exists i b b' n,
    buttons pg !! i = Some b /\
    pg' = Page (<[i := b']> (buttons pg)) n /\
    sameButStatus b b' /\ (wellMarked b -> wellMarked b').

(** What all listeners keep, also over several touches. *)
Definition keeps (pg pg' : page) : Prop :=
  Forall2 sameButStatus (buttons pg) (buttons pg') /\
  (Forall wellMarked (buttons pg) -> Forall wellMarked (buttons pg')).

(** Every pending timer closes over a button without the class [toggle]. *)
Definition timersOK (w : world) : Prop :=
  Forall (fun chain =>
            exists i b, head chain = Some i /\
                        buttons (current w) !! i = Some b /\ toggle b = false)
         (timers w).

End Handlers.

(** ** Start-up and resizing: [loadAndInject], [setupIconInjection],
    [applyDynamicStyles], [ButtonSystem.init] and [initializeApp] *)

Module Startup.

Import SVGLoader StyleManager.

(** *** [loadAndInject] *)

(** [await this.preloadAllIcons(); this.injectAllIcons()]: the elements and
    the console after the injection, or the rejection of the preload. *)
Definition loadAndInject (net : network)
    (completion iconMap : list (string * Icons.config))
    (document : list target) : M (list target * list message) :=
  fun cache =>
    match preloadAllIcons net completion cache with
    | (cache', inr _) => (cache', inr (injectAllIcons iconMap cache' document))
    | (cache', inl e) => (cache', inl e)
    end.

(** *** [setupIconInjection] *)

(** What lies below a button, as far as [setupIconInjection] looks at it:
    text, and elements with their class lists. *)
#[warnings="-register-all"]
Inductive node :=
| TextNode
| ElementNode (classList : list string) (childNodes : list node).

Definition hasClass (c : string) (classList : list string) : bool :=
  existsb (String.eqb c) classList.

(** The selectors [.icon.pressed] and [.icon:not(.pressed)], on a class
    list. *)
Definition iconPressed (classList : list string) : bool :=
  hasClass "icon" classList && hasClass "pressed" classList.

Definition iconNotPressed (classList : list string) : bool :=
  hasClass "icon" classList && negb (hasClass "pressed" classList).

(** The node or one of its descendants matches [sel]. *)
Fixpoint holds (sel : list string -> bool) (n : node) : bool :=
  match n with
  | TextNode => false
  | ElementNode classList childNodes => sel classList || existsb (holds sel) childNodes
  end.

(** Where [button.querySelector(sel)] finds its element, the first match in
    document order: a child of the button, with its position among the
    child nodes, or an element further down. *)
Inductive found :=
| Child (index : nat)
| Deeper.

Definition shift (r : option found) : option found :=
  match r with
  | Some (Child i) => Some (Child (S i))
  | other => other
  end.

Fixpoint querySelector (sel : list string -> bool) (childNodes : list node)
    : option found :=
  match childNodes with
  | [] => None
  | n :: rest =>
      match n with
      | ElementNode classList _ =>
          if sel classList then Some (Child 0%nat)
          else if holds sel n then Some Deeper
          else shift (querySelector sel rest)
      | TextNode => shift (querySelector sel rest)
      end
  end.

(** [insertBefore] throws when the reference node is not a child of the
    node it is called on. *)
Inductive domException := NotFoundError.

(** [document.createElement('span')] with [className = 'icon pressed']. *)
Definition iconPressedSpan : node := ElementNode ["icon"; "pressed"] [].

(** The child nodes of a toggle button after the first half of the loop
    body. *)
Definition insertIconPressed (childNodes : list node)
    : domException + list node :=
  match querySelector iconPressed childNodes with
  | Some _ => inr childNodes
  | None =>
      match querySelector iconNotPressed childNodes with
      | Some (Child i) =>
          (* button.insertBefore(iconPressedSpan, iconEl) *)
          inr (List.firstn i childNodes ++ iconPressedSpan :: List.skipn i childNodes)
      | Some Deeper => inl NotFoundError
      | None =>
          (* button.insertBefore(iconPressedSpan, button.firstChild) *)
          inr (iconPressedSpan :: childNodes)
      end
  end.

(** The body of the loop over the buttons: a button with its child nodes. *)
Definition prepareButton (el : button * list node)
    : domException + (button * list node) :=
  let '(button, childNodes) := el in
  let isToggleButton := toggle button in
  if isToggleButton then
    match insertIconPressed childNodes with
    | inl e => inl e
    | inr childNodes' =>
        let isInitiallyPressed := pressed button in
        inr (Button (pressed button) (toggle button) (ariaDisabled button)
               (Some (if isInitiallyPressed then "true" else "false"))
               (Some "true")
               (offsetParent button) (showcase button) (backgroundColor button)
               (buttonLabel button),
             childNodes')
    end
  else inr el.

(** [setupIconInjection], after the wait: the buttons afterwards and the
    exception that ended the loop, if one was thrown. *)
Fixpoint setupIconInjection (allButtons : list (button * list node))
    : list (button * list node) * option domException :=
  match allButtons with
  | [] => ([], None)
  | el :: rest =>
      match prepareButton el with
      | inl e => (el :: rest, Some e)
      | inr el' =>
          let '(rest', thrown) := setupIconInjection rest in
          (el' :: rest', thrown)
      end
  end.

(** *** [applyDynamicStyles] *)

(** The geometry of a button: the width and height of
    [getBoundingClientRect()], the value of its style property
    [--min-side] in pixels (if set), and [minSide] of its entry in
    [ButtonSystem.state.styleCache] (if it has one). *)
Record layout := Layout {
  width : R;
  height : R;
  minSideProperty : option R;
  styleCache : option R
}.

(** The body of the loop over the buttons. *)
Definition sizeButton (l : layout) : layout :=
  let minSide := Rmin (width l) (height l) in
  (* (cached.minSide || 0) !== minSide *)
  if Req_dec_T (default 0%R (styleCache l)) minSide then l
  else Layout (width l) (height l) (Some minSide) (Some minSide).

Section Styles.

Variable toFixed2 : option R -> string.

(** [applyDynamicStyles]; [layouts] holds the geometry of the buttons in
    document order. *)
Definition applyDynamicStyles (layouts : list layout) (allButtons : list button)
    : list layout * list button * option error :=
  match allButtons with
  | [] => (layouts, allButtons, None)
  | _ :: _ =>
      let layouts := map sizeButton layouts in
      let '(allButtons, thrown) := updateButtonLabels toFixed2 allButtons in
      (layouts, allButtons, thrown)
  end.

(** *** The [resize] listener of [window] *)

(** [resizeScheduled], the number of callbacks handed to
    [requestAnimationFrame] that have not run yet, the number of calls of
    [applyDynamicStyles] so far, and the buttons with their geometry. *)
Record window := Window {
  resizeScheduled : bool;
  animationFrames : nat;
  styleRuns : nat;
  sizes : list layout;
  labelled : list button
}.

(** What happens to the window: the browser lays the buttons out anew
    ([rects] gives width and height of the button at each position), a
    [resize] event, or the next animation frame. *)
Inductive windowEvent :=
| Relayout (rects : nat -> R * R)
| Resize
| AnimationFrame.

Definition relayout (rects : nat -> R * R) (layouts : list layout) : list layout :=
  imap (fun i l => Layout (fst (rects i)) (snd (rects i))
                     (minSideProperty l) (styleCache l)) layouts.

(** The callback of [requestAnimationFrame]: an exception of
    [applyDynamicStyles] leaves it before [resizeScheduled = false]. *)
Definition frameCallback (w : window) (pending : nat) : window :=
  let '(layouts, allButtons, thrown) := applyDynamicStyles (sizes w) (labelled w) in
  Window (match thrown with Some _ => resizeScheduled w | None => false end)
         pending (S (styleRuns w)) layouts allButtons.

Definition windowStep (w : window) (e : windowEvent) : window :=
  match e with
  | Relayout rects =>
      Window (resizeScheduled w) (animationFrames w) (styleRuns w)
             (relayout rects (sizes w)) (labelled w)
  | Resize =>
      if resizeScheduled w then w
      else Window true (S (animationFrames w)) (styleRuns w) (sizes w) (labelled w)
  | AnimationFrame =>
      match animationFrames w with
      | O => w
      | S pending => frameCallback w pending
      end
  end.

Definition windowRun (w : window) (events : list windowEvent) : window :=
  fold_left windowStep events w.

(** *** [ButtonSystem.init] and [initializeApp] *)

(** The parts of the application state the start-up works on: the icon
    cache, the icon targets of the document, the buttons with their child
    nodes, and the geometry of the buttons. *)
Record appState := AppState {
  iconCache : gmap string string;
  iconTargets : list target;
  buttonElements : list (button * list node);
  geometry : list layout
}.

Inductive failure :=
| LoadFailure (e : exn)
| DomFailure (e : domException)
| ColorFailure (e : error).

(** [ButtonSystem.init]: the four steps in order; an exception of a step
    ends it.  [setupUpdateManager], the fourth step, registers an observer
    and changes nothing of this state. *)
Definition init (net : network) (completion : list (string * Icons.config))
    (a : appState) : appState * option failure :=
  match loadAndInject net completion Icons.createIconMap (iconTargets a) (iconCache a) with
  | (cache1, inl e) =>
      (AppState cache1 (iconTargets a) (buttonElements a) (geometry a),
       Some (LoadFailure e))
  | (cache1, inr (targets1, _)) =>
      match setupIconInjection (buttonElements a) with
      | (buttons2, Some e) =>
          (AppState cache1 targets1 buttons2 (geometry a), Some (DomFailure e))
      | (buttons2, None) =>
          let '(layouts3, labelled3, thrown) :=
            applyDynamicStyles (geometry a) (map fst buttons2) in
          let buttons3 := combine labelled3 (map snd buttons2) in
          (AppState cache1 targets1 buttons3 layouts3,
           option_map ColorFailure thrown)
      end
  end.

(** The listeners [initializeApp] registers behind [await
    ButtonSystem.init()], in order: the event type and the [useCapture]
    argument. *)
Definition registrations : list (string * bool) :=
  [ ("resize", false); ("click", false); ("click", true);
    ("keydown", true); ("keydown", true);
    ("mousedown", true); ("mouseup", true); ("mouseleave", true);
    ("touchstart", false); ("touchend", false); ("touchcancel", false) ].

(** [initializeApp]: the state afterwards, the exception it rejects with
    (that of [init], thrown again), and the listeners it has registered. *)
Definition initializeApp (net : network) (completion : list (string * Icons.config))
    (a : appState) : appState * option failure * list (string * bool) :=
  match init net completion a with
  | (a', Some e) => (a', Some e, [])
  | (a', None) => (a', None, registrations)
  end.

End Styles.

End Startup.

(** ** Vocabulary for markup *)

Module Words.

Import Str.

(** [name] occurs in [s], in any case of its letters. *)
Fixpoint mentions (name s : string) : bool :=
  startsWith_ci name s ||
  match s with
  | String _ s' => mentions name s'
  | EmptyString => false
  end.

(** The keys every object finds on [Object.prototype]; with one of them
    [iconPaths[iconKey]] is not [undefined] although the catalog has no such
    entry. *)
Definition inheritedKeys : list string :=
  [ "__defineGetter__"; "__defineSetter__"; "__lookupGetter__";
    "__lookupSetter__"; "__proto__"; "constructor"; "hasOwnProperty";
    "isPrototypeOf"; "propertyIsEnumerable"; "toLocaleString"; "toString";
    "valueOf" ].

(** The code units below 256. *)
Definition codeUnits : list ascii := map ascii_of_nat (seq 0 256).

End Words.

(** ** Markup as a sequence of directives and other text *)

Module Markup.

Import Str SVGLoader Words.

(** A piece of markup: a [fill] or [stroke] directive in attribute form
    ([name=qvalueq]) or in inline-style form ([name:value], with [blank]
    behind the colon), or other text. *)
Inductive segment :=
| Other (text : string)
| Attribute (name : string) (q : ascii) (value : string)
| Declaration (name blank value : string).

Definition renderSegment (s : segment) : string :=
  match s with
  | Other text => text
  | Attribute name q value => Spec.attribute name q value
  | Declaration name blank value => Spec.declaration name blank value
  end.

(** The markup a list of pieces stands for. *)
Fixpoint render (l : list segment) : string :=
  match l with
  | [] => EmptyString
  | s :: rest => renderSegment s +:+ render rest
  end.

Definition isName (name : string) : bool :=
  String.eqb name "fill" || String.eqb name "stroke".

Definition isQuote (q : ascii) : bool := Ascii.eqb q dquote || Ascii.eqb q squote.

(** The four texts with which a match of one of the six expressions
    begins: the name of a directive and its [=] or [:]. *)
Definition openings : list string := ["fill="; "fill:"; "stroke="; "stroke:"].

(** No directive begins in [s]: none of the four texts occurs in it, in any
    case of the letters.  ([stroke-width], [fill-rule] and the like may.) *)
Definition quiet (s : string) : bool :=
  forallb (fun opening => negb (mentions opening s)) openings.

(** No character of [lit] is [d], in either case. *)
Fixpoint avoids (lit : string) (d : ascii) : bool :=
  match lit with
  | EmptyString => true
  | String c lit' => negb (eq_ci c d) && avoids lit' d
  end.

(** [s] is empty or begins with a character that continues none of the
    four texts behind the first letter: text in front of [s] in which no
    directive begins does not begin one with [s]. *)
Definition boundary (s : string) : bool :=
  match s with
  | EmptyString => true
  | String d _ => avoids "ill=:" d && avoids "troke=:" d
  end.

(** [s] is empty or begins with a character outside [[^;}\s]]: a value in
    front of [s] ends there. *)
Definition delimited (s : string) : bool :=
  match s with
  | EmptyString => true
  | String d _ => negb (isValueChar d)
  end.

(** A piece is in order: a directive is named [fill] or [stroke] in small
    letters, the value of an attribute does not hold its quote, the value
    of a declaration is a non-empty run of [[^;}\s]], and no directive
    begins in a value or in other text. *)
Definition wellFormedSegment (s : segment) : bool :=
  match s with
  | Other text => quiet text
  | Attribute name q value =>
      isName name && isQuote q && negb (contains q value) && quiet value
  | Declaration name blank value =>
      isName name && Spec.blanks blank && quiet value
      && (0 <? String.length value)%nat
      && (span isValueChar value =? String.length value)%nat
  end.

(** What must follow a piece: the value of a declaration ends where the
    piece ends, and other text is not continued to the opening of a
    directive. *)
Definition fits (s : segment) (behind : string) : bool :=
  match s with
  | Other _ => boundary behind
  | Attribute _ _ _ => true
  | Declaration _ _ _ => delimited behind
  end.

Fixpoint wellFormed (l : list segment) : bool :=
  match l with
  | [] => true
  | s :: rest => wellFormedSegment s && fits s (render rest) && wellFormed rest
  end.

(** What the specification asks of [normalizeColors] on one piece: the
    value of a directive becomes [currentColor] unless it begins with
    [none] or [transparent]. *)
Definition rewritten (s : segment) : segment :=
  match s with
  | Other _ => s
  | Attribute name q value =>
      if excluded value then s else Attribute name q "currentColor"
  | Declaration name blank value =>
      if excluded value then s else Declaration name " " "currentColor"
  end.

(** What one pass of [convertToCurrentColor] does to one piece: the pass
    for the attribute [name] in the quote [q], and the pass for the
    declaration [name]. *)
Definition rewrittenAttribute (name : string) (q : ascii) (s : segment) : segment :=
  match s with
  | Attribute n q' value =>
      if String.eqb n name && Ascii.eqb q' q && negb (excluded value)
      then Attribute n q' "currentColor" else s
  | _ => s
  end.

Definition rewrittenDeclaration (name : string) (s : segment) : segment :=
  match s with
  | Declaration n blank value =>
      if String.eqb n name && negb (excluded value)
      then Declaration n " " "currentColor" else s
  | _ => s
  end.

End Markup.


(** ** The generator of the icon catalog: [scripts/update-icons.js] *)

Module UpdateIcons.

Import Str.

(** [s.endsWith(suffix)] *)
Definition endsWith (suffix s : string) : bool :=
  String.eqb (drop (String.length s - String.length suffix) s) suffix.

(** [s.includes(pat)] *)
Fixpoint includes (pat s : string) : bool :=
  match strip pat s with
  | Some _ => true
  | None =>
      match s with
      | String _ s' => includes pat s'
      | EmptyString => false
      end
  end.

(** [s.replace(pat, repl)] for a string [pat]: the first occurrence only. *)
Fixpoint replaceFirst (pat repl s : string) : string :=
  match strip pat s with
  | Some rest => repl +:+ rest
  | None =>
      match s with
      | String c s' => String c (replaceFirst pat repl s')
      | EmptyString => EmptyString
      end
  end.

(** [file.replace('.svg', '')], the key under which a file is entered. *)
Definition iconKey (file : string) : string := replaceFirst ".svg" "" file.

(** [files.sort()]: ascending by code units. *)
Fixpoint insertSorted (x : string) (l : list string) : list string :=
  match l with
  | [] => [x]
  | y :: rest => if String.leb x y then x :: l else y :: insertSorted x rest
  end.

Definition sort (l : list string) : list string := fold_right insertSorted [] l.

(** The callback of [files.forEach]: [iconPaths[key] = file].  A later file
    replaces an earlier one of the same key, and the assignment of a string
    to the key [__proto__] creates no entry. *)
Definition enter (paths : gmap string string) (file : string)
    : gmap string string :=
  let key := iconKey file in
  if String.eqb key "__proto__" then paths else <[key := file]> paths.

(** The own entries of the object [iconPaths] the script builds from the
    directory listing [listing]: the files whose names end in [.svg], in
    sorted order, each under its key. *)
Definition iconPaths (listing : list string) : gmap string string :=
  fold_left enter (sort (List.filter (endsWith ".svg") listing)) ∅.

End UpdateIcons.

(** ** Sample documents *)

Module Samples.

(** A momentary button with the label [OK], black on white. *)
Definition okButton : button :=
  Button false false None None None true (Some 0%nat) "rgb(255, 255, 255)"
    (Some (Label "OK" "rgb(0, 0, 0)")).

(** The same button where the computed colour of the label is in a notation
    [getRGB] does not know. *)
Definition srgbButton : button :=
  Button false false None None None true (Some 0%nat) "rgb(255, 255, 255)"
    (Some (Label "Go" "color(srgb 1 0 0)")).

(** A toggle button after [setupIconInjection], pressed. *)
Definition pressedToggle : button :=
  Button true true None (Some "true") (Some "true") true (Some 0%nat)
    "rgb(0, 0, 0)" None.

(** The same button with [aria-disabled="true"]. *)
Definition disabledToggle : button :=
  Button true true (Some "true") (Some "true") (Some "true") true (Some 0%nat)
    "rgb(0, 0, 0)" None.

(** A click on an element inside the button at position [i]. *)
Definition clickOn (i : nat) : Interaction.event :=
  Interaction.Event [i] false false false.

(** A momentary button in the showcase [sc], rendered or not. *)
Definition plainButton (sc : nat) (rendered : bool) : button :=
  Button false false None None None rendered (Some sc) "rgb(255, 255, 255)" None.

(** Two showcases of five rendered buttons each. *)
Definition grid : list button :=
  repeat (plainButton 0 true) 5 ++ repeat (plainButton 1 true) 5.

(** A document whose first button is not rendered ([display: none]). *)
Definition hiddenFirst : list button :=
  [plainButton 0 false; plainButton 0 true; plainButton 1 true].

(** A document with a pressed toggle button, a disabled one and a momentary
    button with a label; no timer is pending. *)
Definition threeButtons : Handlers.world :=
  Handlers.World (Interaction.Page [pressedToggle; disabledToggle; okButton] 0) [].

(** A button of class [toggle] as the page delivers it, before
    [setupIconInjection]. *)
Definition rawToggle : button :=
  Button false true None None None true (Some 0%nat) "rgb(0, 0, 0)" None.

(** The child nodes of a button: an icon and a label. *)
Definition iconAndLabel : list Startup.node :=
  [ Startup.ElementNode ["content"; "icon"] [];
    Startup.ElementNode ["content"; "label"] [Startup.TextNode] ].

(** The same with the icon inside a wrapping element. *)
Definition wrappedIcon : list Startup.node :=
  [ Startup.ElementNode ["content"]
      [Startup.ElementNode ["icon"] []; Startup.ElementNode ["label"] [Startup.TextNode]] ].

(** A button of 40 by 30 pixels that has not been sized yet. *)
Definition unsized : Startup.layout := Startup.Layout 40 30 None None.

(** The state an application starts from: an empty cache, one icon target,
    a toggle button and a momentary button with a label. *)
Definition freshApp : Startup.appState :=
  Startup.AppState ∅ [SVGLoader.Target (Some "home") false false ""]
    [(rawToggle, iconAndLabel); (okButton, iconAndLabel)] [unsized; unsized].

(** The same with a label whose colour [getRGB] cannot read. *)
Definition brokenApp : Startup.appState :=
  Startup.AppState ∅ [] [(rawToggle, iconAndLabel); (srgbButton, iconAndLabel)]
    [unsized; unsized].

(** A transport on which every request is rejected. *)
Definition offline : SVGLoader.network := fun _ _ _ => SVGLoader.TransportError.

(** [s] between two double quotes. *)
Definition quoted (s : string) : string :=
  String SVGLoader.dquote (s +:+ String SVGLoader.dquote EmptyString).

(** A path whose fill is given in the inline style, in functional notation
    with blanks behind the commas. *)
Definition styledPath : string :=
  "<path style=" +:+ quoted "fill: rgb(255, 0, 0);" +:+ "/>".

(** A transport on which the file of [add] is missing and the fallback
    request of every task is rejected; all other files are served. *)
Definition patchyNetwork : SVGLoader.network :=
  fun key attempt path =>
    match attempt with
    | O =>
        if String.eqb key "add" then SVGLoader.Response false (SVGLoader.Text "Not Found")
        else SVGLoader.Response true (SVGLoader.Text "<svg/>")
    | S _ => SVGLoader.TransportError
    end.

(** A cache with the markup of two icons, and three targets of [add]: a
    plain one, one inside a toggle button with the class [pressed], and one
    inside a toggle button without it. *)
Definition twoIcons : gmap string string :=
  {[ "add" := "<svg fill='#000'/>"; "home" := "<svg/>" ]}.

Definition addTargets : list SVGLoader.target :=
  [ SVGLoader.Target (Some "add") false false "";
    SVGLoader.Target (Some "add") true true "kept";
    SVGLoader.Target (Some "add") true false "" ].

(** An icon as a drawing program writes it, in front of the [fill] of its
    path and behind it: a name space, attributes whose names begin with
    [fill] and [stroke], a stroke in attribute form and two declarations in
    an inline style. *)
Definition iconHead : list Markup.segment :=
  [ Markup.Other ("<svg xmlns=" +:+ quoted "http://www.w3.org/2000/svg"
                  +:+ " viewBox=" +:+ quoted "0 0 24 24"
                  +:+ "><path fill-rule=" +:+ quoted "evenodd" +:+ " ") ].

Definition iconTail : list Markup.segment :=
  [ Markup.Other (" stroke-width=" +:+ quoted "2" +:+ " ");
    Markup.Attribute "stroke" SVGLoader.dquote "#000";
    Markup.Other (" style=" +:+ String SVGLoader.dquote EmptyString);
    Markup.Declaration "fill" EmptyString "none";
    Markup.Other ";";
    Markup.Declaration "stroke" " " "red";
    Markup.Other (";" +:+ String SVGLoader.dquote "/></svg>") ].

(** A rule of a style sheet inside an icon, in front of its [fill] and
    behind it. *)
Definition ruleHead : list Markup.segment :=
  [ Markup.Other "<svg><style>.a{" ].

Definition ruleTail : list Markup.segment :=
  [ Markup.Other (";opacity:0.5}</style><path class=" +:+ quoted "a" +:+ " ");
    Markup.Attribute "fill" SVGLoader.squote "red";
    Markup.Other "/></svg>" ].

(** A read-back that escapes every ampersand, as the serialisation of a
    text does with an ampersand that stands alone. *)
Fixpoint escaped (s : string) : string :=
  match s with
  | String "&" s' => "&amp;" +:+ escaped s'
  | String c s' => String c (escaped s')
  | EmptyString => EmptyString
  end.

End Samples.

(** * Part II: properties *)

(** ** Facts about the luminance formula *)

Section Luminance.

Import StyleManager.
Local Open Scope R_scope.

Lemma Rpower_fifth (x : R) : 0 < x -> (Rpower x 2.4) ^ 5 = x ^ 12.
Proof.
  intros Hx.
  rewrite <- (Rpower_pow 5) by apply exp_pos.
  rewrite Rpower_mult.
  replace (2.4 * INR 5) with (INR 12) by (simpl; lra).
  now apply Rpower_pow.
Qed.

Lemma pow_lt_strict (n : nat) (x y : R) :
  0 <= x -> x < y -> x ^ S n < y ^ S n.
Proof.
  intros Hx Hxy. induction n as [|n IH].
  - simpl. lra.
  - change (x * x ^ S n < y * y ^ S n).
    assert (0 <= x ^ S n) by (apply pow_le; lra).
    apply Rle_lt_trans with (x * y ^ S n).
    + apply Rmult_le_compat_l; lra.
    + apply Rmult_lt_compat_r; lra.
Qed.

Lemma pow5_le_inv (a b : R) : 0 <= b -> a ^ 5 <= b ^ 5 -> a <= b.
Proof.
  intros Hb H.
  destruct (Rle_lt_dec a b) as [|Hlt]; [assumption|].
  pose proof (pow_lt_strict 4 b a Hb Hlt). lra.
Qed.

Lemma pow5_lt_inv (a b : R) : 0 <= a -> a ^ 5 < b ^ 5 -> a < b.
Proof.
  intros Ha H.
  destruct (Rlt_le_dec a b) as [|Hle]; [assumption|].
  assert (b ^ 5 <= a ^ 5); [|lra].
  destruct (Rle_lt_dec 0 b).
  - apply pow_incr; lra.
  - assert (b ^ 5 < 0); [|pose proof (pow_le a 5 Ha); lra].
    replace (b ^ 5) with (- ((- b) ^ 5)) by ring.
    assert (0 < (- b) ^ 5) by (apply pow_lt; lra). lra.
Qed.

(** *** The transfer function of one channel *)

Lemma channel_linear (c : R) : c / 255 <= 0.03928 -> channel c = c / 255 / 12.92.
Proof. intros H. unfold channel. destruct (Rle_dec _ _); [reflexivity | contradiction]. Qed.

Lemma channel_gamma (c : R) :
  0.03928 < c / 255 -> channel c = Rpower ((c / 255 + 0.055) / 1.055) 2.4.
Proof. intros H. unfold channel. destruct (Rle_dec _ _); [lra | reflexivity]. Qed.

Lemma channel_nonneg (c : R) : 0 <= c -> 0 <= channel c.
Proof.
  intros Hc. unfold channel. destruct (Rle_dec _ _).
  - lra.
  - left. apply exp_pos.
Qed.

Lemma channel_le_1 (c : R) : c <= 255 -> channel c <= 1.
Proof.
  intros Hc. unfold channel. destruct (Rle_dec _ _) as [Hl|Hg].
  - lra.
  - assert (H1 : Rpower 1 2.4 = 1).
    { unfold Rpower. now rewrite ln_1, Rmult_0_r, exp_0. }
    apply Rle_trans with (Rpower 1 2.4); [apply Rle_Rpower_l; lra | lra].
Qed.

(** An integer channel is on the linear branch exactly up to 10. *)
Lemma channel_int_linear (z : Z) : (z <= 10)%Z -> IZR z / 255 <= 0.03928.
Proof. intros H. apply IZR_le in H. lra. Qed.

Lemma channel_int_gamma (z : Z) : (11 <= z)%Z -> 0.03928 < IZR z / 255.
Proof. intros H. apply IZR_le in H. lra. Qed.

(** The value of the linear branch at 10 lies below the value of the power
    branch at 11; compared through fifth powers, where [x^2.4] becomes
    [x^12]. *)
Lemma channel_step_10_11 : channel 10 <= channel 11.
Proof.
  rewrite channel_linear, channel_gamma by lra.
  apply pow5_le_inv; [left; apply exp_pos|].
  rewrite Rpower_fifth by lra.
  simpl. lra.
Qed.

Lemma channel_mono_linear (x y : R) :
  x <= y -> y / 255 <= 0.03928 -> channel x <= channel y.
Proof. intros Hxy Hy. rewrite !channel_linear by lra. lra. Qed.

Lemma channel_mono_gamma (x y : R) :
  x <= y -> 0.03928 < x / 255 -> channel x <= channel y.
Proof.
  intros Hxy Hx. rewrite !channel_gamma by lra.
  apply Rle_Rpower_l; lra.
Qed.

Lemma channel_mono_int (z1 z2 : Z) :
  (z1 <= z2)%Z -> channel (IZR z1) <= channel (IZR z2).
Proof.
  intros H.
  destruct (Z_le_gt_dec z2 10) as [H2|H2].
  - apply channel_mono_linear; [now apply IZR_le | now apply channel_int_linear].
  - destruct (Z_le_gt_dec z1 10) as [H1|H1].
    + apply Rle_trans with (channel 10).
      * apply channel_mono_linear; [now apply (IZR_le z1 10) | lra].
      * apply Rle_trans with (channel 11); [apply channel_step_10_11|].
        apply channel_mono_gamma; [apply (IZR_le 11 z2); lia | lra].
    + apply channel_mono_gamma; [now apply IZR_le | apply channel_int_gamma; lia].
Qed.

(** On real-valued channels the transfer function is not monotone: the
    threshold 0.03928 sits where the linear branch is still above the
    power branch, so the value drops just behind 10.0164. *)
Lemma channel_drop_at_threshold : channel 10.017 < channel 10.0164.
Proof.
  rewrite (channel_linear 10.0164), (channel_gamma 10.017) by lra.
  apply pow5_lt_inv; [left; apply exp_pos|].
  rewrite Rpower_fifth by lra.
  simpl. lra.
Qed.

Lemma getLuminance_range (r g b : R) :
  0 <= r <= 255 -> 0 <= g <= 255 -> 0 <= b <= 255 ->
  0 <= getLuminance r g b <= 1.
Proof.
  intros [Hr0 Hr1] [Hg0 Hg1] [Hb0 Hb1]. unfold getLuminance. cbv zeta.
  pose proof (channel_nonneg r Hr0). pose proof (channel_le_1 r Hr1).
  pose proof (channel_nonneg g Hg0). pose proof (channel_le_1 g Hg1).
  pose proof (channel_nonneg b Hb0). pose proof (channel_le_1 b Hb1).
  lra.
Qed.

End Luminance.

(** ** The contrast ratio *)

Section Contrast.

Import StyleManager.
Local Open Scope R_scope.

Lemma contrast_ratio_bounds (l1 l2 : R) :
  0 <= l1 <= 1 -> 0 <= l2 <= 1 ->
  1 <= (Rmax l1 l2 + 0.05) / (Rmin l1 l2 + 0.05) <= 21.
Proof.
  intros H1 H2.
  assert (Hmin : 0 <= Rmin l1 l2) by (apply Rmin_glb; lra).
  assert (Hmax : Rmax l1 l2 <= 1) by (apply Rmax_lub; lra).
  assert (Hle : Rmin l1 l2 <= Rmax l1 l2).
  { apply Rle_trans with l1; [apply Rmin_l | apply Rmax_l]. }
  set (m := Rmin l1 l2) in *. set (M := Rmax l1 l2) in *.
  assert (Hq : (M + 0.05) / (m + 0.05) * (m + 0.05) = M + 0.05) by (field; lra).
  split.
  - destruct (Rle_lt_dec 1 ((M + 0.05) / (m + 0.05))) as [|Hlt]; [assumption|].
    apply Rmult_lt_compat_r with (r := m + 0.05) in Hlt; lra.
  - destruct (Rle_lt_dec ((M + 0.05) / (m + 0.05)) 21) as [|Hlt]; [assumption|].
    apply Rmult_lt_compat_r with (r := m + 0.05) in Hlt; lra.
Qed.

Lemma calculateContrastRGBA_sym (r1 g1 b1 r2 g2 b2 : R) :
  calculateContrastRGBA r1 g1 b1 r2 g2 b2 = calculateContrastRGBA r2 g2 b2 r1 g1 b1.
Proof.
  unfold calculateContrastRGBA. cbv zeta.
  now rewrite (Rmax_comm (getLuminance r1 g1 b1)), (Rmin_comm (getLuminance r1 g1 b1)).
Qed.

Lemma calculateContrastRGBA_range (r1 g1 b1 r2 g2 b2 : R) :
  0 <= r1 <= 255 -> 0 <= g1 <= 255 -> 0 <= b1 <= 255 ->
  0 <= r2 <= 255 -> 0 <= g2 <= 255 -> 0 <= b2 <= 255 ->
  1 <= calculateContrastRGBA r1 g1 b1 r2 g2 b2 <= 21.
Proof.
  intros. unfold calculateContrastRGBA. cbv zeta.
  apply contrast_ratio_bounds; now apply getLuminance_range.
Qed.

Lemma calculateContrastRGBA_same (r g b : R) :
  0 <= r <= 255 -> 0 <= g <= 255 -> 0 <= b <= 255 ->
  calculateContrastRGBA r g b r g b = 1.
Proof.
  intros Hr Hg Hb. unfold calculateContrastRGBA. cbv zeta.
  pose proof (getLuminance_range r g b Hr Hg Hb) as HL.
  unfold Rmax, Rmin. destruct (Rle_dec _ _); field; lra.
Qed.

Lemma IZR_channel_range (z : Z) : (0 <= z <= 255)%Z -> 0 <= IZR z <= 255.
Proof. intros [H0 H1]. split; [apply (IZR_le 0) | apply (IZR_le z 255)]; assumption. Qed.

(** C2: for two colours whose channels parse to integers between 0 and
    255, [calculateContrast] returns the same ratio in both argument
    orders, the ratio lies between 1 and 21, and the ratio of a colour
    with itself is 1. *)
Theorem calculateContrast_symmetric_bounded
    (colorA colorB : string) (r1 g1 b1 r2 g2 b2 : Z) :
  getRGB colorA = inr (Some r1, Some g1, Some b1) ->
  getRGB colorB = inr (Some r2, Some g2, Some b2) ->
  (0 <= r1 <= 255)%Z -> (0 <= g1 <= 255)%Z -> (0 <= b1 <= 255)%Z ->
  (0 <= r2 <= 255)%Z -> (0 <= g2 <= 255)%Z -> (0 <= b2 <= 255)%Z ->
  exists ratio : R,
    calculateContrast colorA colorB = inr (Some ratio) /\
    calculateContrast colorB colorA = inr (Some ratio) /\
    1 <= ratio <= 21 /\
    calculateContrast colorA colorA = inr (Some 1).
Proof.
  intros HA HB Hr1 Hg1 Hb1 Hr2 Hg2 Hb2.
  apply IZR_channel_range in Hr1, Hg1, Hb1, Hr2, Hg2, Hb2.
  exists (calculateContrastRGBA (IZR r1) (IZR g1) (IZR b1) (IZR r2) (IZR g2) (IZR b2)).
  unfold calculateContrast. rewrite HA, HB.
  repeat split.
  - now rewrite calculateContrastRGBA_sym.
  - now apply calculateContrastRGBA_range.
  - now apply calculateContrastRGBA_range.
  - now rewrite calculateContrastRGBA_same.
Qed.

Lemma calculateContrast_symmetric_bounded_witness :
  exists ratio : R,
    calculateContrast "#000000" "rgb(255, 255, 255)" = inr (Some ratio) /\
    calculateContrast "rgb(255, 255, 255)" "#000000" = inr (Some ratio) /\
    1 <= ratio <= 21 /\
    calculateContrast "#000000" "#000000" = inr (Some 1).
Proof.
  apply (calculateContrast_symmetric_bounded
           "#000000" "rgb(255, 255, 255)" 0 0 0 255 255 255);
    solve [vm_compute; reflexivity | lia].
Defined.

(** C5: on integer channels between 0 and 255 the luminance does not
    decrease when one channel grows and the other two stay fixed. *)
Theorem getLuminance_monotone_in_each_channel (x y u v : Z) :
  (0 <= x)%Z -> (x <= y)%Z -> (y <= 255)%Z ->
  (0 <= u <= 255)%Z -> (0 <= v <= 255)%Z ->
  getLuminance (IZR x) (IZR u) (IZR v) <= getLuminance (IZR y) (IZR u) (IZR v) /\
  getLuminance (IZR u) (IZR x) (IZR v) <= getLuminance (IZR u) (IZR y) (IZR v) /\
  getLuminance (IZR u) (IZR v) (IZR x) <= getLuminance (IZR u) (IZR v) (IZR y).
Proof.
  intros _ Hxy _ _ _.
  pose proof (channel_mono_int x y Hxy) as Hc.
  unfold getLuminance. cbv zeta. repeat split; lra.
Qed.

Lemma getLuminance_monotone_in_each_channel_witness :
  getLuminance 10 0 255 <= getLuminance 11 0 255 /\
  getLuminance 0 10 255 <= getLuminance 0 11 255 /\
  getLuminance 0 255 10 <= getLuminance 0 255 11.
Proof.
  apply (getLuminance_monotone_in_each_channel 10 11 0 255); lia.
Defined.

(** Black on white has the largest ratio, 21. *)
Example calculateContrastRGBA_black_white :
  calculateContrastRGBA 0 0 0 255 255 255 = 21.
Proof.
  assert (H0 : channel 0 = 0) by (rewrite channel_linear; lra).
  assert (H1 : channel 255 = 1).
  { rewrite channel_gamma by lra.
    replace ((255 / 255 + 0.055) / 1.055) with 1 by lra.
    unfold Rpower. now rewrite ln_1, Rmult_0_r, exp_0. }
  unfold calculateContrastRGBA, getLuminance. cbv zeta. rewrite H0, H1.
  unfold Rmax, Rmin. destruct (Rle_dec _ _); lra.
Qed.

(** The two notations of a colour parse to the same channels, a fraction is
    rounded, and what is not a colour in one of the two notations throws. *)
Example getRGB_samples :
  getRGB "rgb(0, 0, 0)" = getRGB "#000000" /\
  getRGB "rgba(255, 127.5, 0, 0.5)" = inr (Some 255, Some 128, Some 0)%Z /\
  getRGB "#ff8000" = inr (Some 255, Some 128, Some 0)%Z /\
  getRGB "#ff80zz" = inr (Some 255, Some 128, None)%Z /\
  getRGB "" = inl InvalidColor /\
  getRGB "transparent" = inl InvalidColor /\
  getRGB "#fff" = inl (ColorParseFailure "#fff") /\
  getRGB "color(srgb 1 0 0)" = inl (ColorParseFailure "color(srgb 1 0 0)").
Proof. repeat split. Qed.

End Contrast.


(** ** The label pass *)

Section LabelPass.

Import StyleManager.

Variable toFixed2 : option R -> string.

Lemma updateLabel_throws_iff (b : button) (e : error) :
  updateLabel toFixed2 b = inl e <->
  exists l, buttonLabel b = Some l /\
            calculateContrast (color l) (backgroundColor b) = inl e.
Proof.
  unfold updateLabel. destruct (buttonLabel b) as [l|].
  - cbv zeta. destruct (calculateContrast _ _) as [e'|c] eqn:E; split.
    + intros [= <-]. eauto.
    + intros (l' & [= <-] & H). congruence.
    + discriminate.
    + intros (l' & [= <-] & H). congruence.
  - split; [discriminate | intros (l & H & _); discriminate].
Qed.

(** A pass in which no computation throws rewrites every button. *)
Lemma updateButtonLabels_completes (allButtons updated : list button) :
  Forall2 (fun b b' => updateLabel toFixed2 b = inr b') allButtons updated ->
  updateButtonLabels toFixed2 allButtons = (updated, None).
Proof.
  induction 1 as [|b b' bs bs' Hb _ IH]; simpl.
  - reflexivity.
  - now rewrite Hb, IH.
Qed.


End LabelPass.

Section LabelPassExamples.

Import StyleManager Samples.





End LabelPassExamples.


(** ** Loading the icons *)

Section Preload.

Import SVGLoader Icons.

Variable net : network.

Lemma loadIcon_run (key : string) (config : Icons.config) (cache : gmap string string) :
  loadIcon net (key, config) cache
  = (<[key := Spec.cachedMarkup net key config]> cache, inr tt).
Proof.
  unfold loadIcon, Spec.cachedMarkup, tryCatch, bind, awaitFetch, awaitText,
    cacheSet, throw, ret.
  destruct (net key 0%nat (path config)) as [[|] [m|]|]; simpl;
    try reflexivity;
    destruct (net key 1%nat (getIconPath fallbackIcon)) as [[|] [m'|]|];
    reflexivity.
Qed.

Lemma preloadAllIcons_run (entries : list (string * Icons.config))
    (cache : gmap string string) :
  preloadAllIcons net entries cache = (Spec.written net entries cache, inr tt).
Proof.
  unfold preloadAllIcons. revert cache.
  induction entries as [|[key config] rest IH]; intros cache.
  - reflexivity.
  - cbn [map promiseAll Spec.written]. now rewrite loadIcon_run, IH.
Qed.

Lemma written_lookup_other (entries : list (string * Icons.config))
    (cache : gmap string string) (key : string) :
  ~ In key (map fst entries) -> Spec.written net entries cache !! key = cache !! key.
Proof.
  revert cache. induction entries as [|[k c] rest IH]; intros cache Hnot; simpl.
  - reflexivity.
  - rewrite IH by (intros H; apply Hnot; simpl; now right).
    apply lookup_insert_ne. intros ->. apply Hnot. simpl. now left.
Qed.

(** The last task that writes [key] decides the entry; when all entries of a
    key agree on the configuration, that is the entry of the key. *)
Lemma written_lookup (entries : list (string * Icons.config))
    (cache : gmap string string) (key : string) (config : Icons.config) :
  In (key, config) entries ->
  (forall config', In (key, config') entries -> config' = config) ->
  Spec.written net entries cache !! key = Some (Spec.cachedMarkup net key config).
Proof.
  revert cache. induction entries as [|[k c] rest IH]; intros cache Hin Hsame.
  - inversion Hin.
  - simpl. destruct (in_dec String.string_dec key (map fst rest)) as [Hrest|Hrest].
    + apply in_map_iff in Hrest as ([k' c'] & Hk & Hin'). simpl in Hk. subst k'.
      apply IH.
      * rewrite (Hsame c') in Hin' by (now right). exact Hin'.
      * intros config' H. apply Hsame. now right.
    + rewrite written_lookup_other by exact Hrest.
      destruct Hin as [[= -> ->]|Hin].
      * apply lookup_insert_eq.
      * exfalso. apply Hrest. apply in_map_iff. now exists (key, config).
Qed.

Lemma written_dom (entries : list (string * Icons.config))
    (cache : gmap string string) :
  dom (Spec.written net entries cache) = dom cache ∪ list_to_set (map fst entries).
Proof.
  revert cache. induction entries as [|[k c] rest IH]; intros cache; simpl.
  - now rewrite union_empty_r_L.
  - rewrite IH, dom_insert_L.
    now rewrite (union_comm_L {[k]} (dom cache)), <- union_assoc_L.
Qed.

(** Every entry of the icon map carries the configuration made from its
    key. *)
Lemma createIconMapIn_config (paths : list (string * string))
    (key : string) (config : Icons.config) :
  In (key, config) (createIconMapIn paths) ->
  config = Config (getIconPathIn paths key) key.
Proof.
  unfold createIconMapIn. intros H.
  apply in_map_iff in H as ([k f] & [= <- <-] & _). reflexivity.
Qed.

Lemma createIconMapIn_keys (paths : list (string * string)) :
  map fst (createIconMapIn paths) = map fst paths.
Proof.
  unfold createIconMapIn. rewrite map_map. apply map_ext. now intros [k f].
Qed.

(** C1: whatever the order in which the tasks finish, [preloadAllIcons]
    resolves, and afterwards the cache holds for every identifier of the
    catalog the markup the specification names: the fetched markup, else
    the fallback markup, else the empty string.  The keys added to the
    cache are exactly the identifiers of the catalog. *)
Theorem preloadAllIcons_fills_cache
    (paths : list (string * string))
    (completion : list (string * Icons.config)) (cache0 : gmap string string) :
  Permutation completion (createIconMapIn paths) ->
  exists cache : gmap string string,
    preloadAllIcons net completion cache0 = (cache, inr tt) /\
    (forall key config,
        In (key, config) (createIconMapIn paths) ->
        cache !! key
        = Some (match net key 0%nat (path config) with
                | Response true (Text markup) => markup
                | _ =>
                    match net key 1%nat (getIconPath fallbackIcon) with
                    | Response true (Text markup) => markup
                    | _ => EmptyString
                    end
                end)) /\
    dom cache = dom cache0 ∪ list_to_set (map fst paths).
Proof.
  intros Hperm. exists (Spec.written net completion cache0).
  split; [apply preloadAllIcons_run|]. split.
  - intros key config Hin.
    change (Spec.written net completion cache0 !! key
            = Some (Spec.cachedMarkup net key config)).
    apply written_lookup.
    + eapply Permutation_in; [symmetry; exact Hperm | exact Hin].
    + intros config' Hin'.
      apply (Permutation_in _ Hperm) in Hin'.
      apply createIconMapIn_config in Hin, Hin'. congruence.
  - rewrite written_dom. f_equal.
    rewrite <- createIconMapIn_keys.
    apply set_eq. intros k. rewrite !elem_of_list_to_set, !list_elem_of_In.
    split; apply Permutation_in; [apply Permutation_map; exact Hperm|].
    apply Permutation_map. now symmetry.
Qed.

End Preload.

Section PreloadExamples.

Import SVGLoader Icons.

Lemma preloadAllIcons_fills_cache_witness :
  exists cache : gmap string string,
    preloadAllIcons Samples.patchyNetwork (rev createIconMap) ∅ = (cache, inr tt) /\
    (forall key config,
        In (key, config) (createIconMapIn iconPaths) ->
        cache !! key
        = Some (match Samples.patchyNetwork key 0%nat (path config) with
                | Response true (Text markup) => markup
                | _ =>
                    match Samples.patchyNetwork key 1%nat (getIconPath fallbackIcon) with
                    | Response true (Text markup) => markup
                    | _ => EmptyString
                    end
                end)) /\
    dom cache = dom (∅ : gmap string string) ∪ list_to_set (map fst iconPaths).
Proof.
  apply (preloadAllIcons_fills_cache Samples.patchyNetwork iconPaths
           (rev createIconMap) ∅).
  symmetry. apply Permutation_rev.
Defined.

(** On that transport [add] ends up empty and [home] holds its markup. *)
Example preloadAllIcons_patchy :
  let cache := fst (preloadAllIcons Samples.patchyNetwork createIconMap ∅) in
  cache !! "add" = Some EmptyString /\ cache !! "home" = Some "<svg/>"
  /\ cache !! "logo" = None.
Proof. vm_compute. repeat split. Qed.

End PreloadExamples.

(** ** Injecting the icons *)

Section Inject.

Import SVGLoader Icons.

Variable cache : gmap string string.

Lemma injectIcon_document (document : list target) (console : list message)
    (entry : string * Icons.config) :
  fst (injectIcon cache (document, console) entry)
  = map (fun el => Spec.injectStep cache el entry) document.
Proof.
  destruct entry as [key config]. unfold injectIcon, Spec.injectStep.
  destruct (String.eqb key "toggle"); [now rewrite map_id|].
  destruct (cache !! key) as [[|c m]|]; simpl; try now rewrite map_id.
  reflexivity.
Qed.

Lemma fold_injectIcon_document (entries : list (string * Icons.config))
    (document : list target) (console : list message) :
  fst (fold_left (injectIcon cache) entries (document, console))
  = map (fun el => fold_left (Spec.injectStep cache) entries el) document.
Proof.
  revert document console.
  induction entries as [|entry rest IH]; intros document console; simpl.
  - now rewrite map_id.
  - destruct (injectIcon cache (document, console) entry) as [document' console'] eqn:E.
    rewrite IH.
    pose proof (injectIcon_document document console entry) as H.
    rewrite E in H. simpl in H. rewrite H, map_map. reflexivity.
Qed.

Lemma createIconMapIn_selectsOwnKey (paths : list (string * string)) :
  Forall Spec.selectsOwnKey (createIconMapIn paths).
Proof.
  unfold createIconMapIn. apply Forall_forall. intros entry H.
  apply list_elem_of_In, in_map_iff in H as ([k f] & <- & _). reflexivity.
Qed.

Lemma injected_nil (el : target) : Spec.injected [] cache el = el.
Proof.
  destruct el as [[key|] t p h]; reflexivity.
Qed.

Lemma injected_cons (key : string) (config : Icons.config)
    (keys : list string) (el : target) :
  selector config = key ->
  Spec.injected keys cache (Spec.injectStep cache el (key, config))
  = Spec.injected (key :: keys) cache el.
Proof.
  intros Hsel. destruct el as [d t p h].
  unfold Spec.injected, Spec.injectedContent, Spec.injectStep, matchesSelector,
    injectInto.
  rewrite Hsel. cbn [dataIcon closestToggle classPressed innerHTML].
  destruct d as [k|].
  2:{ destruct (String.eqb key "toggle"), (cache !! key) as [[|c m]|]; reflexivity. }
  rewrite (bool_decide_ext _ _ (elem_of_cons keys k key)), bool_decide_or.
  destruct (String.eqb_spec k key) as [->|Hne].
  - rewrite bool_decide_true by reflexivity. cbn [orb].
    destruct (String.eqb key "toggle") eqn:Etoggle.
    + cbn. now rewrite Etoggle, !andb_false_r.
    + destruct (cache !! key) as [[|c m]|] eqn:Ecache;
        cbn [dataIcon closestToggle classPressed innerHTML];
        rewrite ?Etoggle, ?Ecache; cbn [negb andb];
        try (destruct (bool_decide (key ∈ keys)), (t && p); reflexivity).
      destruct (t && p) eqn:Eskip;
        cbn [dataIcon closestToggle classPressed innerHTML];
        rewrite ?Etoggle, ?Ecache, ?Eskip, ?andb_false_r; cbn [negb andb];
        destruct (bool_decide (key ∈ keys)); reflexivity.
  - rewrite (bool_decide_false (k = key)) by exact Hne. cbn [orb].
    destruct (String.eqb key "toggle"), (cache !! key) as [[|c m]|]; reflexivity.
Qed.

Lemma fold_injectStep (entries : list (string * Icons.config)) (el : target) :
  Forall Spec.selectsOwnKey entries ->
  fold_left (Spec.injectStep cache) entries el
  = Spec.injected (map fst entries) cache el.
Proof.
  intros Hsel. revert el.
  induction Hsel as [|[key config] rest Hkey _ IH]; intros el.
  - symmetry. apply injected_nil.
  - cbn [fold_left map fst]. rewrite IH. now apply injected_cons.
Qed.

Lemma injectIcon_console (document : list target) (console : list message)
    (entry : string * Icons.config) (m : message) :
  In m console -> In m (snd (injectIcon cache (document, console) entry)).
Proof.
  intros Hm. destruct entry as [key config]. unfold injectIcon.
  destruct (String.eqb key "toggle"); [exact Hm|].
  destruct (cache !! key) as [[|c s]|]; cbn [snd];
    try (apply in_or_app; now left).
  destruct (_ =? _)%nat; [apply in_or_app; now left | exact Hm].
Qed.

Lemma fold_injectIcon_console (entries : list (string * Icons.config))
    (document : list target) (console : list message) (m : message) :
  In m console ->
  In m (snd (fold_left (injectIcon cache) entries (document, console))).
Proof.
  revert document console.
  induction entries as [|entry rest IH]; intros document console Hm; simpl.
  - exact Hm.
  - destruct (injectIcon cache (document, console) entry) as [document' console'] eqn:E.
    apply IH. pose proof (injectIcon_console document console entry m Hm) as H.
    now rewrite E in H.
Qed.

Lemma injectStep_dataIcon (el : target) (entry : string * Icons.config) :
  dataIcon (Spec.injectStep cache el entry) = dataIcon el.
Proof.
  destruct entry as [key config]. unfold Spec.injectStep, injectInto.
  destruct (String.eqb key "toggle"); [reflexivity|].
  destruct (cache !! key) as [[|c s]|]; try reflexivity.
  destruct (matchesSelector _ _); [|reflexivity].
  destruct (_ && _); reflexivity.
Qed.

Lemma injectIcon_dataIcon (document : list target) (console : list message)
    (entry : string * Icons.config) :
  map dataIcon (fst (injectIcon cache (document, console) entry))
  = map dataIcon document.
Proof.
  rewrite injectIcon_document, map_map. apply map_ext.
  intros el. apply injectStep_dataIcon.
Qed.

(** An entry with a usable markup whose selector matches nothing writes
    [NoElements] to the console. *)
Lemma injectIcon_no_elements (document : list target) (console : list message)
    (key : string) (config : Icons.config) (c : ascii) (markup : string) :
  String.eqb key "toggle" = false ->
  cache !! key = Some (String c markup) ->
  ~ In (Some (selector config)) (map dataIcon document) ->
  In (NoElements (selector config))
     (snd (injectIcon cache (document, console) (key, config))).
Proof.
  intros Htoggle Hcache Hnone. unfold injectIcon. rewrite Htoggle, Hcache.
  cbn [snd].
  assert (Hempty : List.filter (matchesSelector (selector config)) document = []).
  { clear -Hnone. induction document as [|el rest IH]; [reflexivity|].
    cbn [List.filter]. destruct (matchesSelector (selector config) el) eqn:Hm.
    - exfalso. apply Hnone. left. unfold matchesSelector in Hm.
      destruct (dataIcon el) as [v|]; [|discriminate].
      apply String.eqb_eq in Hm. now subst.
    - apply IH. intros H. apply Hnone. now right. }
  cbv zeta. rewrite Hempty. cbn. apply in_or_app. right. now left.
Qed.

Lemma fold_injectIcon_no_elements (entries : list (string * Icons.config))
    (document : list target) (console : list message)
    (key : string) (config : Icons.config) (c : ascii) (markup : string) :
  In (key, config) entries ->
  String.eqb key "toggle" = false ->
  cache !! key = Some (String c markup) ->
  ~ In (Some (selector config)) (map dataIcon document) ->
  In (NoElements (selector config))
     (snd (fold_left (injectIcon cache) entries (document, console))).
Proof.
  intros Hin Htoggle Hcache. revert document console.
  induction entries as [|entry rest IH]; intros document console Hnone.
  - inversion Hin.
  - cbn [fold_left].
    destruct (injectIcon cache (document, console) entry) as [document' console'] eqn:E.
    destruct Hin as [->|Hin].
    + apply fold_injectIcon_console.
      pose proof (injectIcon_no_elements document console key config c markup
                    Htoggle Hcache Hnone) as H.
      now rewrite E in H.
    + apply IH; [exact Hin|].
      pose proof (injectIcon_dataIcon document console entry) as H.
      rewrite E in H. cbn [fst] in H. now rewrite H.
Qed.

(** An entry without a usable markup writes [NoCachedSvg] to the console. *)
Lemma injectIcon_no_cached (document : list target) (console : list message)
    (key : string) (config : Icons.config) :
  String.eqb key "toggle" = false ->
  cache !! key = None \/ cache !! key = Some EmptyString ->
  In (NoCachedSvg key) (snd (injectIcon cache (document, console) (key, config))).
Proof.
  intros Htoggle Hcache. unfold injectIcon. rewrite Htoggle.
  destruct Hcache as [-> | ->]; cbn [snd]; apply in_or_app; right; now left.
Qed.

Lemma fold_injectIcon_no_cached (entries : list (string * Icons.config))
    (document : list target) (console : list message)
    (key : string) (config : Icons.config) :
  In (key, config) entries ->
  String.eqb key "toggle" = false ->
  cache !! key = None \/ cache !! key = Some EmptyString ->
  In (NoCachedSvg key)
     (snd (fold_left (injectIcon cache) entries (document, console))).
Proof.
  intros Hin Htoggle Hcache. revert document console.
  induction entries as [|entry rest IH]; intros document console.
  - inversion Hin.
  - cbn [fold_left].
    destruct (injectIcon cache (document, console) entry) as [document' console'] eqn:E.
    destruct Hin as [->|Hin].
    + apply fold_injectIcon_console.
      pose proof (injectIcon_no_cached document console key config Htoggle Hcache) as H.
      now rewrite E in H.
    + now apply IH.
Qed.

(** C9 (as the code has it): [injectAllIcons] returns; it leaves every
    attribute of an element alone and sets the content of an element from
    the normalised cached markup exactly when the value of its [data-icon]
    is an identifier of the catalog other than [toggle], the cache holds a
    non-empty markup for it, and the element is not one that has
    [closest('.toggle')] and the class [pressed]; all other content stays.
    An identifier with a non-empty markup whose selector matches no element
    is reported on the console, and so is an identifier whose markup is
    missing or empty.

    The statement is about documents for which the list of elements is the
    whole truth: no markup that is injected and no content that is replaced
    holds the text [data-icon], so that no assignment to [innerHTML] adds an
    element to the selection of a later identifier or takes one away. *)
Theorem injectAllIcons_injects_cached_markup
    (paths : list (string * string)) (document : list target) :
  (forall key markup,
      In key (map fst paths) -> cache !! key = Some markup ->
      Words.mentions "data-icon" (convertToCurrentColor markup) = false) ->
  Forall (fun el => Words.mentions "data-icon" (innerHTML el) = false) document ->
  fst (injectAllIcons (createIconMapIn paths) cache document)
  = map (Spec.injected (map fst paths) cache) document
  /\
  (forall key c markup,
      In key (map fst paths) ->
      key <> "toggle" ->
      cache !! key = Some (String c markup) ->
      ~ In (Some key) (map dataIcon document) ->
      In (NoElements key)
         (snd (injectAllIcons (createIconMapIn paths) cache document)))
  /\
  (forall key,
      In key (map fst paths) ->
      key <> "toggle" ->
      cache !! key = None \/ cache !! key = Some EmptyString ->
      In (NoCachedSvg key)
         (snd (injectAllIcons (createIconMapIn paths) cache document))).
Proof.
  intros _ _. unfold injectAllIcons.
  destruct (fold_left (injectIcon cache) (createIconMapIn paths) (document, []))
    as [document' console'] eqn:E.
  cbn [fst snd]. split; [|split].
  - pose proof (fold_injectIcon_document (createIconMapIn paths) document []) as H.
    rewrite E in H. cbn [fst] in H. rewrite H.
    apply map_ext. intros el.
    rewrite fold_injectStep by apply createIconMapIn_selectsOwnKey.
    now rewrite createIconMapIn_keys.
  - intros key c markup Hkey Htoggle Hcache Hnone.
    apply in_or_app. left.
    rewrite <- createIconMapIn_keys in Hkey.
    apply in_map_iff in Hkey as ([k config] & Hk & Hin). cbn in Hk. subst k.
    pose proof (createIconMapIn_config _ _ _ Hin) as ->.
    pose proof (fold_injectIcon_no_elements (createIconMapIn paths) document []
                  key _ c markup Hin) as H.
    rewrite E in H. cbn [snd selector] in H. apply H; try assumption.
    now apply String.eqb_neq.
  - intros key Hkey Htoggle Hcache.
    apply in_or_app. left.
    rewrite <- createIconMapIn_keys in Hkey.
    apply in_map_iff in Hkey as ([k config] & Hk & Hin). cbn in Hk. subst k.
    pose proof (fold_injectIcon_no_cached (createIconMapIn paths) document []
                  key config Hin) as H.
    rewrite E in H. cbn [snd] in H. apply H; [|exact Hcache].
    now apply String.eqb_neq.
Qed.

End Inject.

Section InjectExamples.

Import SVGLoader Icons.

(** The claim of C9 as the specification words it fails for an identifier
    whose cached markup is the empty string: the content of its targets is
    not replaced by the (empty) normalised markup but kept. *)
Lemma injectAllIcons_keeps_content_for_empty_markup :
  ~ (forall (paths : list (string * string)) (cache : gmap string string)
            (document : list target) (key markup : string) (i : nat) (el : target),
        In key (map fst paths) ->
        key <> "toggle" ->
        cache !! key = Some markup ->
        document !! i = Some el ->
        dataIcon el = Some key ->
        closestToggle el && classPressed el = false ->
        innerHTML <$> (fst (injectAllIcons (createIconMapIn paths) cache document) !! i)
        = Some (convertToCurrentColor markup)).
Proof.
  intros claim.
  specialize (claim iconPaths {["add" := EmptyString]}
                [Target (Some "add") false false "+"] "add" EmptyString 0%nat
                (Target (Some "add") false false "+")).
  assert (H : innerHTML <$>
                (fst (injectAllIcons (createIconMapIn iconPaths)
                        {["add" := EmptyString]}
                        [Target (Some "add") false false "+"]) !! 0%nat)
              = Some "+") by (vm_compute; reflexivity).
  rewrite H in claim.
  assert (Hc : Some "+" = Some (convertToCurrentColor EmptyString)).
  { apply claim; try reflexivity.
    - cbn. now left.
    - discriminate. }
  discriminate Hc.
Qed.

(** A run on three targets of [add]: the plain one is set from the
    normalised markup, the one inside a toggle button with the class
    [pressed] is skipped; [home], cached but without a target, and
    [warning], not cached, are reported. *)
Lemma injectAllIcons_injects_cached_markup_witness :
  fst (injectAllIcons createIconMap Samples.twoIcons Samples.addTargets)
  = [ Target (Some "add") false false "<svg fill='currentColor'/>";
      Target (Some "add") true true "kept";
      Target (Some "add") true false "<svg fill='currentColor'/>" ] /\
  In (NoElements "home")
     (snd (injectAllIcons createIconMap Samples.twoIcons Samples.addTargets)) /\
  In (NoCachedSvg "warning")
     (snd (injectAllIcons createIconMap Samples.twoIcons Samples.addTargets)).
Proof.
  destruct (injectAllIcons_injects_cached_markup Samples.twoIcons iconPaths
              Samples.addTargets) as (Hdocument & Hnone & Hmissing).
  - intros key markup _ Hcache. unfold Samples.twoIcons in Hcache.
    destruct (decide (key = "add")) as [->|Hadd].
    { rewrite lookup_insert_eq in Hcache. now injection Hcache as <-. }
    rewrite lookup_insert_ne in Hcache by congruence.
    destruct (decide (key = "home")) as [->|Hhome].
    { rewrite lookup_singleton_eq in Hcache. now injection Hcache as <-. }
    rewrite lookup_singleton_ne in Hcache by congruence. discriminate.
  - repeat constructor.
  - split; [|split].
    + unfold createIconMap. rewrite Hdocument. reflexivity.
    + apply (Hnone "home" "<"%char "svg/>").
      * cbn. tauto.
      * discriminate.
      * reflexivity.
      * cbn. intuition discriminate.
    + apply (Hmissing "warning").
      * cbn. tauto.
      * discriminate.
      * left. reflexivity.
Defined.

(** A run on three targets of [add]: the plain one receives the normalised
    markup, the one inside a toggle button with the class [pressed] is
    skipped, and [home], cached but without a target, is reported. *)
Example injectAllIcons_sample :
  let cache : gmap string string :=
    {[ "add" := "<svg fill='#000'/>"; "home" := "<svg/>" ]} in
  let document :=
    [ Target (Some "add") false false "";
      Target (Some "add") true true "kept";
      Target (Some "add") true false "" ] in
  fst (injectAllIcons createIconMap cache document)
  = [ Target (Some "add") false false "<svg fill='currentColor'/>";
      Target (Some "add") true true "kept";
      Target (Some "add") true false "<svg fill='currentColor'/>" ]
  /\ In (NoElements "home") (snd (injectAllIcons createIconMap cache document))
  /\ In (NoCachedSvg "warning") (snd (injectAllIcons createIconMap cache document)).
Proof.
  vm_compute. split; [reflexivity|]. split; tauto.
Qed.

End InjectExamples.

(** ** Clicks on disabled buttons *)

Section DisabledClick.

Import Interaction.

Lemma closestDisabledButton_found (pg : page) (ev : event) (i : nat) (b : button) :
  In i (target ev) ->
  buttons pg !! i = Some b ->
  ariaDisabled b = Some "true" ->
  exists j, closestDisabledButton pg ev = Some j.
Proof.
  intros Hin Hb Hdis. unfold closestDisabledButton.
  destruct (List.find _ (target ev)) as [j|] eqn:E; [now exists j|].
  exfalso. apply (find_none _ _ E) in Hin. rewrite Hb in Hin.
  unfold isTrue in Hin. rewrite Hdis in Hin. discriminate.
Qed.

(** C7: a click whose target lies inside a button with
    [aria-disabled="true"] reaches the capturing listener
    [blockDisabledButtonEvents] and no other listener; the event ends with
    its default action prevented and its propagation stopped, also among the
    listeners of the same node, and no button of the page has changed. *)
Theorem disabled_click_is_suppressed
    (pg : page) (ev : event) (i : nat) (b : button) :
  In i (target ev) ->
  buttons pg !! i = Some b ->
  ariaDisabled b = Some "true" ->
  immediatePropagationStopped ev = false ->
  dispatch clickListeners ev pg
  = (Event (target ev) true true true, pg, ["blockDisabledButtonEvents"]).
Proof.
  intros Hin Hb Hdis Hfresh.
  destruct (closestDisabledButton_found pg ev i b Hin Hb Hdis) as [j Hj].
  unfold dispatch, clickListeners. cbn [List.filter useCapture negb invoke].
  rewrite Hfresh. cbn [handler name]. unfold blockDisabledButtonEvents.
  rewrite Hj. reflexivity.
Qed.

End DisabledClick.

Section DisabledClickExamples.

Import Interaction Samples.

Lemma disabled_click_is_suppressed_witness :
  dispatch clickListeners (clickOn 1) (Page [pressedToggle; disabledToggle] 0)
  = (Event [1%nat] true true true, Page [pressedToggle; disabledToggle] 0,
     ["blockDisabledButtonEvents"]).
Proof.
  apply (disabled_click_is_suppressed
           (Page [pressedToggle; disabledToggle] 0) (clickOn 1) 1 disabledToggle).
  - simpl. now left.
  - reflexivity.
  - reflexivity.
  - reflexivity.
Defined.

(** The same click on the enabled toggle button releases it, through the
    [toggle] listener alone. *)
Example enabled_click_toggles :
  dispatch clickListeners (clickOn 0) (Page [pressedToggle; disabledToggle] 0)
  = (clickOn 0,
     Page [Button false true None (Some "false") (Some "true") true (Some 0%nat)
             "rgb(0, 0, 0)" None;
           disabledToggle] 1,
     ["blockDisabledButtonEvents"; "toggle"]).
Proof. reflexivity. Qed.

End DisabledClickExamples.

(** ** Focus navigation *)

Section Navigation.

Import Interaction.

(** *** The loops: the first hit of [find] on a range *)

Lemma find_seq_first (p : nat -> bool) (a n i : nat) :
  List.find p (seq a n) = Some i ->
  a <= i < a + n /\ p i = true /\ forall j, a <= j < i -> p j = false.
Proof.
  revert a. induction n as [|n IH]; intros a; simpl.
  - discriminate.
  - destruct (p a) eqn:E.
    + intros [= <-]. repeat split; [lia | lia | exact E | intros; lia].
    + intros H. apply IH in H as (Hr & Hp & Hmin).
      repeat split; [lia | lia | exact Hp |].
      intros j Hj. destruct (decide (j = a)) as [->|Hne]; [exact E|].
      apply Hmin. lia.
Qed.


(** *** Index arithmetic of the circular search *)



Lemma differentContainer_true (a b : option nat) :
  differentContainer a b = true <-> a <> b.
Proof.
  unfold differentContainer. rewrite negb_true_iff, bool_decide_eq_false. reflexivity.
Qed.



(** *** [ArrowDown] and [ArrowUp] on the list of visible buttons *)


(** Without a button of another container the loop finds nothing. *)
Lemma arrowDown_none (allButtons : list (nat * button)) (currentIndex : nat)
    (cur : option nat) :
  (forall k, k < length allButtons -> containerAt allButtons k = cur) ->
  arrowDown allButtons currentIndex cur = None.
Proof.
  intros Hall. unfold arrowDown, arrowDownStep.
  destruct (List.find _ _) as [i|] eqn:E; [|reflexivity].
  apply find_seq_first in E as (Hr & Hp & _).
  apply differentContainer_true in Hp. exfalso. apply Hp, Hall.
  apply Nat.mod_upper_bound. lia.
Qed.

(** The first element of a filtered list is the first element of the list
    that passes the filter. *)
Lemma head_filter_first {A} (p : A -> bool) (l : list A) (x : A) :
  head (List.filter p l) = Some x ->
  exists k, l !! k = Some x /\ p x = true /\
            forall k' y, k' < k -> l !! k' = Some y -> p y = false.
Proof.
  induction l as [|a l IH]; simpl; [discriminate|].
  destruct (p a) eqn:E.
  - intros [= <-]. exists 0. repeat split; [exact E | intros; lia].
  - intros H. destruct (IH H) as (k & Hk & Hp & Hmin).
    exists (S k). repeat split; [exact Hk | exact Hp |].
    intros [|k'] y Hlt Hy; simpl in Hy.
    + now injection Hy as <-.
    + apply (Hmin k'); [lia | exact Hy].
Qed.



(** *** The listener *)

Lemma numbered_from_In (doc : list button) (a i : nat) (b : button) :
  In (i, b) (combine (seq a (length doc)) doc) ->
  a <= i /\ doc !! (i - a) = Some b.
Proof.
  revert a. induction doc as [|b0 doc IH]; intros a; simpl; [tauto|].
  intros [[= <- <-]|H].
  - split; [lia|]. now rewrite Nat.sub_diag.
  - apply IH in H as [Hle Hb]. split; [lia|].
    replace (i - a) with (S (i - S a)) by lia. exact Hb.
Qed.

Lemma visibleButtons_In (doc : list button) (i : nat) (b : button) :
  In (i, b) (visibleButtons doc) -> doc !! i = Some b /\ offsetParent b = true.
Proof.
  unfold visibleButtons, numbered. intros H. apply filter_In in H as [H Hvis].
  apply numbered_from_In in H as [_ H]. rewrite Nat.sub_0_r in H. now split.
Qed.

Lemma indexOf_Some (focusedButton : nat) (allButtons : list (nat * button))
    (currentIndex : nat) :
  indexOf focusedButton allButtons = Some currentIndex ->
  exists b, allButtons !! currentIndex = Some (focusedButton, b).
Proof.
  revert currentIndex.
  induction allButtons as [|[i b] rest IH]; intros currentIndex; simpl; [discriminate|].
  destruct (Nat.eqb_spec i focusedButton) as [->|Hne].
  - intros [= <-]. now exists b.
  - destruct (indexOf focusedButton rest) as [ci|]; [|discriminate].
    intros [= <-]. exact (IH ci eq_refl).
Qed.


Lemma arrowNavigation_ArrowDown (doc : list button) (focusedButton currentIndex : nat) :
  indexOf focusedButton (visibleButtons doc) = Some currentIndex ->
  arrowNavigation "ArrowDown" doc (Some focusedButton)
  = Navigation true
      (option_map fst (arrowDown (visibleButtons doc) currentIndex
                         (containerOf doc focusedButton))).
Proof.
  intros H. unfold arrowNavigation.
  destruct (visibleButtons doc) as [|btn rest] eqn:E; [discriminate|].
  now rewrite H.
Qed.



(** Where all visible buttons lie in the focused button's showcase,
    [ArrowDown] calls no [focus()]. *)
Lemma arrowDown_single_showcase (doc : list button) (focusedButton currentIndex : nat) :
  indexOf focusedButton (visibleButtons doc) = Some currentIndex ->
  (forall k, k < length (visibleButtons doc) ->
     containerAt (visibleButtons doc) k = containerOf doc focusedButton) ->
  arrowNavigation "ArrowDown" doc (Some focusedButton) = Navigation true None.
Proof.
  intros Hindex Hall.
  rewrite (arrowNavigation_ArrowDown _ _ _ Hindex).
  now rewrite arrowDown_none.
Qed.

(** *** Arrow keys while no button has the focus *)

(** The listener then calls [focus()] on the first button of the document,
    [document.querySelector('.button')], and returns. *)
Lemma arrowNavigation_no_focus (key : string) (doc : list button) :
  isArrowKey key = true ->
  arrowNavigation key doc None
  = Navigation true (match doc with [] => None | _ :: _ => Some 0 end).
Proof. intros H. unfold arrowNavigation. now rewrite H. Qed.

End Navigation.

Section NavigationExamples.

Import Interaction Samples.


(** From the third button of the first showcase [ArrowDown] reaches the
    first button of the second one, and [ArrowUp] from the third button of
    the second showcase reaches the first button of the first one. *)
Example arrow_keys_on_grid :
  arrowNavigation "ArrowDown" grid (Some 2) = Navigation true (Some 5) /\
  arrowNavigation "ArrowUp" grid (Some 7) = Navigation true (Some 0) /\
  arrowNavigation "ArrowUp" grid (Some 2) = Navigation true (Some 5).
Proof. repeat split. Qed.

(** C8, at a document whose first button is not rendered: with no button
    focused, [ArrowDown] calls [focus()] on that first button (position 0),
    not on the first visible button (position 1). *)
Lemma arrow_key_without_focus_targets_hidden_button :
  arrowNavigation "ArrowDown" hiddenFirst None = Navigation true (Some 0) /\
  option_map fst (head (visibleButtons hiddenFirst)) = Some 1 /\
  option_map offsetParent (hiddenFirst !! 0) = Some false.
Proof. repeat split. Qed.

End NavigationExamples.

(** ** Normalising the colours *)

Section ConvertExamples.

Import SVGLoader Samples.

(** The directives the specification lists are rewritten, and [none] and
    [transparent] stay, in either case of the letters. *)
Example convertToCurrentColor_directives :
  convertToCurrentColor ("<g fill=" +:+ quoted "#ff0000" +:+ " STROKE='Blue'>")
    = "<g fill=" +:+ quoted "currentColor" +:+ " stroke='currentColor'>" /\
  convertToCurrentColor ("<g fill=" +:+ quoted "none" +:+ " stroke='Transparent'>")
    = "<g fill=" +:+ quoted "none" +:+ " stroke='Transparent'>" /\
  convertToCurrentColor ".a{fill:#ff0000;stroke: NONE}"
    = ".a{fill: currentColor;stroke: NONE}".
Proof. repeat split. Qed.

(** C4, at an inline style whose colour is written with blanks: the match of
    [[^;}\s]+] ends at the first blank, and what is left of the old value
    stays behind [currentColor], so the directive does not become the
    inherit-colour directive. *)
Lemma convertToCurrentColor_splits_spaced_value :
  convertToCurrentColor styledPath
  = "<path style=" +:+ quoted "fill: currentColor 0, 0);" +:+ "/>".
Proof. reflexivity. Qed.

(** The same expression takes a closing quote that follows the value
    directly for a part of the value. *)
Example convertToCurrentColor_takes_closing_quote :
  convertToCurrentColor ("<path style=" +:+ quoted "fill:#ff0000" +:+ "/>")
  = "<path style=" +:+ String dquote "fill: currentColor".
Proof. reflexivity. Qed.

End ConvertExamples.

Section Convert.

Import Str SVGLoader.

Lemma replaceFrom_id (re : string -> option nat) (repl s : string) :
  (forall n, re (drop n s) = None) -> replaceFrom re repl 0 s = s.
Proof.
  induction s as [|c s IH]; intros Hnone; [reflexivity|].
  cbn [replaceFrom]. rewrite (Hnone 0%nat : re (String c s) = None).
  f_equal. apply IH. intros n. exact (Hnone (S n)).
Qed.

Lemma startsWith_ci_app (lit s t : string) :
  startsWith_ci lit s = true -> startsWith_ci lit (s +:+ t) = true.
Proof.
  unfold startsWith_ci. revert s.
  induction lit as [|a lit IH]; intros s; [reflexivity|].
  destruct s as [|c s]; simpl; [discriminate|].
  destruct (eq_ci a c); [apply IH | discriminate].
Qed.

Lemma excluded_app (value t : string) :
  excluded value = true -> excluded (value +:+ t) = true.
Proof.
  unfold excluded. intros H. apply orb_true_iff in H as [H|H];
    apply (startsWith_ci_app _ _ t) in H; rewrite H;
    [reflexivity | apply orb_true_r].
Qed.

(** *** Directives whose value begins with [none] or [transparent] *)

Lemma isSpace_not_letter (a c : ascii) :
  (a = "n" \/ a = "t")%char -> eq_ci a c = true -> isSpace c = false.
Proof.
  intros [-> | ->]; destruct c as [[] [] [] [] [] [] [] []]; vm_compute; congruence.
Qed.

Lemma excluded_no_blank (value : string) :
  excluded value = true -> span isSpace value = 0%nat.
Proof.
  unfold excluded, startsWith_ci. intros H.
  destruct value as [|c v]; [discriminate|]. simpl in *.
  destruct (eq_ci "n" c) eqn:En.
  - now rewrite (isSpace_not_letter "n" c (or_introl eq_refl) En).
  - destruct (eq_ci "t" c) eqn:Et; [|discriminate].
    now rewrite (isSpace_not_letter "t" c (or_intror eq_refl) Et).
Qed.

(** The greedy [\s*] stops in front of such a value. *)
Lemma skip_blanks (blank value : string) :
  Spec.blanks blank = true -> excluded value = true ->
  drop (span isSpace (blank +:+ value)) (blank +:+ value) = value.
Proof.
  intros Hb Hex. induction blank as [|c blank IH].
  - change (drop (span isSpace value) value = value).
    now rewrite (excluded_no_blank value Hex).
  - change (drop (span isSpace (String c (blank +:+ value)))
                 (String c (blank +:+ value)) = value).
    cbn [Spec.blanks] in Hb. apply andb_true_iff in Hb as [Hc Hb].
    cbn [span]. rewrite Hc. cbn [drop]. exact (IH Hb).
Qed.

Lemma length_append (s t : string) :
  String.length (s +:+ t) = (String.length s + String.length t)%nat.
Proof. induction s as [|c s IH]; simpl; [reflexivity | now rewrite IH]. Qed.

Lemma append_cons (c : ascii) (s t : string) : String c s +:+ t = String c (s +:+ t).
Proof. reflexivity. Qed.

Lemma append_assoc (s t u : string) : (s +:+ t) +:+ u = s +:+ (t +:+ u).
Proof.
  induction s as [|c s IH]; [reflexivity|]. rewrite !append_cons. now rewrite IH.
Qed.

(** *** The text of a directive *)

Lemma strip_ci_self (lit r : string) : strip_ci lit (lit +:+ r) = Some r.
Proof.
  induction lit as [|a lit IH]; [reflexivity|].
  rewrite append_cons. cbn [strip_ci]. unfold eq_ci. now rewrite Ascii.eqb_refl.
Qed.

Lemma span_until_quote (q : ascii) (value t : string) :
  contains q value = false ->
  span (fun c => negb (Ascii.eqb c q)) (value +:+ String q t) = String.length value.
Proof.
  induction value as [|c value IH].
  - intros _. change (EmptyString +:+ String q t) with (String q t).
    cbn [span String.length]. now rewrite Ascii.eqb_refl.
  - intros H. cbn [contains] in H. apply orb_false_iff in H as [Hc H].
    rewrite append_cons. cbn [span String.length].
    rewrite Ascii.eqb_sym, Hc. cbn [negb]. now rewrite IH.
Qed.

Lemma drop_length_append (s t : string) : drop (String.length s) (s +:+ t) = t.
Proof.
  induction s as [|c s IH]; [now destruct t|].
  rewrite append_cons. exact IH.
Qed.

End Convert.


(** ** The pointer and keyboard listeners *)

Section Listeners.

Import Interaction Handlers.

(** *** A fresh click *)

Lemma toggleClick_event (ev : event) (pg : page) : fst (toggleClick ev pg) = ev.
Proof.
  unfold toggleClick. destruct (closestButton ev) as [i|]; [|reflexivity].
  destruct (buttons pg !! i) as [b|]; [|reflexivity].
  destruct (_ || _); reflexivity.
Qed.

(** A click either is stopped by the blocker or reaches the toggle
    listener. *)
Lemma syntheticClick_unfold (chain : list nat) (pg : page) :
  syntheticClick chain pg
  = match closestDisabledButton pg (fresh chain) with
    | Some _ => pg
    | None => snd (toggleClick (fresh chain) pg)
    end.
Proof.
  unfold syntheticClick, dispatch, clickListeners.
  cbn [List.filter useCapture negb invoke immediatePropagationStopped handler name].
  unfold blockDisabledButtonEvents. fold (fresh chain).
  destruct (closestDisabledButton pg (fresh chain)) as [j|]; [reflexivity|].
  cbn [propagationStopped fresh immediatePropagationStopped].
  destruct (toggleClick (fresh chain) pg) as [ev' pg'] eqn:E.
  pose proof (toggleClick_event (fresh chain) pg) as Hev. rewrite E in Hev.
  cbn [fst] in Hev. subst ev'. reflexivity.
Qed.

Lemma sameButStatus_refl (b : button) : sameButStatus b b.
Proof. repeat split. Qed.

Lemma sameButStatus_trans (a b c : button) :
  sameButStatus a b -> sameButStatus b c -> sameButStatus a c.
Proof.
  unfold sameButStatus. intros (?&?&?&?&?&?&?) (?&?&?&?&?&?&?).
  repeat split; congruence.
Qed.

Lemma sameButStatus_setPressed (b : button) (on : bool) :
  sameButStatus b (setPressed b on).
Proof. unfold sameButStatus. cbn. tauto. Qed.

Lemma sameButStatus_setClassPressed (b : button) (on : bool) :
  sameButStatus b (setClassPressed b on).
Proof. unfold sameButStatus. cbn. tauto. Qed.

(** Changing the class [pressed] alone is harmless on a button without the
    class [toggle]. *)
Lemma wellMarked_setClassPressed (b : button) (on : bool) :
  toggle b = false -> wellMarked b -> wellMarked (setClassPressed b on).
Proof.
  intros Htoggle Hmark Hdata. cbn in Hdata.
  destruct (Hmark Hdata) as [Ht _]. congruence.
Qed.

Lemma toggleClick_touches (ev : event) (pg : page) :
  touches pg (snd (toggleClick ev pg)).
Proof.
  unfold toggleClick. destruct (closestButton ev) as [i|]; [|now left].
  destruct (buttons pg !! i) as [b|] eqn:Hb; [|now left].
  destruct (_ || _) eqn:Hguard; [now left|].
  right. exists i, b, (setPressed b (negb (pressed b))), (S (scheduledUpdates pg)).
  split; [exact Hb|]. split; [reflexivity|]. split; [apply sameButStatus_setPressed|].
  intros Hmark Hdata. cbn in Hdata. destruct (Hmark Hdata) as [Ht _].
  split; [exact Ht|]. cbn. now destruct (pressed b).
Qed.

Lemma pressDown_touches (ev : event) (pg : page) :
  touches pg (snd (pressDown ev pg)).
Proof.
  unfold pressDown. destruct (closestButton ev) as [i|]; [|now left].
  destruct (buttons pg !! i) as [b|] eqn:Hb; [|now left].
  destruct (_ && _) eqn:Hguard; [|now left].
  apply andb_true_iff in Hguard as [_ Htoggle]. apply negb_true_iff in Htoggle.
  right. exists i, b, (setClassPressed b true), (scheduledUpdates pg).
  split; [exact Hb|]. split; [reflexivity|].
  split; [apply sameButStatus_setClassPressed|].
  now apply wellMarked_setClassPressed.
Qed.

Lemma release_touches (ev : event) (pg : page) :
  touches pg (snd (release ev pg)).
Proof.
  unfold release. destruct (closestButton ev) as [i|]; [|now left].
  destruct (buttons pg !! i) as [b|] eqn:Hb; [|now left].
  destruct (_ && _) eqn:Hguard; [|now left].
  apply andb_true_iff in Hguard as [_ Htoggle]. apply negb_true_iff in Htoggle.
  right. exists i, b, (setClassPressed b false), (S (scheduledUpdates pg)).
  split; [exact Hb|]. split; [reflexivity|].
  split; [apply sameButStatus_setClassPressed|].
  now apply wellMarked_setClassPressed.
Qed.

Lemma syntheticClick_touches (chain : list nat) (pg : page) :
  touches pg (syntheticClick chain pg).
Proof.
  rewrite syntheticClick_unfold.
  destruct (closestDisabledButton pg (fresh chain)); [now left|].
  apply toggleClick_touches.
Qed.

(** *** What is kept by a touch *)

Lemma touches_length (pg pg' : page) :
  touches pg pg' -> length (buttons pg') = length (buttons pg).
Proof.
  intros [->|(i & b & b' & n & _ & -> & _)]; [reflexivity|].
  cbn. apply length_insert.
Qed.

Lemma touches_wellMarked (pg pg' : page) :
  touches pg pg' -> Forall wellMarked (buttons pg) -> Forall wellMarked (buttons pg').
Proof.
  intros [->|(i & b & b' & n & Hb & -> & _ & Hmark)] Hall; [exact Hall|].
  cbn. apply Forall_insert; [exact Hall|].
  apply Hmark. eapply Forall_lookup_1; eassumption.
Qed.

Lemma touches_sameButStatus (pg pg' : page) :
  touches pg pg' -> Forall2 sameButStatus (buttons pg) (buttons pg').
Proof.
  intros [->|(i & b & b' & n & Hb & -> & Hsame & _)].
  - apply Forall2_same_length_lookup. split; [reflexivity|].
    intros j x y Hx Hy. rewrite Hx in Hy. injection Hy as <-. apply sameButStatus_refl.
  - cbn. apply Forall2_same_length_lookup. split; [now rewrite length_insert|].
    intros j x y Hx Hy. destruct (decide (i = j)) as [<-|Hne].
    + rewrite list_lookup_insert_eq in Hy by (eapply lookup_lt_Some; exact Hb).
      injection Hy as <-. rewrite Hb in Hx. now injection Hx as <-.
    + rewrite list_lookup_insert_ne in Hy by exact Hne.
      rewrite Hx in Hy. injection Hy as <-. apply sameButStatus_refl.
Qed.

(** *** The keyboard listener and its timer *)

Lemma touches_keeps (pg pg' : page) : touches pg pg' -> keeps pg pg'.
Proof.
  intros H. split; [now apply touches_sameButStatus | now apply touches_wellMarked].
Qed.

Lemma keeps_trans (a b c : page) : keeps a b -> keeps b c -> keeps a c.
Proof.
  intros [Hab Mab] [Hbc Mbc]. split; [|auto].
  apply Forall2_same_length_lookup. split.
  - rewrite (Forall2_length _ _ _ Hab). apply (Forall2_length _ _ _ Hbc).
  - intros j x z Hx Hz.
    destruct (Forall2_lookup_l _ _ _ _ _ Hab Hx) as (y & Hy & Hxy).
    destruct (Forall2_lookup_l _ _ _ _ _ Hbc Hy) as (z' & Hz' & Hyz).
    rewrite Hz in Hz'. injection Hz' as <-.
    eapply sameButStatus_trans; eassumption.
Qed.

Lemma keeps_timer (pg pg' : page) (chain : list nat) :
  keeps pg pg' ->
  (exists i b, head chain = Some i /\ buttons pg !! i = Some b /\ toggle b = false) ->
  exists i b, head chain = Some i /\ buttons pg' !! i = Some b /\ toggle b = false.
Proof.
  intros [Hsame _] (i & b & Hhead & Hb & Htoggle).
  destruct (Forall2_lookup_l _ _ _ _ _ Hsame Hb) as (b' & Hb' & Hbb').
  exists i, b'. repeat split; try assumption.
  destruct Hbb' as [Ht _]. congruence.
Qed.

Lemma keyActivation_keeps (key : string) (ev : event) (w : world) :
  keeps (current w) (current (snd (keyActivation key ev w))).
Proof.
  assert (Hrefl : keeps (current w) (current w)) by (apply touches_keeps; now left).
  assert (Hact :
    keeps (current w)
      (current (snd
         match closestButton ev with
         | None => (ev, w)
         | Some i =>
             match buttons (current w) !! i with
             | None => (ev, w)
             | Some enabledButton =>
                 if negb (isTrue (ariaDisabled enabledButton)) && isActivationKey key
                 then
                   if toggle enabledButton
                   then (Event (target ev) true true (immediatePropagationStopped ev),
                         World (syntheticClick (target ev) (current w)) (timers w))
                   else (Event (target ev) true true (immediatePropagationStopped ev),
                         World (Page (<[i := setClassPressed enabledButton true]>
                                        (buttons (current w)))
                                     (scheduledUpdates (current w)))
                               (timers w ++ [target ev]))
                 else (ev, w)
             end
         end))).
  { destruct (closestButton ev) as [i|]; [|exact Hrefl].
    destruct (buttons (current w) !! i) as [b|] eqn:Hb; [|exact Hrefl].
    destruct (_ && _); [|exact Hrefl].
    destruct (toggle b) eqn:Htoggle; cbn [snd current].
    - apply touches_keeps, syntheticClick_touches.
    - apply touches_keeps. right.
      exists i, b, (setClassPressed b true), (scheduledUpdates (current w)).
      split; [exact Hb|]. split; [reflexivity|].
      split; [apply sameButStatus_setClassPressed|].
      now apply wellMarked_setClassPressed. }
  unfold keyActivation. cbv zeta.
  destruct (closestDisabledButton (current w) ev); [|exact Hact].
  destruct (isActivationKey key); [exact Hrefl | exact Hact].
Qed.

(** The listener adds a timer only for a button without the class
    [toggle]. *)
Lemma keyActivation_timers (key : string) (ev : event) (w : world) :
  timers (snd (keyActivation key ev w)) = timers w \/
  (timers (snd (keyActivation key ev w)) = timers w ++ [target ev] /\
   exists i b, head (target ev) = Some i /\
               buttons (current w) !! i = Some b /\ toggle b = false).
Proof.
  unfold keyActivation. cbv zeta.
  assert (Hact :
    let r :=
      match closestButton ev with
      | None => (ev, w)
      | Some i =>
          match buttons (current w) !! i with
          | None => (ev, w)
          | Some enabledButton =>
              if negb (isTrue (ariaDisabled enabledButton)) && isActivationKey key
              then
                if toggle enabledButton
                then (Event (target ev) true true (immediatePropagationStopped ev),
                      World (syntheticClick (target ev) (current w)) (timers w))
                else (Event (target ev) true true (immediatePropagationStopped ev),
                      World (Page (<[i := setClassPressed enabledButton true]>
                                     (buttons (current w)))
                                  (scheduledUpdates (current w)))
                            (timers w ++ [target ev]))
              else (ev, w)
          end
      end in
    timers (snd r) = timers w \/
    (timers (snd r) = timers w ++ [target ev] /\
     exists i b, head (target ev) = Some i /\
                 buttons (current w) !! i = Some b /\ toggle b = false)).
  { cbv zeta. unfold closestButton.
    destruct (head (target ev)) as [i|] eqn:Hhead; [|now left].
    destruct (buttons (current w) !! i) as [b|] eqn:Hb; [|now left].
    destruct (_ && _); [|now left].
    destruct (toggle b) eqn:Htoggle; [now left|].
    right. split; [reflexivity|]. now exists i, b. }
  cbv zeta in Hact.
  destruct (closestDisabledButton (current w) ev); [|exact Hact].
  destruct (isActivationKey key); [now left | exact Hact].
Qed.

Lemma timerCallback_keeps (chain : list nat) (pg : page) :
  (exists i b, head chain = Some i /\ buttons pg !! i = Some b /\ toggle b = false) ->
  keeps pg (timerCallback chain pg).
Proof.
  intros (i & b & Hhead & Hb & Htoggle). unfold timerCallback. rewrite Hhead, Hb.
  eapply keeps_trans; [|apply touches_keeps, syntheticClick_touches].
  apply touches_keeps. right.
  exists i, b, (setClassPressed b false), (scheduledUpdates pg).
  split; [exact Hb|]. split; [reflexivity|].
  split; [apply sameButStatus_setClassPressed|].
  now apply wellMarked_setClassPressed.
Qed.

(** One turn of the event loop keeps the buttons and the timers in order. *)
Lemma step_keeps (w : world) (i : input) :
  timersOK w -> keeps (current w) (current (step w i)) /\ timersOK (step w i).
Proof.
  intros Htimers.
  assert (Hcarry : forall pg', keeps (current w) pg' -> timersOK (World pg' (timers w))).
  { intros pg' Hk. unfold timersOK in *. cbn [current timers].
    eapply Forall_impl; [exact Htimers|]. intros chain. now apply keeps_timer. }
  destruct i as [chain|chain|chain|chain|chain|chain|chain|key chain|]; cbn [step].
  - assert (Hk := touches_keeps _ _ (syntheticClick_touches chain (current w))). auto.
  - assert (Hk := touches_keeps _ _ (pressDown_touches (fresh chain) (current w))). auto.
  - assert (Hk := touches_keeps _ _ (release_touches (fresh chain) (current w))). auto.
  - assert (Hk := touches_keeps _ _ (release_touches (fresh chain) (current w))). auto.
  - assert (Hk := touches_keeps _ _ (pressDown_touches (fresh chain) (current w))). auto.
  - assert (Hk := touches_keeps _ _ (release_touches (fresh chain) (current w))). auto.
  - assert (Hk := touches_keeps _ _ (release_touches (fresh chain) (current w))). auto.
  - pose proof (keyActivation_keeps key (fresh chain) w) as Hk.
    split; [exact Hk|]. unfold timersOK.
    destruct (keyActivation_timers key (fresh chain) w) as [-> | [-> Hnew]].
    + eapply Forall_impl; [exact Htimers|]. intros c. now apply keeps_timer.
    + apply Forall_app. split.
      * eapply Forall_impl; [exact Htimers|]. intros c. now apply keeps_timer.
      * constructor; [|constructor]. now apply (keeps_timer (current w)).
  - destruct (timers w) as [|chain rest] eqn:Et.
    + split; [apply touches_keeps; now left|]. unfold timersOK. now rewrite Et.
    + unfold timersOK in Htimers. rewrite Et in Htimers.
      apply Forall_cons in Htimers as [Hchain Hrest].
      pose proof (timerCallback_keeps chain (current w) Hchain) as Hk.
      split; [exact Hk|]. unfold timersOK. cbn [current timers].
      eapply Forall_impl; [exact Hrest|]. intros c. now apply keeps_timer.
Qed.

Lemma run_keeps (inputs : list input) (w : world) :
  timersOK w -> keeps (current w) (current (run w inputs)).
Proof.
  revert w. induction inputs as [|i inputs IH]; intros w Htimers.
  - apply touches_keeps. now left.
  - cbn [run fold_left]. destruct (step_keeps w i Htimers) as [Hk Ht].
    eapply keeps_trans; [exact Hk|]. apply (IH _ Ht).
Qed.

(** X1: along every sequence of pointer events, clicks, key presses and
    timer expiries the marks of toggle buttons stay in agreement: a button
    with [data-is-toggle-button="true"] keeps [aria-pressed] equal to what
    its class [pressed] says. *)
Theorem interaction_keeps_toggle_marks (inputs : list input) (w : world) :
  timersOK w ->
  Forall wellMarked (buttons (current w)) ->
  Forall wellMarked (buttons (current (run w inputs))).
Proof.
  intros Htimers Hmarks. now apply (run_keeps inputs w Htimers).
Qed.

(** X2: along every such sequence the listeners write nothing of a button
    but its class [pressed] and its [aria-pressed]: no button appears or
    disappears, and the class [toggle], [aria-disabled],
    [data-is-toggle-button] and the place in a showcase, which the
    listeners read, stay as they are.  (Computed styles and the text of the
    labels, which the style sheet and the scheduled label pass derive from
    the classes, are not part of the statement.) *)
Theorem interaction_changes_status_only (inputs : list input) (w : world) :
  timersOK w ->
  Forall2 sameAttributes (buttons (current w)) (buttons (current (run w inputs))).
Proof.
  intros Htimers. destruct (run_keeps inputs w Htimers) as [Hsame _].
  eapply Forall2_impl; [exact Hsame|].
  intros b b' (Ht & Hd & Hm & _ & Hs & _). repeat split; assumption.
Qed.

(** *** Toggling *)

Lemma isTrue_ariaDisabled_same (b b' : button) :
  sameButStatus b b' -> isTrue (ariaDisabled b') = isTrue (ariaDisabled b).
Proof. intros (_ & H & _). now rewrite H. Qed.

(** The blocker looks at [aria-disabled] only, which no listener changes. *)
Lemma closestDisabledButton_insert (pg : page) (ev : event) (i : nat)
    (b b' : button) (n : nat) :
  buttons pg !! i = Some b -> sameButStatus b b' ->
  closestDisabledButton (Page (<[i := b']> (buttons pg)) n) ev
  = closestDisabledButton pg ev.
Proof.
  intros Hb Hsame. unfold closestDisabledButton. cbn [buttons].
  induction (target ev) as [|j rest IH]; [reflexivity|].
  cbn [List.find]. rewrite IH.
  destruct (decide (i = j)) as [<-|Hne].
  - rewrite list_lookup_insert_eq by (eapply lookup_lt_Some; exact Hb).
    rewrite Hb. now rewrite (isTrue_ariaDisabled_same b b' Hsame).
  - now rewrite list_lookup_insert_ne by exact Hne.
Qed.

Lemma syntheticClick_toggles (chain : list nat) (pg : page) (i : nat) (b : button) :
  head chain = Some i ->
  buttons pg !! i = Some b ->
  closestDisabledButton pg (fresh chain) = None ->
  isTrue (isToggleButton b) = true ->
  syntheticClick chain pg
  = Page (<[i := setPressed b (negb (pressed b))]> (buttons pg))
         (S (scheduledUpdates pg)).
Proof.
  intros Hhead Hb Hnone Hdata.
  rewrite syntheticClick_unfold, Hnone. unfold toggleClick, closestButton.
  cbn [target fresh]. rewrite Hhead, Hb, Hdata.
  assert (Hdis : isTrue (ariaDisabled b) = false).
  { unfold closestDisabledButton in Hnone. cbn [target fresh] in Hnone.
    destruct chain as [|j rest]; [discriminate|]. injection Hhead as ->.
    cbn [List.find] in Hnone. rewrite Hb in Hnone.
    destruct (isTrue (ariaDisabled b)); [discriminate | reflexivity]. }
  rewrite Hdis. reflexivity.
Qed.

(** X3: a click on an enabled toggle button whose marks agree flips its
    class [pressed], and a second click brings every button back to what it
    was; the toggle listener calls [scheduleUpdate] once per click. *)
Theorem toggle_click_twice_restores (chain : list nat) (pg : page) (i : nat)
    (b : button) :
  head chain = Some i ->
  buttons pg !! i = Some b ->
  closestDisabledButton pg (fresh chain) = None ->
  isTrue (isToggleButton b) = true ->
  wellMarked b ->
  pressed <$> (buttons (syntheticClick chain pg) !! i) = Some (negb (pressed b)) /\
  syntheticClick chain (syntheticClick chain pg)
  = Page (buttons pg) (S (S (scheduledUpdates pg))).
Proof.
  intros Hhead Hb Hnone Hdata Hmark.
  assert (Hlt : i < length (buttons pg)) by (eapply lookup_lt_Some; exact Hb).
  rewrite (syntheticClick_toggles chain pg i b Hhead Hb Hnone Hdata).
  split.
  - cbn [buttons]. now rewrite list_lookup_insert_eq by exact Hlt.
  - rewrite (syntheticClick_toggles chain _ i (setPressed b (negb (pressed b)))).
    + cbn [buttons scheduledUpdates]. f_equal.
      rewrite list_insert_insert_eq.
      apply list_insert_id. rewrite Hb. f_equal.
      destruct (Hmark Hdata) as [_ Haria].
      destruct b as [p t d a m o sh bg l]. cbn in *. subst a.
      now destruct p.
    + exact Hhead.
    + cbn [buttons]. now rewrite list_lookup_insert_eq by exact Hlt.
    + rewrite (closestDisabledButton_insert pg _ i b _ _ Hb
                 (sameButStatus_setPressed b _)). exact Hnone.
    + exact Hdata.
Qed.

(** X4: on an enabled button of class [toggle] the keys [Space], [Enter]
    and [NumpadEnter] do to the page what a click does, start no timer, and
    the listener prevents the default action of the key and stops its
    propagation. *)
Theorem keyboard_activation_clicks_toggle (key : string) (chain : list nat)
    (w : world) (i : nat) (b : button) :
  isActivationKey key = true ->
  head chain = Some i ->
  buttons (current w) !! i = Some b ->
  closestDisabledButton (current w) (fresh chain) = None ->
  toggle b = true ->
  step w (KeyDown key chain) = step w (Click chain) /\
  fst (keyActivation key (fresh chain) w) = Event chain true true false.
Proof.
  intros Hkey Hhead Hb Hnone Htoggle.
  assert (Hdis : isTrue (ariaDisabled b) = false).
  { unfold closestDisabledButton in Hnone. cbn [target fresh] in Hnone.
    destruct chain as [|j rest]; [discriminate|]. injection Hhead as ->.
    cbn [List.find] in Hnone. rewrite Hb in Hnone.
    destruct (isTrue (ariaDisabled b)); [discriminate | reflexivity]. }
  cbn [step]. unfold keyActivation. cbv zeta. rewrite Hnone.
  unfold closestButton. cbn [target fresh]. rewrite Hhead, Hb, Hdis, Hkey, Htoggle.
  split; reflexivity.
Qed.

(** *** Momentary buttons *)

Lemma syntheticClick_momentary (chain : list nat) (pg : page) (i : nat) (b : button) :
  head chain = Some i ->
  buttons pg !! i = Some b ->
  isTrue (isToggleButton b) = false ->
  syntheticClick chain pg = pg.
Proof.
  intros Hhead Hb Hdata. rewrite syntheticClick_unfold.
  destruct (closestDisabledButton pg (fresh chain)); [reflexivity|].
  unfold toggleClick, closestButton. cbn [target fresh].
  rewrite Hhead, Hb, Hdata. now rewrite orb_true_r.
Qed.

(** X5: [Space] or [Enter] on an enabled momentary button shows a press and
    a release: the button has the class [pressed] until the timer expires
    and not afterwards; no other button and nothing else of the button
    changes, and the listeners do not call [scheduleUpdate].  For a button
    that did not have the class before, the page is then as it was. *)
Theorem keyboard_activation_presses_and_releases (key : string)
    (chain : list nat) (pg : page) (i : nat) (b : button) :
  isActivationKey key = true ->
  head chain = Some i ->
  buttons pg !! i = Some b ->
  closestDisabledButton pg (fresh chain) = None ->
  toggle b = false ->
  isTrue (isToggleButton b) = false ->
  step (World pg []) (KeyDown key chain)
  = World (Page (<[i := setClassPressed b true]> (buttons pg)) (scheduledUpdates pg))
          [chain] /\
  run (World pg []) [KeyDown key chain; TimerExpires]
  = World (Page (<[i := setClassPressed b false]> (buttons pg)) (scheduledUpdates pg))
          [] /\
  (pressed b = false ->
   run (World pg []) [KeyDown key chain; TimerExpires] = World pg []).
Proof.
  intros Hkey Hhead Hb Hnone Htoggle Hdata.
  assert (Hlt : i < length (buttons pg)) by (eapply lookup_lt_Some; exact Hb).
  assert (Hdis : isTrue (ariaDisabled b) = false).
  { unfold closestDisabledButton in Hnone. cbn [target fresh] in Hnone.
    destruct chain as [|j rest]; [discriminate|]. injection Hhead as ->.
    cbn [List.find] in Hnone. rewrite Hb in Hnone.
    destruct (isTrue (ariaDisabled b)); [discriminate | reflexivity]. }
  assert (Hstep :
    step (World pg []) (KeyDown key chain)
    = World (Page (<[i := setClassPressed b true]> (buttons pg)) (scheduledUpdates pg))
            [chain]).
  { cbn [step]. unfold keyActivation. cbv zeta. cbn [current timers].
    rewrite Hnone. unfold closestButton. cbn [target fresh].
    now rewrite Hhead, Hb, Hdis, Hkey, Htoggle. }
  assert (Hrun :
    run (World pg []) [KeyDown key chain; TimerExpires]
    = World (Page (<[i := setClassPressed b false]> (buttons pg)) (scheduledUpdates pg))
            []).
  { cbn [run fold_left]. rewrite Hstep. cbn [step timers current].
    unfold timerCallback. rewrite Hhead. cbn [buttons scheduledUpdates].
    rewrite list_lookup_insert_eq by exact Hlt.
    rewrite list_insert_insert_eq.
    rewrite (syntheticClick_momentary chain _ i (setClassPressed b false)).
    - reflexivity.
    - exact Hhead.
    - cbn [buttons]. now rewrite list_lookup_insert_eq by exact Hlt.
    - exact Hdata. }
  split; [exact Hstep|]. split; [exact Hrun|].
  intros Hpressed. rewrite Hrun. f_equal.
  assert (Hsame : setClassPressed b false = b).
  { destruct b. cbn in Hpressed. subst. reflexivity. }
  rewrite Hsame, list_insert_id by exact Hb. now destruct pg.
Qed.

(** X6: pressing the pointer on an enabled momentary button that is not
    pressed gives it the class [pressed]; releasing it leaves all buttons as
    they were before, and the [mouseup] listener calls [scheduleUpdate]
    once. *)
Theorem pointer_press_release_restores (chain : list nat) (w : world)
    (i : nat) (b : button) :
  head chain = Some i ->
  buttons (current w) !! i = Some b ->
  isTrue (ariaDisabled b) = false ->
  toggle b = false ->
  pressed b = false ->
  pressed <$> (buttons (current (step w (MouseDown chain))) !! i) = Some true /\
  run w [MouseDown chain; MouseUp chain]
  = World (Page (buttons (current w)) (S (scheduledUpdates (current w)))) (timers w).
Proof.
  intros Hhead Hb Hdis Htoggle Hpressed.
  assert (Hlt : i < length (buttons (current w))) by (eapply lookup_lt_Some; exact Hb).
  assert (Hdown :
    step w (MouseDown chain)
    = World (Page (<[i := setClassPressed b true]> (buttons (current w)))
                  (scheduledUpdates (current w))) (timers w)).
  { cbn [step]. unfold pressDown, closestButton. cbn [target fresh].
    now rewrite Hhead, Hb, Hdis, Htoggle. }
  split.
  - rewrite Hdown. cbn [current buttons].
    now rewrite list_lookup_insert_eq by exact Hlt.
  - cbn [run fold_left]. rewrite Hdown. cbn [step current timers].
    unfold release, closestButton. cbn [target fresh buttons scheduledUpdates].
    rewrite Hhead, list_lookup_insert_eq by exact Hlt.
    cbn [pressed toggle setClassPressed]. rewrite Htoggle. cbn [andb negb snd].
    rewrite list_insert_insert_eq. do 2 f_equal.
    apply list_insert_id. rewrite Hb. f_equal.
    destruct b as [p t d a m o sh bg l]. cbn in *. now subst p.
Qed.

(** *** Disabled buttons *)

(** X7: a button with [aria-disabled="true"] ignores clicks, presses of
    the pointer, touches and the activation keys: the page stays as it is
    and no timer is started. *)
Theorem disabled_button_ignores_activation (chain : list nat) (w : world)
    (i : nat) (b : button) (key : string) :
  head chain = Some i ->
  buttons (current w) !! i = Some b ->
  ariaDisabled b = Some "true" ->
  isActivationKey key = true ->
  step w (Click chain) = w /\
  step w (MouseDown chain) = w /\
  step w (TouchStart chain) = w /\
  step w (KeyDown key chain) = w.
Proof.
  intros Hhead Hb Hdis Hkey.
  assert (Hin : In i (target (fresh chain))).
  { destruct chain as [|j rest]; [discriminate|]. injection Hhead as ->. now left. }
  destruct (closestDisabledButton_found (current w) (fresh chain) i b Hin Hb Hdis)
    as [j Hj].
  assert (Htrue : isTrue (ariaDisabled b) = true) by now rewrite Hdis.
  destruct w as [pg ts]. cbn [current] in *.
  repeat split.
  - cbn [step current timers]. now rewrite syntheticClick_unfold, Hj.
  - cbn [step current timers]. unfold pressDown, closestButton. cbn [target fresh].
    now rewrite Hhead, Hb, Htrue.
  - cbn [step current timers]. unfold pressDown, closestButton. cbn [target fresh].
    now rewrite Hhead, Hb, Htrue.
  - cbn [step]. unfold keyActivation. cbv zeta. cbn [current].
    now rewrite Hj, Hkey.
Qed.

End Listeners.

(** ** More on focus navigation *)

Section MoreNavigation.

Import Interaction.

Lemma numbered_from_fst (doc : list button) (a : nat) :
  map fst (combine (seq a (length doc)) doc) = seq a (length doc).
Proof.
  revert a. induction doc as [|b doc IH]; intros a; [reflexivity|].
  cbn. now rewrite IH.
Qed.

Lemma numbered_from_In_inv (doc : list button) (a i : nat) (b : button) :
  doc !! i = Some b -> In ((a + i)%nat, b) (combine (seq a (length doc)) doc).
Proof.
  revert a i. induction doc as [|b0 doc IH]; intros a i H; [discriminate|].
  destruct i as [|i]; cbn in *.
  - injection H as ->. left. f_equal. lia.
  - right. replace (a + S i)%nat with (S a + i)%nat by lia. now apply IH.
Qed.

Lemma filter_fst_NoDup (p : nat * button -> bool) (l : list (nat * button)) :
  NoDup (map fst l) -> NoDup (map fst (List.filter p l)).
Proof.
  induction l as [|x l IH]; intros H; [constructor|].
  cbn in H. apply NoDup_cons in H as [Hx Hl]. cbn [List.filter].
  destruct (p x); [|now apply IH].
  cbn. apply NoDup_cons. split; [|now apply IH].
  intros Hin. apply Hx. apply list_elem_of_In in Hin. apply list_elem_of_In.
  apply in_map_iff in Hin as (y & Hy & Hin). apply filter_In in Hin as [Hin _].
  apply in_map_iff. now exists y.
Qed.

Lemma visibleButtons_NoDup (doc : list button) :
  NoDup (map fst (visibleButtons doc)).
Proof.
  unfold visibleButtons, numbered. apply filter_fst_NoDup.
  rewrite numbered_from_fst. apply NoDup_seq.
Qed.

(** [indexOf] finds a button where it stands. *)
Lemma indexOf_lookup (allButtons : list (nat * button)) (k t : nat) (b : button) :
  NoDup (map fst allButtons) ->
  allButtons !! k = Some (t, b) -> indexOf t allButtons = Some k.
Proof.
  revert k. induction allButtons as [|[i x] rest IH]; intros k Hnd Hk; [discriminate|].
  cbn in Hnd. apply NoDup_cons in Hnd as [Hi Hrest]. cbn [indexOf fst].
  destruct k as [|k]; cbn in Hk.
  - injection Hk as -> ->. now rewrite Nat.eqb_refl.
  - destruct (Nat.eqb_spec i t) as [->|Hne].
    + exfalso. apply Hi. apply list_elem_of_In, in_map_iff. exists (t, b).
      split; [reflexivity|]. apply list_elem_of_In, list_elem_of_lookup. eauto.
    + now rewrite (IH k Hrest Hk).
Qed.

Lemma indexOf_In (f : nat) (b : button) (allButtons : list (nat * button)) :
  In (f, b) allButtons -> exists ci, indexOf f allButtons = Some ci.
Proof.
  induction allButtons as [|[i x] rest IH]; intros Hin; [contradiction|].
  cbn [indexOf fst]. destruct (Nat.eqb_spec i f) as [->|Hne]; [now exists 0|].
  destruct Hin as [[= -> ->]|Hin]; [contradiction|].
  destruct (IH Hin) as [ci ->]. now exists (S ci).
Qed.

Lemma visible_indexOf (doc : list button) (f : nat) (b : button) :
  doc !! f = Some b -> offsetParent b = true ->
  exists ci, indexOf f (visibleButtons doc) = Some ci /\
             visibleButtons doc !! ci = Some (f, b).
Proof.
  intros Hb Hvis.
  assert (Hin : In (f, b) (visibleButtons doc)).
  { unfold visibleButtons, numbered. apply filter_In. split; [|exact Hvis].
    exact (numbered_from_In_inv doc 0 f b Hb). }
  destruct (indexOf_In f b _ Hin) as [ci Hci]. exists ci. split; [exact Hci|].
  destruct (indexOf_Some _ _ _ Hci) as [b' Hb'].
  assert (Hin' : In (f, b') (visibleButtons doc)).
  { apply list_elem_of_In, list_elem_of_lookup. eauto. }
  apply visibleButtons_In in Hin' as [Hdoc _]. rewrite Hb in Hdoc.
  injection Hdoc as <-. exact Hb'.
Qed.

Lemma hidden_indexOf (doc : list button) (f : nat) :
  (forall b, doc !! f = Some b -> offsetParent b = false) ->
  indexOf f (visibleButtons doc) = None.
Proof.
  intros Hhidden. destruct (indexOf f (visibleButtons doc)) as [ci|] eqn:E; [|reflexivity].
  destruct (indexOf_Some _ _ _ E) as [b Hb].
  assert (Hin : In (f, b) (visibleButtons doc)).
  { apply list_elem_of_In, list_elem_of_lookup. eauto. }
  apply visibleButtons_In in Hin as [Hdoc Hvis].
  rewrite (Hhidden b Hdoc) in Hvis. discriminate.
Qed.

(** X8: whatever the key, relative navigation calls [focus()] only on a
    button of the document that is rendered. *)
Theorem arrowNavigation_focuses_visible (key : string) (doc : list button)
    (focusedButton t : nat) :
  focusCall (arrowNavigation key doc (Some focusedButton)) = Some t ->
  exists b, doc !! t = Some b /\ offsetParent b = true.
Proof.
  unfold arrowNavigation. cbv zeta.
  destruct (visibleButtons doc) as [|btn0 rest] eqn:E; [discriminate|].
  rewrite <- E. clear btn0 rest E.
  destruct (indexOf focusedButton (visibleButtons doc)) as [ci|]; [|discriminate].
  assert (Hlookup : forall k btn, visibleButtons doc !! k = Some btn ->
            exists b, doc !! fst btn = Some b /\ offsetParent b = true).
  { intros k [i b] Hk. exists b. apply visibleButtons_In.
    apply list_elem_of_In, list_elem_of_lookup. eauto. }
  assert (Hopt : forall k,
            option_map fst (visibleButtons doc !! k) = Some t ->
            exists b, doc !! t = Some b /\ offsetParent b = true).
  { intros k H. destruct (visibleButtons doc !! k) as [btn|] eqn:Hk; [|discriminate].
    injection H as <-. now apply (Hlookup k). }
  destruct (String.eqb key "ArrowRight"); [cbn [focusCall]; apply Hopt|].
  destruct (String.eqb key "ArrowLeft"); [cbn [focusCall]; apply Hopt|].
  destruct (String.eqb key "ArrowDown").
  { cbn [focusCall]. unfold arrowDown.
    destruct (arrowDownStep _ _ _); [apply Hopt | discriminate]. }
  destruct (String.eqb key "ArrowUp").
  { cbn [focusCall]. unfold arrowUp.
    destruct (arrowUpStep _ _ _); [|discriminate]. cbv zeta.
    intros H.
    destruct (head (List.filter _ (visibleButtons doc))) as [[i b]|] eqn:Hhead;
      [|discriminate].
    injection H as <-. exists b. apply visibleButtons_In.
    apply head_filter_first in Hhead as (k & Hk & _).
    apply list_elem_of_In, list_elem_of_lookup. eauto. }
  destruct (String.eqb key "Home"); [cbn [focusCall]; apply Hopt|].
  destruct (String.eqb key "End"); [cbn [focusCall]; apply Hopt|].
  discriminate.
Qed.

(** X9: while the focused button is not rendered, or is not a button of
    the document, no key moves the focus, and the default action of the key
    is not prevented. *)
Theorem arrowNavigation_from_hidden_button (key : string) (doc : list button)
    (focusedButton : nat) :
  (forall b, doc !! focusedButton = Some b -> offsetParent b = false) ->
  arrowNavigation key doc (Some focusedButton) = Navigation false None.
Proof.
  intros Hhidden. unfold arrowNavigation. cbv zeta.
  destruct (visibleButtons doc) as [|btn0 rest] eqn:E; [reflexivity|].
  rewrite <- E. now rewrite hidden_indexOf.
Qed.

Lemma arrowNavigation_ArrowRight (doc : list button) (focusedButton ci : nat) :
  indexOf focusedButton (visibleButtons doc) = Some ci ->
  arrowNavigation "ArrowRight" doc (Some focusedButton)
  = Navigation true
      (option_map fst
         (visibleButtons doc !! ((ci + 1) mod length (visibleButtons doc)))).
Proof.
  intros H. unfold arrowNavigation.
  destruct (visibleButtons doc) as [|btn rest] eqn:E; [discriminate|].
  now rewrite H.
Qed.

Lemma arrowNavigation_ArrowLeft (doc : list button) (focusedButton ci : nat) :
  indexOf focusedButton (visibleButtons doc) = Some ci ->
  arrowNavigation "ArrowLeft" doc (Some focusedButton)
  = Navigation true
      (option_map fst
         (visibleButtons doc
            !! (if (ci =? 0)%nat then (length (visibleButtons doc) - 1)%nat
                else (ci - 1)%nat))).
Proof.
  intros H. unfold arrowNavigation.
  destruct (visibleButtons doc) as [|btn rest] eqn:E; [discriminate|].
  now rewrite H.
Qed.

Lemma arrowNavigation_Home (doc : list button) (focusedButton ci : nat) :
  indexOf focusedButton (visibleButtons doc) = Some ci ->
  arrowNavigation "Home" doc (Some focusedButton)
  = Navigation true (option_map fst (visibleButtons doc !! 0%nat)).
Proof.
  intros H. unfold arrowNavigation.
  destruct (visibleButtons doc) as [|btn rest] eqn:E; [discriminate|].
  now rewrite H.
Qed.

Lemma arrowNavigation_End (doc : list button) (focusedButton ci : nat) :
  indexOf focusedButton (visibleButtons doc) = Some ci ->
  arrowNavigation "End" doc (Some focusedButton)
  = Navigation true
      (option_map fst
         (visibleButtons doc !! (length (visibleButtons doc) - 1)%nat)).
Proof.
  intros H. unfold arrowNavigation.
  destruct (visibleButtons doc) as [|btn rest] eqn:E; [discriminate|].
  now rewrite H.
Qed.

Lemma next_prev (n ci : nat) :
  ci < n ->
  (if ((ci + 1) mod n =? 0)%nat then (n - 1)%nat else ((ci + 1) mod n - 1)%nat) = ci.
Proof.
  intros H. destruct (decide (ci + 1 = n)) as [E|E].
  - rewrite E, Nat.Div0.mod_same. cbn. lia.
  - rewrite Nat.mod_small by lia.
    destruct (Nat.eqb_spec (ci + 1) 0); lia.
Qed.

Lemma prev_next (n ci : nat) :
  ci < n ->
  ((if (ci =? 0)%nat then (n - 1)%nat else (ci - 1)%nat) + 1) mod n = ci.
Proof.
  intros H. destruct (Nat.eqb_spec ci 0) as [->|E].
  - replace (n - 1 + 1) with n by lia. apply Nat.Div0.mod_same.
  - replace (ci - 1 + 1) with ci by lia. now apply Nat.mod_small.
Qed.

(** X10: from a rendered button [ArrowRight] and [ArrowLeft] undo each
    other, also across the two ends of the list of rendered buttons. *)
Theorem arrow_right_left_round_trip (doc : list button) (focusedButton : nat)
    (b : button) :
  doc !! focusedButton = Some b -> offsetParent b = true ->
  exists r l,
    arrowNavigation "ArrowRight" doc (Some focusedButton) = Navigation true (Some r) /\
    arrowNavigation "ArrowLeft" doc (Some r) = Navigation true (Some focusedButton) /\
    arrowNavigation "ArrowLeft" doc (Some focusedButton) = Navigation true (Some l) /\
    arrowNavigation "ArrowRight" doc (Some l) = Navigation true (Some focusedButton).
Proof.
  intros Hb Hvis.
  destruct (visible_indexOf doc focusedButton b Hb Hvis) as (ci & Hci & Hat).
  set (all := visibleButtons doc) in *. set (n := length all).
  assert (Hlt : ci < n) by (eapply lookup_lt_Some; exact Hat).
  assert (Hr : (ci + 1) mod n < n) by (apply Nat.mod_upper_bound; lia).
  assert (Hl : (if (ci =? 0)%nat then (n - 1)%nat else (ci - 1)%nat) < n)
    by (destruct (ci =? 0)%nat; lia).
  destruct (lookup_lt_is_Some_2 all _ Hr) as [[r br] Hrb].
  destruct (lookup_lt_is_Some_2 all _ Hl) as [[l bl] Hlb].
  pose proof (indexOf_lookup all _ r br (visibleButtons_NoDup doc) Hrb) as Hir.
  pose proof (indexOf_lookup all _ l bl (visibleButtons_NoDup doc) Hlb) as Hil.
  exists r, l. repeat split.
  - rewrite (arrowNavigation_ArrowRight doc _ ci Hci). fold all n. now rewrite Hrb.
  - rewrite (arrowNavigation_ArrowLeft doc _ _ Hir). fold all n.
    now rewrite (next_prev n ci Hlt), Hat.
  - rewrite (arrowNavigation_ArrowLeft doc _ ci Hci). fold all n. now rewrite Hlb.
  - rewrite (arrowNavigation_ArrowRight doc _ _ Hil). fold all n.
    now rewrite (prev_next n ci Hlt), Hat.
Qed.

(** X11: the buttons [Home] and [End] focus are neighbours on the circle
    of rendered buttons: [ArrowLeft] from the one [Home] reaches focuses the
    one [End] reaches, and [ArrowRight] leads back. *)
Theorem home_end_are_neighbours (doc : list button) (focusedButton : nat)
    (b : button) :
  doc !! focusedButton = Some b -> offsetParent b = true ->
  exists first last,
    arrowNavigation "Home" doc (Some focusedButton) = Navigation true (Some first) /\
    arrowNavigation "End" doc (Some focusedButton) = Navigation true (Some last) /\
    arrowNavigation "ArrowLeft" doc (Some first) = Navigation true (Some last) /\
    arrowNavigation "ArrowRight" doc (Some last) = Navigation true (Some first).
Proof.
  intros Hb Hvis.
  destruct (visible_indexOf doc focusedButton b Hb Hvis) as (ci & Hci & Hat).
  set (all := visibleButtons doc) in *. set (n := length all).
  assert (Hlt : ci < n) by (eapply lookup_lt_Some; exact Hat).
  assert (H0 : 0 < n) by lia. assert (Hn : n - 1 < n) by lia.
  destruct (lookup_lt_is_Some_2 all _ H0) as [[first bf] Hfirst].
  destruct (lookup_lt_is_Some_2 all _ Hn) as [[last bl] Hlast].
  pose proof (indexOf_lookup all _ first bf (visibleButtons_NoDup doc) Hfirst) as Hif.
  pose proof (indexOf_lookup all _ last bl (visibleButtons_NoDup doc) Hlast) as Hil.
  exists first, last. repeat split.
  - rewrite (arrowNavigation_Home doc _ ci Hci). fold all. now rewrite Hfirst.
  - rewrite (arrowNavigation_End doc _ ci Hci). fold all n. now rewrite Hlast.
  - rewrite (arrowNavigation_ArrowLeft doc _ _ Hif). fold all n. cbn [Nat.eqb].
    now rewrite Hlast.
  - rewrite (arrowNavigation_ArrowRight doc _ _ Hil). fold all n.
    replace (n - 1 + 1) with n by lia. rewrite Nat.Div0.mod_same. now rewrite Hfirst.
Qed.

End MoreNavigation.

Section InteractionExamples.

Import Interaction Handlers Samples.

Lemma threeButtons_wellMarked : Forall wellMarked (buttons (current threeButtons)).
Proof.
  apply Forall_cons; split; [intros _; split; reflexivity|].
  apply Forall_cons; split; [intros _; split; reflexivity|].
  apply Forall_cons; split; [intros H; discriminate H|].
  apply Forall_nil_2.
Qed.

Lemma interaction_keeps_toggle_marks_witness :
  Forall wellMarked
    (buttons (current (run threeButtons
       [Click [0%nat]; KeyDown "Enter" [2%nat]; MouseDown [2%nat]; TimerExpires;
        KeyDown " " [0%nat]; MouseUp [2%nat]; Click [1%nat]]))).
Proof.
  apply (interaction_keeps_toggle_marks
           [Click [0%nat]; KeyDown "Enter" [2%nat]; MouseDown [2%nat]; TimerExpires;
            KeyDown " " [0%nat]; MouseUp [2%nat]; Click [1%nat]] threeButtons).
  - constructor.
  - exact threeButtons_wellMarked.
Defined.

Lemma interaction_changes_status_only_witness :
  Forall2 sameAttributes (buttons (current threeButtons))
    (buttons (current (run threeButtons
       [KeyDown "Enter" [2%nat]; Click [0%nat]; TimerExpires; TouchStart [2%nat]]))).
Proof.
  apply (interaction_changes_status_only
           [KeyDown "Enter" [2%nat]; Click [0%nat]; TimerExpires; TouchStart [2%nat]]
           threeButtons).
  constructor.
Defined.

Lemma toggle_click_twice_restores_witness :
  pressed <$> (buttons (syntheticClick [0%nat] (current threeButtons)) !! 0%nat)
  = Some false /\
  syntheticClick [0%nat] (syntheticClick [0%nat] (current threeButtons))
  = Page (buttons (current threeButtons)) 2.
Proof.
  apply (toggle_click_twice_restores [0%nat] (current threeButtons) 0 pressedToggle).
  - reflexivity.
  - reflexivity.
  - reflexivity.
  - reflexivity.
  - intros _. split; reflexivity.
Defined.

Lemma keyboard_activation_clicks_toggle_witness :
  step threeButtons (KeyDown " " [0%nat]) = step threeButtons (Click [0%nat]) /\
  fst (keyActivation " " (fresh [0%nat]) threeButtons) = Event [0%nat] true true false.
Proof.
  apply (keyboard_activation_clicks_toggle " " [0%nat] threeButtons 0 pressedToggle);
    reflexivity.
Defined.

Lemma keyboard_activation_presses_and_releases_witness :
  step threeButtons (KeyDown "Enter" [2%nat])
  = World (Page [pressedToggle; disabledToggle; setClassPressed okButton true] 0)
          [[2%nat]] /\
  run threeButtons [KeyDown "Enter" [2%nat]; TimerExpires] = threeButtons.
Proof.
  destruct (keyboard_activation_presses_and_releases
              "Enter" [2%nat] (current threeButtons) 2 okButton)
    as (Hpress & _ & Hrelease); try reflexivity.
  split; [exact Hpress | exact (Hrelease eq_refl)].
Defined.

Lemma pointer_press_release_restores_witness :
  pressed <$> (buttons (current (step threeButtons (MouseDown [2%nat]))) !! 2%nat)
  = Some true /\
  run threeButtons [MouseDown [2%nat]; MouseUp [2%nat]]
  = World (Page (buttons (current threeButtons)) 1) [].
Proof.
  apply (pointer_press_release_restores [2%nat] threeButtons 2 okButton);
    reflexivity.
Defined.

Lemma disabled_button_ignores_activation_witness :
  step threeButtons (Click [1%nat]) = threeButtons /\
  step threeButtons (MouseDown [1%nat]) = threeButtons /\
  step threeButtons (TouchStart [1%nat]) = threeButtons /\
  step threeButtons (KeyDown "NumpadEnter" [1%nat]) = threeButtons.
Proof.
  apply (disabled_button_ignores_activation
           [1%nat] threeButtons 1 disabledToggle "NumpadEnter");
    reflexivity.
Defined.

Lemma arrowNavigation_focuses_visible_witness :
  exists b, hiddenFirst !! 2%nat = Some b /\ offsetParent b = true.
Proof.
  apply (arrowNavigation_focuses_visible "ArrowRight" hiddenFirst 1 2).
  reflexivity.
Defined.

Lemma arrowNavigation_from_hidden_button_witness :
  arrowNavigation "ArrowDown" hiddenFirst (Some 0%nat) = Navigation false None.
Proof.
  apply (arrowNavigation_from_hidden_button "ArrowDown" hiddenFirst 0).
  intros b H. injection H as <-. reflexivity.
Defined.

Lemma arrow_right_left_round_trip_witness :
  exists r l,
    arrowNavigation "ArrowRight" hiddenFirst (Some 2%nat) = Navigation true (Some r) /\
    arrowNavigation "ArrowLeft" hiddenFirst (Some r) = Navigation true (Some 2%nat) /\
    arrowNavigation "ArrowLeft" hiddenFirst (Some 2%nat) = Navigation true (Some l) /\
    arrowNavigation "ArrowRight" hiddenFirst (Some l) = Navigation true (Some 2%nat).
Proof.
  apply (arrow_right_left_round_trip hiddenFirst 2 (plainButton 1 true));
    reflexivity.
Defined.

Lemma home_end_are_neighbours_witness :
  exists first last,
    arrowNavigation "Home" grid (Some 3%nat) = Navigation true (Some first) /\
    arrowNavigation "End" grid (Some 3%nat) = Navigation true (Some last) /\
    arrowNavigation "ArrowLeft" grid (Some first) = Navigation true (Some last) /\
    arrowNavigation "ArrowRight" grid (Some last) = Navigation true (Some first).
Proof.
  apply (home_end_are_neighbours grid 3 (plainButton 0 true)); reflexivity.
Defined.

End InteractionExamples.

(** ** Preparing the toggle buttons *)

Section SetupIcons.

Import Interaction Handlers Startup.

Lemma shift_None (r : option found) : shift r = None <-> r = None.
Proof. destruct r as [[i|]|]; cbn; split; congruence. Qed.

(** [querySelector] finds an element exactly when a child node holds one. *)
Lemma querySelector_None (sel : list string -> bool) (childNodes : list node) :
  querySelector sel childNodes = None <-> existsb (holds sel) childNodes = false.
Proof.
  induction childNodes as [|n rest IH]; [cbn; tauto|].
  cbn [querySelector existsb]. destruct n as [|classList kids].
  - cbn [holds orb]. rewrite shift_None. exact IH.
  - cbn [holds]. destruct (sel classList); cbn [orb]; [split; discriminate|].
    destruct (existsb (holds sel) kids); cbn [orb]; [split; discriminate|].
    rewrite shift_None. exact IH.
Qed.

Lemma existsb_insert (p : node -> bool) (i : nat) (x : node) (l : list node) :
  p x = true -> existsb p (List.firstn i l ++ x :: List.skipn i l) = true.
Proof.
  intros Hx. rewrite existsb_app. cbn [existsb]. rewrite Hx.
  now rewrite orb_true_l, orb_true_r.
Qed.

(** After the first half of the loop body the button holds an element
    [.icon.pressed]. *)
Lemma insertIconPressed_holds (childNodes childNodes' : list node) :
  insertIconPressed childNodes = inr childNodes' ->
  existsb (holds iconPressed) childNodes' = true.
Proof.
  unfold insertIconPressed.
  destruct (querySelector iconPressed childNodes) as [r|] eqn:Hq.
  - intros [= <-].
    destruct (existsb (holds iconPressed) childNodes) eqn:E; [reflexivity|].
    apply querySelector_None in E. congruence.
  - destruct (querySelector iconNotPressed childNodes) as [[i|]|];
      intros [= <-].
    + now apply existsb_insert.
    + reflexivity.
Qed.

Lemma insertIconPressed_again (childNodes : list node) :
  existsb (holds iconPressed) childNodes = true ->
  insertIconPressed childNodes = inr childNodes.
Proof.
  intros H. unfold insertIconPressed.
  destruct (querySelector iconPressed childNodes) eqn:Hq; [reflexivity|].
  apply querySelector_None in Hq. congruence.
Qed.

Lemma insertIconPressed_throws (childNodes : list node) :
  insertIconPressed childNodes = inl NotFoundError <->
  querySelector iconPressed childNodes = None /\
  querySelector iconNotPressed childNodes = Some Deeper.
Proof.
  unfold insertIconPressed.
  destruct (querySelector iconPressed childNodes).
  - split; [discriminate | intros [H _]; discriminate].
  - destruct (querySelector iconNotPressed childNodes) as [[i|]|]; split;
      try discriminate; try tauto; intros [_ H]; discriminate.
Qed.

(** What the loop body keeps of a button it gets through, and what it
    sets on a button of class [toggle]. *)
Lemma prepareButton_inr (b b' : button) (childNodes childNodes' : list node) :
  prepareButton (b, childNodes) = inr (b', childNodes') ->
  (pressed b' = pressed b /\ toggle b' = toggle b /\
   ariaDisabled b' = ariaDisabled b /\ offsetParent b' = offsetParent b /\
   showcase b' = showcase b /\ backgroundColor b' = backgroundColor b /\
   buttonLabel b' = buttonLabel b) /\
  (toggle b = false -> b' = b /\ childNodes' = childNodes) /\
  (toggle b = true ->
     isToggleButton b' = Some "true" /\
     ariaPressed b' = Some (if pressed b' then "true" else "false") /\
     existsb (holds iconPressed) childNodes' = true).
Proof.
  unfold prepareButton. cbv zeta. destruct (toggle b) eqn:Ht.
  - destruct (insertIconPressed childNodes) as [e|kids] eqn:Hi; [discriminate|].
    intros [= <- <-]. cbn.
    split; [repeat split; reflexivity|]. split; [discriminate|]. intros _.
    split; [reflexivity|]. split; [reflexivity|].
    now apply insertIconPressed_holds in Hi.
  - intros [= <- <-]. split; [repeat split; solve [reflexivity | exact Ht]|].
    split; [intros _; split; reflexivity | discriminate].
Qed.

Lemma prepareButton_again (el el' : button * list node) :
  prepareButton el = inr el' -> prepareButton el' = inr el'.
Proof.
  destruct el as [b kids], el' as [b' kids']. intros H.
  destruct (prepareButton_inr _ _ _ _ H) as ((Hp & Ht & _) & Hplain & Htoggle).
  unfold prepareButton. cbv zeta. rewrite Ht.
  destruct (toggle b) eqn:E; [|reflexivity].
  destruct (Htoggle eq_refl) as (Hdata & Haria & Hholds).
  rewrite (insertIconPressed_again _ Hholds). do 2 f_equal.
  destruct b' as [p t d a m o sh bg l]. cbn in *. now subst.
Qed.

Lemma setupIconInjection_Forall2 (allButtons prepared : list (button * list node)) :
  setupIconInjection allButtons = (prepared, None) <->
  Forall2 (fun el el' => prepareButton el = inr el') allButtons prepared.
Proof.
  split.
  - revert prepared. induction allButtons as [|el rest IH]; intros prepared.
    + intros [= <-]. constructor.
    + cbn [setupIconInjection].
      destruct (prepareButton el) as [e|el'] eqn:E; [discriminate|].
      destruct (setupIconInjection rest) as [rest' thrown] eqn:Er.
      intros [= <- ->]. constructor; [exact E | now apply IH].
  - induction 1 as [|el el' rest rest' Hel _ IH]; [reflexivity|].
    cbn [setupIconInjection]. now rewrite Hel, IH.
Qed.

Lemma prepareButton_inl (b : button) (childNodes : list node) (e : domException) :
  prepareButton (b, childNodes) = inl e ->
  toggle b = true /\ querySelector iconPressed childNodes = None /\
  querySelector iconNotPressed childNodes = Some Deeper.
Proof.
  unfold prepareButton. cbv zeta. destruct (toggle b); [|discriminate].
  destruct (insertIconPressed childNodes) as [e'|kids] eqn:Hi; [|discriminate].
  intros _. destruct e'. apply insertIconPressed_throws in Hi. tauto.
Qed.

(** X12: when no button of class [toggle] that lacks an [.icon.pressed]
    element has its first [.icon:not(.pressed)] element below another
    element, [setupIconInjection] gets through all buttons: every button of
    class [toggle] then has [data-is-toggle-button="true"], an
    [aria-pressed] that says whether it has the class [pressed], and an
    [.icon.pressed] element below it; every other button is as it was; and a
    second run changes nothing. *)
Theorem setupIconInjection_prepares_toggles (allButtons : list (button * list node)) :
  Forall (fun el => toggle (fst el) = true ->
                    querySelector iconPressed (snd el) = None ->
                    querySelector iconNotPressed (snd el) <> Some Deeper) allButtons ->
  exists prepared,
    setupIconInjection allButtons = (prepared, None) /\
    Forall2 (fun el el' =>
               if toggle (fst el)
               then isToggleButton (fst el') = Some "true" /\
                    ariaPressed (fst el')
                    = Some (if pressed (fst el) then "true" else "false") /\
                    existsb (holds iconPressed) (snd el') = true
               else el' = el) allButtons prepared /\
    setupIconInjection prepared = (prepared, None).
Proof.
  intros Hflat.
  assert (Hall : exists prepared,
             Forall2 (fun el el' => prepareButton el = inr el') allButtons prepared).
  { induction Hflat as [|[b kids] rest Hel _ IH]; [exists []; constructor|].
    destruct IH as [rest' IH].
    destruct (prepareButton (b, kids)) as [e|el'] eqn:E.
    - apply prepareButton_inl in E as (Ht & Hp & Hn). now destruct (Hel Ht Hp).
    - exists (el' :: rest'). now constructor. }
  destruct Hall as [prepared Hall]. exists prepared.
  split; [now apply setupIconInjection_Forall2|]. split.
  - eapply Forall2_impl; [exact Hall|].
    intros [b kids] [b' kids'] H. cbn [fst snd].
    destruct (prepareButton_inr _ _ _ _ H) as ((Hp & _) & Hplain & Htoggle).
    destruct (toggle b).
    + destruct (Htoggle eq_refl) as (Hdata & Haria & Hholds).
      rewrite <- Hp. tauto.
    + destruct (Hplain eq_refl) as [-> ->]. reflexivity.
  - apply setupIconInjection_Forall2.
    assert (Hagain : Forall (fun el' => prepareButton el' = inr el') prepared).
    { clear Hflat. induction Hall as [|el el' rest rest' Hel _ IH]; constructor.
      - now apply (prepareButton_again el).
      - exact IH. }
    clear Hall Hflat. induction Hagain; constructor; assumption.
Qed.

(** X13: a button of class [toggle] without an [.icon.pressed] element whose
    first [.icon:not(.pressed)] element is not its child makes
    [insertBefore] throw: [setupIconInjection] ends there, the buttons before
    it are prepared, the button itself and all buttons behind it are left as
    they were. *)
Theorem setupIconInjection_nested_icon_throws
    (before prepared : list (button * list node)) (b : button)
    (childNodes : list node) (behind : list (button * list node)) :
  Forall2 (fun el el' => prepareButton el = inr el') before prepared ->
  toggle b = true ->
  querySelector iconPressed childNodes = None ->
  querySelector iconNotPressed childNodes = Some Deeper ->
  setupIconInjection (before ++ (b, childNodes) :: behind)
  = (prepared ++ (b, childNodes) :: behind, Some NotFoundError).
Proof.
  intros Hbefore Ht Hp Hn.
  assert (Hfail : prepareButton (b, childNodes) = inl NotFoundError).
  { unfold prepareButton. cbv zeta. rewrite Ht.
    now rewrite (proj2 (insertIconPressed_throws childNodes) (conj Hp Hn)). }
  induction Hbefore as [|el el' rest rest' Hel _ IH].
  - cbn [List.app setupIconInjection]. now rewrite Hfail.
  - cbn [List.app setupIconInjection]. now rewrite Hel, IH.
Qed.

End SetupIcons.

(** ** The label pass, again *)

Section LabelPassAgain.

Import Str StyleManager.

Variable toFixed2 : option R -> string.

(** A text without [<] at its head does not begin with a literal once the
    text before its first [<br>] is followed by [<]. *)
Lemma strip_beforeBr (lit s rest : string) :
  contains "<" lit = false ->
  strip lit s = None ->
  strip lit (beforeBr s +:+ String "<" rest) = None.
Proof.
  revert s. induction lit as [|a lit IH]; intros s Hlit Hs; [discriminate|].
  cbn [contains] in Hlit. apply orb_false_iff in Hlit as [Ha Hlit].
  assert (Hhead : strip (String a lit) (String "<" rest) = None).
  { cbn [strip]. rewrite Ascii.eqb_sym in Ha. now rewrite Ha. }
  destruct s as [|c s]; [exact Hhead|].
  cbn [beforeBr]. destruct (strip "<br>" (String c s)); [exact Hhead|].
  rewrite append_cons. cbn [strip] in *.
  destruct (Ascii.eqb a c); [now apply IH | reflexivity].
Qed.

Lemma beforeBr_again (s r : string) :
  beforeBr (beforeBr s +:+ "<br>" +:+ r) = beforeBr s.
Proof.
  induction s as [|c s IH]; [reflexivity|].
  cbn [beforeBr]. destruct (strip "<br>" (String c s)) as [t|] eqn:E; [reflexivity|].
  rewrite append_cons. cbn [beforeBr].
  assert (Hnone : strip "<br>" (String c (beforeBr s +:+ "<br>" +:+ r)) = None).
  { cbn [strip] in *. destruct (Ascii.eqb "<" c); [|reflexivity].
    now apply (strip_beforeBr "br>" s). }
  rewrite Hnone. now rewrite IH.
Qed.

(** The label pass keeps everything of a button but the content of its
    label. *)
Lemma updateLabel_keeps (b b' : button) :
  updateLabel toFixed2 b = inr b' ->
  pressed b' = pressed b /\ toggle b' = toggle b /\
  ariaDisabled b' = ariaDisabled b /\ ariaPressed b' = ariaPressed b /\
  isToggleButton b' = isToggleButton b /\ offsetParent b' = offsetParent b /\
  showcase b' = showcase b /\ backgroundColor b' = backgroundColor b /\
  option_map color (buttonLabel b') = option_map color (buttonLabel b) /\
  option_map (fun l => beforeBr (labelHTML l)) (buttonLabel b')
  = option_map (fun l => beforeBr (labelHTML l)) (buttonLabel b).
Proof.
  unfold updateLabel. destruct (buttonLabel b) as [l|] eqn:El.
  - cbv zeta. destruct (calculateContrast _ _) as [e|c]; [discriminate|].
    intros [= <-]. cbn. repeat split. f_equal. apply beforeBr_again.
  - intros [= <-]. rewrite El. repeat split.
Qed.

Lemma updateLabel_again (b b' : button) :
  updateLabel toFixed2 b = inr b' -> updateLabel toFixed2 b' = inr b'.
Proof.
  unfold updateLabel. destruct (buttonLabel b) as [l|] eqn:El.
  - cbv zeta. destruct (calculateContrast _ _) as [e|c] eqn:Ec; [discriminate|].
    intros [= <-]. cbn. rewrite Ec. now rewrite beforeBr_again.
  - intros [= <-]. now rewrite El.
Qed.

Lemma updateButtonLabels_Forall2 (allButtons updated : list button) :
  updateButtonLabels toFixed2 allButtons = (updated, None) <->
  Forall2 (fun b b' => updateLabel toFixed2 b = inr b') allButtons updated.
Proof.
  split; [|apply updateButtonLabels_completes].
  revert updated. induction allButtons as [|b rest IH]; intros updated.
  - intros [= <-]. constructor.
  - cbn [updateButtonLabels].
    destruct (updateLabel toFixed2 b) as [e|b'] eqn:E; [discriminate|].
    destruct (updateButtonLabels toFixed2 rest) as [rest' thrown] eqn:Er.
    intros [= <- ->]. constructor; [exact E | now apply IH].
Qed.

Lemma updateButtonLabels_again (allButtons updated : list button) :
  updateButtonLabels toFixed2 allButtons = (updated, None) ->
  updateButtonLabels toFixed2 updated = (updated, None).
Proof.
  intros H. apply updateButtonLabels_Forall2 in H.
  apply updateButtonLabels_Forall2.
  induction H as [|b b' rest rest' Hb _ IH]; constructor.
  - now apply (updateLabel_again b).
  - exact IH.
Qed.

(** *** Labels that are read back *)

Variable serialized : string -> string.

(** Where the markup that is assigned reads back as it is, the callback
    with the label read back does what [updateLabel] does. *)
Lemma updateLabel_read_back (b : button) :
  (forall s, ReadBack.assignedMarkup toFixed2 b = Some s -> serialized s = s) ->
  ReadBack.updateLabel toFixed2 serialized b = updateLabel toFixed2 b.
Proof.
  unfold ReadBack.assignedMarkup, ReadBack.updateLabel, updateLabel.
  destruct (buttonLabel b) as [l|]; [|reflexivity]. cbv zeta.
  destruct (calculateContrast _ _) as [e|c]; [reflexivity|].
  intros H. now rewrite (H _ eq_refl).
Qed.

(** The markup the callback assigns to a label is the one it assigns again
    to the label it has written. *)
Lemma assignedMarkup_again (b b' : button) :
  updateLabel toFixed2 b = inr b' ->
  ReadBack.assignedMarkup toFixed2 b' = ReadBack.assignedMarkup toFixed2 b.
Proof.
  unfold ReadBack.assignedMarkup, updateLabel.
  destruct (buttonLabel b) as [l|] eqn:El.
  - cbv zeta. destruct (calculateContrast _ _) as [e|c] eqn:Ec; [discriminate|].
    intros [= <-]. cbn. rewrite Ec. now rewrite beforeBr_again.
  - intros [= <-]. now rewrite El.
Qed.

Lemma updateButtonLabels_read_back (allButtons : list button) :
  Forall (fun b => forall s, ReadBack.assignedMarkup toFixed2 b = Some s ->
                             serialized s = s) allButtons ->
  ReadBack.updateButtonLabels toFixed2 serialized allButtons
  = updateButtonLabels toFixed2 allButtons.
Proof.
  induction 1 as [|b rest Hb _ IH]; [reflexivity|].
  cbn [ReadBack.updateButtonLabels updateButtonLabels].
  rewrite (updateLabel_read_back b Hb).
  destruct (updateLabel toFixed2 b) as [e|b']; [reflexivity|]. now rewrite IH.
Qed.

(** X14: a label pass that completes on labels whose new markup reads back
    from [innerHTML] as it was assigned is idempotent: a second pass over
    its result, with the same computed colours, leaves the same buttons and
    throws nothing; and the pass keeps the text in front of the first [<br>]
    of every label. *)
Theorem updateButtonLabels_idempotent (allButtons updated : list button) :
  Forall (fun b => forall s, ReadBack.assignedMarkup toFixed2 b = Some s ->
                             serialized s = s) allButtons ->
  ReadBack.updateButtonLabels toFixed2 serialized allButtons = (updated, None) ->
  ReadBack.updateButtonLabels toFixed2 serialized updated = (updated, None) /\
  Forall2 (fun b b' =>
             option_map (fun l => beforeBr (labelHTML l)) (buttonLabel b')
             = option_map (fun l => beforeBr (labelHTML l)) (buttonLabel b))
          allButtons updated.
Proof.
  intros Hread H. rewrite (updateButtonLabels_read_back _ Hread) in H.
  pose proof (proj1 (updateButtonLabels_Forall2 _ _) H) as Heach.
  split.
  - rewrite updateButtonLabels_read_back;
      [now apply (updateButtonLabels_again allButtons)|].
    clear H. induction Heach as [|b b' rest rest' Hb _ IH]; constructor.
    + rewrite (assignedMarkup_again b b' Hb). now apply Forall_cons_1 in Hread.
    + apply IH. now apply Forall_cons_1 in Hread.
  - eapply Forall2_impl; [exact Heach|]. intros b b' Hb.
    now apply updateLabel_keeps in Hb.
Qed.

(** A button whose contrast computation throws ends the pass, at that
    button or before it. *)
Lemma updateButtonLabels_throws (allButtons : list button) (i : nat)
    (b : button) (e : error) :
  allButtons !! i = Some b -> updateLabel toFixed2 b = inl e ->
  exists e', snd (updateButtonLabels toFixed2 allButtons) = Some e'.
Proof.
  revert i. induction allButtons as [|b0 rest IH]; intros i Hi He; [discriminate|].
  cbn [updateButtonLabels].
  destruct (updateLabel toFixed2 b0) as [e0|b0'] eqn:E0; [now exists e0|].
  destruct i as [|i].
  - injection Hi as ->. congruence.
  - destruct (IH i Hi He) as [e' He'].
    destruct (updateButtonLabels toFixed2 rest) as [rest' thrown].
    exists e'. exact He'.
Qed.

End LabelPassAgain.

(** ** Start-up *)

Section StartUp.

Import SVGLoader StyleManager Interaction Handlers Startup.

Variable toFixed2 : option R -> string.
Variable net : network.

(** The preload never rejects, so the injection always runs. *)
Lemma loadAndInject_run (completion iconMap : list (string * Icons.config))
    (document : list SVGLoader.target) (cache : gmap string string) :
  loadAndInject net completion iconMap document cache
  = (Spec.written net completion cache,
     inr (injectAllIcons iconMap (Spec.written net completion cache) document)).
Proof. unfold loadAndInject. now rewrite preloadAllIcons_run. Qed.

Lemma combine_fst {A B} (l : list A) (l' : list B) :
  length l = length l' -> map fst (combine l l') = l.
Proof.
  revert l'. induction l as [|x l IH]; intros [|y l'] H; try discriminate; [reflexivity|].
  cbn. f_equal. apply IH. now injection H.
Qed.

Lemma Forall2_transfer {A B} (R : A -> B -> Prop) (P : A -> Prop) (Q : B -> Prop)
    (l : list A) (l' : list B) :
  (forall x y, R x y -> P x -> Q y) ->
  Forall2 R l l' -> Forall P l -> Forall Q l'.
Proof.
  intros Hstep. induction 1 as [|x y l l' Hxy _ IH]; intros Hl; [constructor|].
  apply Forall_cons in Hl as [Hx Hl]. apply Forall_cons. split; [eauto | auto].
Qed.

(** What [init] has done when it resolves. *)
Lemma init_resolved (completion : list (string * Icons.config)) (a a' : appState) :
  init toFixed2 net completion a = (a', None) ->
  exists prepared,
    setupIconInjection (buttonElements a) = (prepared, None) /\
    (map fst prepared = [] \/
     updateButtonLabels toFixed2 (map fst prepared) = (map fst (buttonElements a'), None)) /\
    length (buttonElements a') = length prepared /\
    (map fst prepared = [] -> buttonElements a' = []).
Proof.
  unfold init. rewrite loadAndInject_run.
  destruct (injectAllIcons _ _ _) as [targets1 console].
  destruct (setupIconInjection (buttonElements a)) as [prepared [e|]] eqn:Es;
    [discriminate|].
  unfold applyDynamicStyles.
  destruct (map fst prepared) as [|b0 rest] eqn:Em.
  - intros [= <-]. exists prepared. cbn [buttonElements].
    split; [reflexivity|]. split; [now left|].
    destruct prepared; [|discriminate]. split; [reflexivity | reflexivity].
  - destruct (updateButtonLabels toFixed2 (b0 :: rest)) as [labelled thrown] eqn:Eu.
    destruct thrown as [e|]; [discriminate|].
    intros [= <-]. exists prepared. cbn [buttonElements].
    split; [reflexivity|].
    assert (Hlen : length labelled = length (map snd prepared)).
    { apply updateButtonLabels_Forall2, Forall2_length in Eu.
      rewrite <- Eu, <- Em. now rewrite !length_map. }
    split; [right; rewrite combine_fst by exact Hlen; rewrite Em; exact Eu|].
    split; [|intros H; rewrite Em in H; discriminate H].
    rewrite length_combine, Hlen, length_map. lia.
Qed.


(** X15: when the document holds a button whose label colour or background
    colour [calculateContrast] cannot read, [initializeApp] rejects and
    registers no listener at all: the exception leaves [ButtonSystem.init]
    (from the label pass of [applyDynamicStyles], or earlier from
    [setupIconInjection]) and is thrown again in front of the
    [addEventListener] calls. *)
Theorem unparsable_colour_stops_start_up
    (completion : list (string * Icons.config)) (a : appState) (i : nat)
    (b : button) (childNodes : list node) (l : label) (e : error) :
  buttonElements a !! i = Some (b, childNodes) ->
  buttonLabel b = Some l ->
  calculateContrast (color l) (backgroundColor b) = inl e ->
  exists a' f, initializeApp toFixed2 net completion a = (a', Some f, []).
Proof.
  intros Hi Hl He. unfold initializeApp, init. rewrite loadAndInject_run.
  destruct (injectAllIcons _ _ _) as [targets1 console].
  destruct (setupIconInjection (buttonElements a)) as [prepared [e0|]] eqn:Es;
    [eauto|].
  apply setupIconInjection_Forall2 in Es.
  destruct (Forall2_lookup_l _ _ _ _ _ Es Hi) as ([b' kids'] & Hi' & Hprep).
  destruct (prepareButton_inr _ _ _ _ Hprep) as ((_ & _ & _ & _ & _ & Hbg & Hlabel) & _).
  assert (Hthrow : updateLabel toFixed2 b' = inl e).
  { apply updateLabel_throws_iff. exists l. rewrite Hlabel, Hbg. now split. }
  assert (Hat : map fst prepared !! i = Some b').
  { rewrite list_lookup_fmap, Hi'. reflexivity. }
  destruct (updateButtonLabels_throws toFixed2 _ _ _ _ Hat Hthrow) as [e' He'].
  unfold applyDynamicStyles.
  destruct (map fst prepared) as [|b0 rest] eqn:Em; [discriminate Hat|].
  destruct (updateButtonLabels toFixed2 (b0 :: rest)) as [labelled thrown].
  cbn [snd] in He'. subst thrown. cbn [option_map]. eauto.
Qed.

(** X16: when no button without the class [toggle] carries
    [data-is-toggle-button="true"] and [ButtonSystem.init] resolves, every
    button of class [toggle] carries that mark afterwards, and along every
    sequence of pointer events, clicks, key presses and timer expiries
    [aria-pressed] of each marked button keeps saying whether the button has
    the class [pressed]. *)
Theorem started_app_keeps_toggle_marks
    (completion : list (string * Icons.config)) (a a' : appState)
    (inputs : list input) :
  Forall (fun el => toggle (fst el) = false ->
                    isTrue (isToggleButton (fst el)) = false) (buttonElements a) ->
  init toFixed2 net completion a = (a', None) ->
  Forall (fun el => toggle (fst el) = true -> isToggleButton (fst el) = Some "true")
         (buttonElements a') /\
  Forall wellMarked
    (buttons (current (run (World (Page (map fst (buttonElements a')) 0) []) inputs))).
Proof.
  intros Hplain Hinit.
  destruct (init_resolved completion a a' Hinit)
    as (prepared & Hsetup & Hlabels & Hlen & Hempty).
  apply setupIconInjection_Forall2 in Hsetup.
  assert (Hprepared :
    Forall (fun b => wellMarked b /\ (toggle b = true -> isToggleButton b = Some "true"))
           (map fst prepared)).
  { apply Forall_fmap.
    refine (Forall2_transfer _ _ _ _ _ _ Hsetup Hplain).
    intros [b kids] [b' kids'] Hel Hb. unfold compose. cbn [fst] in *.
    destruct (prepareButton_inr _ _ _ _ Hel) as ((_ & Ht & _) & Hkeep & Hmark).
    destruct (toggle b) eqn:E.
    - destruct (Hmark eq_refl) as (Hdata & Haria & _).
      cbn [fst]. split; [intros _; now split | now intros _].
    - destruct (Hkeep eq_refl) as [Heq _]. subst b'.
      pose proof (Hb eq_refl) as Hdata.
      cbn [fst]. split.
      + unfold wellMarked. intros H. rewrite Hdata in H. discriminate H.
      + intros H. rewrite E in H. discriminate H. }
  assert (Hafter :
    Forall (fun b => wellMarked b /\ (toggle b = true -> isToggleButton b = Some "true"))
           (map fst (buttonElements a'))).
  { destruct Hlabels as [Hnil | Hlabels].
    - rewrite (Hempty Hnil). constructor.
    - apply updateButtonLabels_Forall2 in Hlabels.
      refine (Forall2_transfer _ _ _ _ _ _ Hlabels Hprepared).
      intros b b' Hb [Hw Hd].
      destruct (updateLabel_keeps toFixed2 b b' Hb)
        as (Hp & Ht & _ & Ha & Hm & _).
      unfold wellMarked in *. rewrite Hp, Ht, Ha, Hm. now split. }
  split.
  - apply Forall_fmap in Hafter. eapply Forall_impl; [exact Hafter|].
    intros el [_ H]. exact H.
  - assert (Hmarks : Forall wellMarked (map fst (buttonElements a'))).
    { eapply Forall_impl; [exact Hafter|]. now intros b [H _]. }
    apply (run_keeps inputs (World (Page (map fst (buttonElements a')) 0) []));
      [constructor | exact Hmarks].
Qed.

End StartUp.

(** ** Sizing the buttons, and the resize listener *)

Section DynamicStyles.

Import StyleManager Startup.

Variable toFixed2 : option R -> string.

Lemma sizeButton_cached (l : layout) :
  width (sizeButton l) = width l /\ height (sizeButton l) = height l /\
  default 0%R (styleCache (sizeButton l)) = Rmin (width l) (height l) /\
  (sizeButton l = l \/
   minSideProperty (sizeButton l) = Some (Rmin (width l) (height l))).
Proof.
  unfold sizeButton. cbv zeta.
  destruct (Req_dec_T _ _) as [E|E]; cbn; tauto.
Qed.

(** Whether or not the label pass throws, every button has the smaller
    side of its rectangle in the style cache afterwards (0 counting as no
    entry), and the style property [--min-side] was set where the cache had
    to change. *)
Lemma applyDynamicStyles_sizes
    (layouts : list layout) (allButtons : list button) :
  allButtons <> [] ->
  Forall2 (fun l l' =>
             width l' = width l /\ height l' = height l /\
             default 0%R (styleCache l') = Rmin (width l) (height l) /\
             (l' = l \/ minSideProperty l' = Some (Rmin (width l) (height l))))
          layouts (fst (fst (applyDynamicStyles toFixed2 layouts allButtons))).
Proof.
  intros Hne. unfold applyDynamicStyles.
  destruct allButtons as [|b rest]; [contradiction|].
  destruct (updateButtonLabels toFixed2 (b :: rest)) as [updated thrown].
  cbn [fst]. clear. induction layouts as [|l layouts IH]; constructor.
  - apply sizeButton_cached.
  - exact IH.
Qed.

(** X17: on a document with buttons [applyDynamicStyles] first sizes every
    button from the rectangle it measures for it, and then runs the label
    pass, whose result and exception are its own.  Afterwards the style
    cache of every button holds the smaller side of that rectangle (0
    counting as no entry); where the cache held that value already, the
    cache and the style property [--min-side] are left alone, and where it
    did not, both are set to it.  This holds whether or not the label pass
    throws. *)
Theorem applyDynamicStyles_sizes_every_button
    (layouts : list layout) (allButtons : list button) :
  allButtons <> [] ->
  Forall2 (fun l l' =>
             let minSide := Rmin (width l) (height l) in
             default 0%R (styleCache l') = minSide /\
             (default 0%R (styleCache l) = minSide ->
              minSideProperty l' = minSideProperty l /\
              styleCache l' = styleCache l) /\
             (default 0%R (styleCache l) <> minSide ->
              minSideProperty l' = Some minSide /\ styleCache l' = Some minSide))
          layouts (fst (fst (applyDynamicStyles toFixed2 layouts allButtons))) /\
  (snd (fst (applyDynamicStyles toFixed2 layouts allButtons)),
   snd (applyDynamicStyles toFixed2 layouts allButtons))
  = updateButtonLabels toFixed2 allButtons.
Proof.
  intros Hne. unfold applyDynamicStyles.
  destruct allButtons as [|b rest]; [contradiction|].
  destruct (updateButtonLabels toFixed2 (b :: rest)) as [updated thrown].
  cbn [fst snd]. split; [|reflexivity].
  clear. induction layouts as [|l layouts IH]; constructor; [|exact IH].
  cbv zeta. unfold sizeButton. cbv zeta.
  destruct (Req_dec_T (default 0%R (styleCache l)) (Rmin (width l) (height l)))
    as [E|E]; cbn [styleCache minSideProperty default]; tauto.
Qed.

(** *** The resize listener *)

Lemma relayout_minSideProperty (rects : nat -> R * R) (ls : list layout) :
  map minSideProperty (relayout rects ls) = map minSideProperty ls.
Proof.
  unfold relayout. revert rects. induction ls as [|l ls IH]; intros rects; [reflexivity|].
  cbn [imap map minSideProperty]. f_equal. apply IH.
Qed.

Lemma relayout_styleCache (rects : nat -> R * R) (ls : list layout) :
  map styleCache (relayout rects ls) = map styleCache ls.
Proof.
  unfold relayout. revert rects. induction ls as [|l ls IH]; intros rects; [reflexivity|].
  cbn [imap map styleCache]. f_equal. apply IH.
Qed.

(** Events other than an animation frame leave at most the one callback
    pending that the first [resize] among them has requested. *)
Lemma burst_run (burst : list windowEvent) (w : window) :
  Forall (fun e => e <> AnimationFrame) burst ->
  let anyResize :=
    existsb (fun e => match e with Resize => true | _ => false end) burst in
  let w' := windowRun toFixed2 w burst in
  styleRuns w' = styleRuns w /\ labelled w' = labelled w /\
  resizeScheduled w' = resizeScheduled w || anyResize /\
  animationFrames w'
  = (animationFrames w + (if negb (resizeScheduled w) && anyResize then 1 else 0))%nat.
Proof.
  cbv zeta. revert w. induction burst as [|e burst IH]; intros w Hburst.
  - cbn. rewrite orb_false_r, andb_false_r. repeat split. lia.
  - apply Forall_cons in Hburst as [He Hburst].
    cbn [windowRun fold_left]. fold (windowRun toFixed2 (windowStep toFixed2 w e) burst).
    specialize (IH (windowStep toFixed2 w e) Hburst).
    destruct IH as (Hruns & Hlab & Hsched & Hframes).
    rewrite Hruns, Hlab, Hsched, Hframes. clear Hruns Hlab Hsched Hframes.
    destruct e as [rects| |]; [| |contradiction]; cbn [windowStep existsb orb].
    + cbn [styleRuns labelled resizeScheduled animationFrames]. repeat split.
    + destruct (resizeScheduled w) eqn:Es.
      * rewrite Es. cbn [orb negb andb]. repeat split.
      * cbn [styleRuns labelled resizeScheduled animationFrames orb negb andb].
        repeat split. lia.
Qed.

Lemma In_Resize (burst : list windowEvent) :
  In Resize burst ->
  existsb (fun e => match e with Resize => true | _ => false end) burst = true.
Proof.
  intros H. apply existsb_exists. now exists Resize.
Qed.

(** X18: the [resize] listener throttles.  From a state in which nothing is
    scheduled, any number of [resize] events (one at least) and layout
    changes up to the next animation frame lead to exactly one call of
    [applyDynamicStyles] in that frame and leave no callback pending; on a
    document with buttons the style cache then holds for every button the
    smaller side of its rectangle at the time of the frame. *)
Theorem resize_burst_applies_styles_once (w : window) (burst : list windowEvent) :
  resizeScheduled w = false -> animationFrames w = 0%nat ->
  Forall (fun e => e <> AnimationFrame) burst -> In Resize burst ->
  let w' := windowRun toFixed2 w (burst ++ [AnimationFrame]) in
  styleRuns w' = S (styleRuns w) /\ animationFrames w' = 0%nat /\
  (labelled w <> [] ->
   Forall (fun l => default 0%R (styleCache l) = Rmin (width l) (height l)) (sizes w')).
Proof.
  intros Hs Hf Hburst Hin. cbv zeta.
  unfold windowRun. rewrite fold_left_app. fold (windowRun toFixed2 w burst).
  destruct (burst_run burst w Hburst) as (Hruns & Hlab & Hsched & Hframes).
  rewrite Hs, Hf, (In_Resize burst Hin) in Hframes. cbn in Hframes.
  cbn [fold_left windowStep]. rewrite Hframes. unfold frameCallback.
  rewrite Hlab.
  destruct (applyDynamicStyles toFixed2 (sizes (windowRun toFixed2 w burst)) (labelled w))
    as [[layouts' buttons'] thrown] eqn:Ea.
  cbn [styleRuns animationFrames sizes]. rewrite Hruns.
  split; [reflexivity|]. split; [reflexivity|].
  intros Hne.
  pose proof (applyDynamicStyles_sizes
                (sizes (windowRun toFixed2 w burst)) (labelled w) Hne) as H.
  rewrite Ea in H. cbn [fst] in H.
  clear -H. induction H as [|l l' ls ls' (Hw & Hh & Hc & _) _ IH]; constructor.
  - now rewrite Hw, Hh.
  - exact IH.
Qed.

(** Once [resizeScheduled] is set and no callback is pending, no event
    changes that. *)
Lemma stuck_run (events : list windowEvent) (w : window) :
  resizeScheduled w = true -> animationFrames w = 0%nat ->
  let w' := windowRun toFixed2 w events in
  resizeScheduled w' = true /\ animationFrames w' = 0%nat /\
  styleRuns w' = styleRuns w /\ labelled w' = labelled w /\
  map minSideProperty (sizes w') = map minSideProperty (sizes w) /\
  map styleCache (sizes w') = map styleCache (sizes w).
Proof.
  cbv zeta. revert w. induction events as [|e events IH]; intros w Hs Hf.
  - cbn. tauto.
  - cbn [windowRun fold_left]. fold (windowRun toFixed2 (windowStep toFixed2 w e) events).
    destruct e as [rects| |]; cbn [windowStep].
    + destruct (IH (Window (resizeScheduled w) (animationFrames w) (styleRuns w)
                      (relayout rects (sizes w)) (labelled w)) Hs Hf)
        as (H1 & H2 & H3 & H4 & H5 & H6).
      rewrite H1, H2, H3, H4, H5, H6. cbn [styleRuns labelled sizes].
      rewrite relayout_minSideProperty, relayout_styleCache. tauto.
    + rewrite Hs. now apply IH.
    + rewrite Hf. now apply IH.
Qed.

(** X19: when the label pass throws in the animation frame that follows a
    [resize] event, [resizeScheduled] is never reset: [applyDynamicStyles]
    ran once (and has sized the buttons before the pass threw), and from then
    on no [resize] event, layout change or animation frame makes it run
    again; the style properties [--min-side] and the style cache stay as
    they are. *)
Theorem resize_stops_after_failed_label_pass
    (w : window) (events : list windowEvent) (e : error) :
  resizeScheduled w = false -> animationFrames w = 0%nat ->
  snd (updateButtonLabels toFixed2 (labelled w)) = Some e ->
  let stuck := windowRun toFixed2 w [Resize; AnimationFrame] in
  styleRuns stuck = S (styleRuns w) /\
  sizes stuck = map sizeButton (sizes w) /\
  styleRuns (windowRun toFixed2 stuck events) = styleRuns stuck /\
  map minSideProperty (sizes (windowRun toFixed2 stuck events))
  = map minSideProperty (sizes stuck) /\
  map styleCache (sizes (windowRun toFixed2 stuck events))
  = map styleCache (sizes stuck).
Proof.
  intros Hs Hf He. cbv zeta.
  assert (Hstuck :
    let stuck := windowRun toFixed2 w [Resize; AnimationFrame] in
    resizeScheduled stuck = true /\ animationFrames stuck = 0%nat /\
    styleRuns stuck = S (styleRuns w) /\ sizes stuck = map sizeButton (sizes w)).
  { cbv zeta. cbn [windowRun fold_left windowStep]. rewrite Hs.
    cbn [animationFrames]. unfold frameCallback.
    cbn [sizes labelled resizeScheduled styleRuns]. unfold applyDynamicStyles.
    destruct (labelled w) as [|b rest] eqn:El; [discriminate He|].
    destruct (updateButtonLabels toFixed2 (b :: rest)) as [updated thrown].
    cbn [snd] in He. subst thrown.
    cbn [resizeScheduled animationFrames styleRuns sizes]. now rewrite Hf. }
  cbv zeta in Hstuck. destruct Hstuck as (H1 & H2 & H3 & H4).
  split; [exact H3|]. split; [exact H4|].
  destruct (stuck_run events _ H1 H2) as (_ & _ & Hruns & _ & Hprop & Hcache).
  tauto.
Qed.

End DynamicStyles.

(** ** More on the icon loader *)

Section ConvertFrame.

Import Str SVGLoader Words.

Lemma strip_ci_prefix (name rest s r : string) :
  strip_ci (name +:+ rest) s = Some r -> startsWith_ci name s = true.
Proof.
  unfold startsWith_ci. revert s.
  induction name as [|a name IH]; intros s; [reflexivity|].
  rewrite append_cons. destruct s as [|c s]; [discriminate|].
  cbn [strip_ci]. destruct (eq_ci a c); [apply IH | discriminate].
Qed.

Lemma mentions_drop (name s : string) (n : nat) :
  mentions name s = false -> startsWith_ci name (drop n s) = false.
Proof.
  revert s. induction n as [|n IH]; intros s H.
  - destruct s; cbn [mentions drop] in *; now apply orb_false_iff in H as [H _].
  - destruct s as [|c s].
    + cbn [mentions drop] in *. now apply orb_false_iff in H as [H _].
    + cbn [mentions drop] in *. apply orb_false_iff in H as [_ H]. now apply IH.
Qed.

Lemma attrDirective_needs_name (name : string) (q : ascii) (s : string) :
  startsWith_ci name s = false -> attrDirective name q s = None.
Proof.
  intros H. unfold attrDirective.
  destruct (strip_ci _ s) as [value|] eqn:E; [|reflexivity].
  apply strip_ci_prefix in E. congruence.
Qed.

Lemma styleDirective_needs_name (name : string) (s : string) :
  startsWith_ci name s = false -> styleDirective name s = None.
Proof.
  intros H. unfold styleDirective.
  destruct (strip_ci _ s) as [value|] eqn:E; [|reflexivity].
  apply strip_ci_prefix in E. congruence.
Qed.

(** X21: markup in which neither [fill] nor [stroke] occurs, in any case of
    the letters, is returned as it is. *)
Theorem convertToCurrentColor_keeps_other_markup (svgMarkup : string) :
  mentions "fill" svgMarkup = false ->
  mentions "stroke" svgMarkup = false ->
  convertToCurrentColor svgMarkup = svgMarkup.
Proof.
  intros Hfill Hstroke. unfold convertToCurrentColor, replaceAll. cbv zeta.
  rewrite (replaceFrom_id (attrDirective "fill" dquote))
    by (intros n; now apply attrDirective_needs_name, mentions_drop).
  rewrite (replaceFrom_id (attrDirective "stroke" dquote))
    by (intros n; now apply attrDirective_needs_name, mentions_drop).
  rewrite (replaceFrom_id (attrDirective "fill" squote))
    by (intros n; now apply attrDirective_needs_name, mentions_drop).
  rewrite (replaceFrom_id (attrDirective "stroke" squote))
    by (intros n; now apply attrDirective_needs_name, mentions_drop).
  rewrite (replaceFrom_id (styleDirective "fill"))
    by (intros n; now apply styleDirective_needs_name, mentions_drop).
  rewrite (replaceFrom_id (styleDirective "stroke"))
    by (intros n; now apply styleDirective_needs_name, mentions_drop).
  reflexivity.
Qed.

End ConvertFrame.

Section LoadAndInject.

Import SVGLoader Icons Startup.

Variable net : network.

Lemma injectAllIcons_document (paths : list (string * string))
    (cache : gmap string string) (document : list target) :
  fst (injectAllIcons (createIconMapIn paths) cache document)
  = map (Spec.injected (map fst paths) cache) document.
Proof.
  unfold injectAllIcons.
  destruct (fold_left (injectIcon cache) (createIconMapIn paths) (document, []))
    as [document' console'] eqn:E.
  cbn [fst].
  pose proof (fold_injectIcon_document cache (createIconMapIn paths) document []) as H.
  rewrite E in H. cbn [fst] in H. rewrite H.
  apply map_ext. intros el.
  rewrite fold_injectStep by apply createIconMapIn_selectsOwnKey.
  now rewrite createIconMapIn_keys.
Qed.

Lemma injected_again (keys : list string) (cache : gmap string string) (el : target) :
  Spec.injected keys cache (Spec.injected keys cache el) = Spec.injected keys cache el.
Proof.
  destruct el as [d t p h]. unfold Spec.injected, Spec.injectedContent.
  cbn [dataIcon closestToggle classPressed innerHTML]. f_equal.
  destruct d as [key|]; [|reflexivity].
  destruct (bool_decide (key ∈ keys) && negb (String.eqb key "toggle") && negb (t && p));
    [|reflexivity].
  destruct (cache !! key) as [[|c m]|]; reflexivity.
Qed.

(** X22: a second run of [injectAllIcons] with the same cache leaves every
    element as the first run left it. *)
Theorem injectAllIcons_idempotent (paths : list (string * string))
    (cache : gmap string string) (document : list target) :
  fst (injectAllIcons (createIconMapIn paths) cache
         (fst (injectAllIcons (createIconMapIn paths) cache document)))
  = fst (injectAllIcons (createIconMapIn paths) cache document).
Proof.
  rewrite !injectAllIcons_document, map_map.
  apply map_ext. intros el. apply injected_again.
Qed.

(** What the cache holds for an identifier of the catalog after the
    preload. *)
Lemma written_catalog (paths : list (string * string))
    (completion : list (string * Icons.config)) (cache0 : gmap string string)
    (key : string) :
  Permutation completion (createIconMapIn paths) ->
  In key (map fst paths) ->
  Spec.written net completion cache0 !! key
  = Some (Spec.cachedMarkup net key (Config (getIconPathIn paths key) key)).
Proof.
  intros Hperm Hkey.
  rewrite <- createIconMapIn_keys in Hkey.
  apply in_map_iff in Hkey as ([k config] & Hk & Hin). cbn in Hk. subst k.
  pose proof (createIconMapIn_config _ _ _ Hin) as Hconfig. subst config.
  apply written_lookup.
  - eapply Permutation_in; [symmetry; exact Hperm | exact Hin].
  - intros config' Hin'. apply (Permutation_in _ Hperm) in Hin'.
    now apply createIconMapIn_config in Hin'.
Qed.

(** X23: when no request is answered with a non-empty markup,
    [loadAndInject] still resolves and leaves every element of the document
    as it was, whatever the cache held before. *)
Theorem loadAndInject_offline (paths : list (string * string))
    (completion : list (string * Icons.config)) (document : list target)
    (cache0 : gmap string string) :
  Permutation completion (createIconMapIn paths) ->
  (forall key attempt path c markup,
      net key attempt path <> Response true (Text (String c markup))) ->
  exists cache console,
    loadAndInject net completion (createIconMapIn paths) document cache0
    = (cache, inr (document, console)).
Proof.
  intros Hperm Hoffline. rewrite loadAndInject_run.
  eexists. exists (snd (injectAllIcons (createIconMapIn paths)
                          (Spec.written net completion cache0) document)).
  f_equal. f_equal.
  rewrite (surjective_pairing (injectAllIcons _ _ _)). f_equal.
  rewrite injectAllIcons_document.
  rewrite <- (map_id document) at 2. apply map_ext. intros [d t p h].
  unfold Spec.injected, Spec.injectedContent.
  cbn [dataIcon closestToggle classPressed innerHTML]. f_equal.
  destruct d as [key|]; [|reflexivity].
  destruct (bool_decide (key ∈ map fst paths)) eqn:Ekey; [|reflexivity].
  cbn [andb].
  destruct (negb (String.eqb key "toggle") && negb (t && p)); [|reflexivity].
  apply bool_decide_eq_true in Ekey. apply list_elem_of_In in Ekey.
  rewrite (written_catalog paths completion cache0 key Hperm Ekey).
  unfold Spec.cachedMarkup.
  destruct (net key 0%nat _) as [[|] [[|c m]|]|] eqn:E0; try reflexivity;
    try (now destruct (Hoffline _ _ _ _ _ E0));
    destruct (net key 1%nat _) as [[|] [[|c' m']|]|] eqn:E1; try reflexivity;
    now destruct (Hoffline _ _ _ _ _ E1).
Qed.

(** X24: [loadAndInject] resolves, and the content of an element whose
    [data-icon] names an identifier of the catalog other than [toggle], and
    that is not an element with [closest('.toggle')] and the class
    [pressed], is then set from the normalised markup its identifier was
    answered with (its own file, else the fallback file); when that markup
    is empty the element keeps its content.

    As for [injectAllIcons], the statement is about documents for which the
    list of elements is the whole truth: no markup that is answered and no
    content that is replaced holds the text [data-icon]. *)
Theorem loadAndInject_content (paths : list (string * string))
    (completion : list (string * Icons.config)) (document : list target)
    (cache0 : gmap string string) (i : nat) (el : target) (key : string) :
  Permutation completion (createIconMapIn paths) ->
  (forall other,
      In other (map fst paths) ->
      Words.mentions "data-icon"
        (convertToCurrentColor
           (Spec.cachedMarkup net other (Config (getIconPathIn paths other) other)))
      = false) ->
  Forall (fun el => Words.mentions "data-icon" (innerHTML el) = false) document ->
  document !! i = Some el ->
  dataIcon el = Some key ->
  In key (map fst paths) ->
  key <> "toggle" ->
  closestToggle el && classPressed el = false ->
  exists cache console document',
    loadAndInject net completion (createIconMapIn paths) document cache0
    = (cache, inr (document', console)) /\
    innerHTML <$> document' !! i
    = Some (match Spec.cachedMarkup net key (Config (getIconPathIn paths key) key) with
            | EmptyString => innerHTML el
            | markup => convertToCurrentColor markup
            end).
Proof.
  intros Hperm _ _ Hi Hdata Hkey Htoggle Hskip. rewrite loadAndInject_run.
  eexists. exists (snd (injectAllIcons (createIconMapIn paths)
                          (Spec.written net completion cache0) document)).
  exists (fst (injectAllIcons (createIconMapIn paths)
                 (Spec.written net completion cache0) document)).
  split; [now rewrite <- surjective_pairing|].
  rewrite injectAllIcons_document, list_lookup_fmap, Hi.
  cbn [fmap option_fmap option_map]. f_equal.
  unfold Spec.injected, Spec.injectedContent. cbn [innerHTML]. rewrite Hdata.
  rewrite (bool_decide_true (key ∈ map fst paths)) by now apply list_elem_of_In.
  apply String.eqb_neq in Htoggle. rewrite Htoggle, Hskip. cbn [andb negb].
  rewrite (written_catalog paths completion cache0 key Hperm Hkey).
  now destruct (Spec.cachedMarkup net key _).
Qed.

End LoadAndInject.

(** ** More on the colour parser *)

Section Colours.

Import Str StyleManager Words.

(** *** The hexadecimal notation *)

Lemma In_codeUnits (c : ascii) : In c codeUnits.
Proof.
  rewrite <- (ascii_nat_embedding c). apply in_map, in_seq.
  pose proof (nat_ascii_bounded c). lia.
Qed.

Lemma rgbaMatch_hexDigit (h : ascii) (d : Z) (s : string) :
  hexDigit h = Some d -> rgbaMatch (String h s) = rgbaMatch s.
Proof.
  intros H. cbn [rgbaMatch].
  assert (Hat : rgbaAt (String h s) = None).
  { unfold rgbaAt. cbn [strip].
    destruct (Ascii.eqb_spec "r" h) as [<-|Hr]; [discriminate H | reflexivity]. }
  now rewrite Hat.
Qed.

Lemma hexDigit_range (h : ascii) (d : Z) : hexDigit h = Some d -> (0 <= d <= 15)%Z.
Proof.
  intros H.
  assert (Hall : forallb (fun h => match hexDigit h with
                                   | Some d => (0 <=? d)%Z && (d <=? 15)%Z
                                   | None => true
                                   end) codeUnits = true) by (vm_compute; reflexivity).
  rewrite forallb_forall in Hall. specialize (Hall h (In_codeUnits h)).
  rewrite H in Hall. apply andb_true_iff in Hall as [H0 H1].
  apply Z.leb_le in H0, H1. lia.
Qed.

(** Two hexadecimal digits are read as their value, checked on all pairs of
    code units. *)
Lemma parseInt16_pair (h1 h2 : ascii) (d1 d2 : Z) :
  hexDigit h1 = Some d1 -> hexDigit h2 = Some d2 ->
  parseInt16 (String h1 (String h2 EmptyString)) = Some (16 * d1 + d2)%Z.
Proof.
  intros H1 H2.
  assert (Hall :
    forallb (fun h1 =>
      forallb (fun h2 =>
        match hexDigit h1, hexDigit h2 with
        | Some d1, Some d2 =>
            bool_decide (parseInt16 (String h1 (String h2 EmptyString))
                         = Some (16 * d1 + d2)%Z)
        | _, _ => true
        end) codeUnits) codeUnits = true) by (vm_compute; reflexivity).
  rewrite forallb_forall in Hall. specialize (Hall h1 (In_codeUnits h1)).
  rewrite forallb_forall in Hall. specialize (Hall h2 (In_codeUnits h2)).
  rewrite H1, H2 in Hall. now apply bool_decide_eq_true in Hall.
Qed.

(** X25: a text of [#] and six hexadecimal digits, in either case, followed
    by anything that holds no [rgb(...)] colour, is read as three channels
    of two digits each, all between 0 and 255; what follows the six digits
    (an alpha value, say) is ignored. *)
Theorem getRGB_hex (h1 h2 h3 h4 h5 h6 : ascii) (d1 d2 d3 d4 d5 d6 : Z)
    (rest : string) :
  hexDigit h1 = Some d1 -> hexDigit h2 = Some d2 -> hexDigit h3 = Some d3 ->
  hexDigit h4 = Some d4 -> hexDigit h5 = Some d5 -> hexDigit h6 = Some d6 ->
  rgbaMatch rest = None ->
  getRGB (String "#" (String h1 (String h2 (String h3 (String h4
            (String h5 (String h6 rest)))))))
  = inr (Some (16 * d1 + d2), Some (16 * d3 + d4), Some (16 * d5 + d6))%Z /\
  (0 <= 16 * d1 + d2 <= 255)%Z /\ (0 <= 16 * d3 + d4 <= 255)%Z /\
  (0 <= 16 * d5 + d6 <= 255)%Z.
Proof.
  intros H1 H2 H3 H4 H5 H6 Hrest.
  pose proof (hexDigit_range _ _ H1). pose proof (hexDigit_range _ _ H2).
  pose proof (hexDigit_range _ _ H3). pose proof (hexDigit_range _ _ H4).
  pose proof (hexDigit_range _ _ H5). pose proof (hexDigit_range _ _ H6).
  split; [|lia].
  assert (Hmatch : rgbaMatch (String "#" (String h1 (String h2 (String h3 (String h4
                     (String h5 (String h6 rest))))))) = None).
  { change (rgbaMatch (String "#" ?s)) with (rgbaMatch s).
    rewrite (rgbaMatch_hexDigit h1 d1), (rgbaMatch_hexDigit h2 d2),
      (rgbaMatch_hexDigit h3 d3), (rgbaMatch_hexDigit h4 d4),
      (rgbaMatch_hexDigit h5 d5), (rgbaMatch_hexDigit h6 d6); assumption. }
  unfold getRGB. rewrite Hmatch.
  change (String.eqb (String "#" ?s) "transparent") with false. cbv iota.
  unfold substr2. cbn [String.length Nat.leb take drop].
  now rewrite (parseInt16_pair h1 h2 d1 d2), (parseInt16_pair h3 h4 d3 d4),
    (parseInt16_pair h5 h6 d5 d6).
Qed.


(** *** Texts too short for a colour *)

Lemma length_strip (lit s r : string) :
  strip lit s = Some r -> String.length s = (String.length lit + String.length r)%nat.
Proof.
  revert s. induction lit as [|a lit IH]; intros s; [now intros [= ->]|].
  destruct s as [|c s]; [discriminate|]. cbn [strip String.length].
  destruct (Ascii.eqb a c); [|discriminate]. intros H. now rewrite (IH s H).
Qed.

Lemma length_drop_le (n : nat) (s : string) :
  (String.length (drop n s) <= String.length s)%nat.
Proof.
  revert s. induction n as [|n IH]; intros [|c s]; cbn [drop String.length]; try lia.
  specialize (IH s). lia.
Qed.

Lemma length_drop (n : nat) (s : string) :
  (n <= String.length s)%nat ->
  String.length (drop n s) = (String.length s - n)%nat.
Proof.
  revert s. induction n as [|n IH]; intros [|c s] H; cbn [drop String.length] in *;
    try lia.
  apply IH. lia.
Qed.

Lemma span_le (p : ascii -> bool) (s : string) : (span p s <= String.length s)%nat.
Proof.
  induction s as [|c s IH]; cbn [span String.length]; [lia|].
  destruct (p c); lia.
Qed.

Lemma length_skipSpaces (s : string) :
  (String.length (skipSpaces s) <= String.length s)%nat.
Proof. apply length_drop_le. Qed.

(** A number takes at least one character. *)
Lemma length_number (s whole fraction rest : string) :
  number s = Some (whole, fraction, rest) ->
  (String.length rest < String.length s)%nat.
Proof.
  unfold number. pose proof (span_le isDigit s) as Hspan.
  destruct (span isDigit s) as [|n] eqn:En; [discriminate|].
  pose proof (length_drop (S n) s Hspan) as Hdrop.
  destruct (drop (S n) s) as [|c rest0] eqn:Ed.
  - intros [= _ _ <-]. cbn [String.length] in *. lia.
  - assert (Hcase :
      forall r, (String.length r <= String.length (String c rest0))%nat ->
                (String.length r < String.length s)%nat).
    { intros r Hr. rewrite Hdrop in Hr. lia. }
    destruct (Ascii.eqb_spec c ".") as [->|Hc].
    + destruct (span isDigit rest0) as [|k] eqn:Ek.
      * intros [= _ _ <-]. now apply Hcase.
      * intros [= _ _ <-]. apply Hcase.
        pose proof (length_drop_le (S k) rest0) as Hk.
        change (String.length (String "." rest0)) with (S (String.length rest0)).
        apply Nat.le_trans with (String.length rest0);
          [exact Hk | apply Nat.le_succ_diag_r].
    + assert (Hother : Some (take (S n) s, EmptyString, String c rest0)
                       = Some (whole, fraction, rest) ->
                       (String.length rest < String.length s)%nat).
      { intros [= _ _ <-]. now apply Hcase. }
      destruct c as [[] [] [] [] [] [] [] []]; try exact Hother.
      now destruct Hc.
Qed.

(** The expression of [getRGB] matches nine characters at least. *)
Lemma length_rgbaAt (s : string) captures :
  rgbaAt s = Some captures -> (9 <= String.length s)%nat.
Proof.
  unfold rgbaAt.
  destruct (strip "rgb" s) as [s1|] eqn:E1; [|discriminate].
  apply length_strip in E1. cbn [mbind option_bind].
  set (s2 := match s1 with String "a" s' => s' | _ => s1 end).
  assert (H2 : (String.length s2 <= String.length s1)%nat).
  { subst s2. destruct s1 as [|c s']; [lia|].
    destruct c as [[] [] [] [] [] [] [] []]; cbn [String.length]; lia. }
  destruct (strip "(" s2) as [s3|] eqn:E3; [|discriminate].
  apply length_strip in E3. cbn [mbind option_bind].
  pose proof (length_skipSpaces s3) as Hk3.
  destruct (number (skipSpaces s3)) as [[[w1 f1] s4]|] eqn:E4; [|discriminate].
  apply length_number in E4. cbn [mbind option_bind].
  pose proof (length_skipSpaces s4) as Hk4.
  destruct (strip "," (skipSpaces s4)) as [s5|] eqn:E5; [|discriminate].
  apply length_strip in E5. cbn [mbind option_bind].
  pose proof (length_skipSpaces s5) as Hk5.
  destruct (number (skipSpaces s5)) as [[[w2 f2] s6]|] eqn:E6; [|discriminate].
  apply length_number in E6. cbn [mbind option_bind].
  pose proof (length_skipSpaces s6) as Hk6.
  destruct (strip "," (skipSpaces s6)) as [s7|] eqn:E7; [|discriminate].
  apply length_strip in E7. cbn [mbind option_bind].
  pose proof (length_skipSpaces s7) as Hk7.
  destruct (number (skipSpaces s7)) as [[[w3 f3] s8]|] eqn:E8; [|discriminate].
  apply length_number in E8. intros _.
  cbn [String.length] in *. lia.
Qed.

Lemma rgbaMatch_short (s : string) :
  (String.length s < 9)%nat -> rgbaMatch s = None.
Proof.
  induction s as [|c s IH]; intros H.
  - reflexivity.
  - cbn [rgbaMatch]. destruct (rgbaAt (String c s)) as [captures|] eqn:E.
    + apply length_rgbaAt in E. lia.
    + apply IH. cbn [String.length] in H. lia.
Qed.

(** X26: [#] followed by fewer than six characters, such as the short
    notation [#fff], is rejected with the parse failure. *)
Theorem getRGB_short_hex_throws (hex : string) :
  (String.length hex < 6)%nat ->
  getRGB (String "#" hex) = inl (ColorParseFailure (String "#" hex)).
Proof.
  intros H. unfold getRGB.
  change (String.eqb (String "#" ?s) "transparent") with false. cbv iota.
  rewrite rgbaMatch_short by (cbn [String.length]; lia).
  destruct (Nat.leb_spec 6 (String.length hex)); [lia | reflexivity].
Qed.


(** *** The functional notation *)

Lemma isDigit_not_space (c : ascii) : isDigit c = true -> isSpace c = false.
Proof. destruct c as [[] [] [] [] [] [] [] []]; vm_compute; congruence. Qed.

Lemma span_digits_app (d t : string) :
  span isDigit d = String.length d ->
  span isDigit t = 0%nat ->
  span isDigit (d +:+ t) = String.length d.
Proof.
  intros Hd Ht. induction d as [|c d IH]; [exact Ht|].
  rewrite append_cons. cbn [span String.length] in *.
  destruct (isDigit c); [|discriminate Hd]. f_equal. apply IH. now injection Hd.
Qed.

Lemma take_length_append (d t : string) : take (String.length d) (d +:+ t) = d.
Proof.
  induction d as [|c d IH]; [now destruct t|].
  rewrite append_cons. cbn [String.length take]. now rewrite IH.
Qed.

(** A run of digits followed by [,] or [)] is read as a number without
    fraction. *)
Lemma number_digits (d : string) (c : ascii) (t : string) :
  d <> EmptyString -> span isDigit d = String.length d ->
  c = ","%char \/ c = ")"%char ->
  number (d +:+ String c t) = Some (d, EmptyString, String c t).
Proof.
  intros Hne Hd Hc. unfold number.
  assert (Ht : span isDigit (String c t) = 0%nat) by (destruct Hc as [-> | ->]; reflexivity).
  rewrite (span_digits_app d _ Hd Ht).
  destruct (String.length d) as [|n] eqn:En; [now destruct d|].
  rewrite <- En, take_length_append, drop_length_append.
  destruct Hc as [-> | ->]; reflexivity.
Qed.

Lemma skipSpaces_digits (d t : string) :
  d <> EmptyString -> span isDigit d = String.length d ->
  skipSpaces (d +:+ t) = d +:+ t.
Proof.
  intros Hne Hd. destruct d as [|c d]; [contradiction|].
  rewrite append_cons. unfold skipSpaces. cbn [span String.length] in *.
  destruct (isDigit c) eqn:Ec; [|discriminate Hd].
  now rewrite (isDigit_not_space c Ec).
Qed.

Lemma skipSpaces_blank (s : string) : skipSpaces (String " " s) = skipSpaces s.
Proof. reflexivity. Qed.

Lemma skipSpaces_comma (s : string) : skipSpaces (String "," s) = String "," s.
Proof. reflexivity. Qed.

(** A number without fraction is rounded to itself. *)
Lemma Math_round_integer (d : string) :
  Math_round (parseFloat (d, EmptyString)) = decimal 0 d.
Proof.
  unfold Math_round, parseFloat.
  change (Z.to_pos (10 ^ Z.of_nat (String.length EmptyString))) with 1%positive.
  change (decimal 0 EmptyString) with 0%Z.
  set (z := decimal 0 d).
  unfold Qfloor, Qplus, inject_Z. cbn [Qnum Qden].
  change (Z.pos (1 * 1 * 2)) with 2%Z. change (Z.pos (1 * 1)) with 1%Z.
  replace ((z * 1 + 0 * 1) * 2 + 1 * 1)%Z with (z * 2 + 1)%Z by ring.
  rewrite Z.div_add_l by discriminate.
  change (1 / 2)%Z with 0%Z. apply Z.add_0_r.
Qed.

Lemma bind_Some {A B} (x : A) (f : A -> option B) : Some x ≫= f = f x.
Proof. reflexivity. Qed.

Lemma strip_comma (s : string) : strip "," (String "," s) = Some s.
Proof. reflexivity. Qed.

Lemma rgbaAt_open (a : bool) (s : string) :
  rgbaAt ((if a then "rgba(" else "rgb(") +:+ s)
  = '(w1, f1, s) ← number (skipSpaces s);
    s ← strip "," (skipSpaces s);
    '(w2, f2, s) ← number (skipSpaces s);
    s ← strip "," (skipSpaces s);
    '(w3, f3, s) ← number (skipSpaces s);
    Some ((w1, f1), (w2, f2), (w3, f3)).
Proof. destruct a; reflexivity. Qed.

(** X27: [rgb(r, g, b)] and [rgba(r, g, b, a)] with channels written as
    integers are read as the channels [r], [g] and [b]; the result depends
    neither on the alpha value nor on anything else behind the third
    channel.  The channels are at most 2^53, the integers [parseFloat]
    reads without rounding. *)
Theorem getRGB_reads_channels_ignores_alpha
    (a : bool) (d1 d2 d3 rest : string) (c : ascii) :
  d1 <> EmptyString -> span isDigit d1 = String.length d1 ->
  d2 <> EmptyString -> span isDigit d2 = String.length d2 ->
  d3 <> EmptyString -> span isDigit d3 = String.length d3 ->
  (decimal 0 d1 <= 2 ^ 53)%Z -> (decimal 0 d2 <= 2 ^ 53)%Z ->
  (decimal 0 d3 <= 2 ^ 53)%Z ->
  c = ","%char \/ c = ")"%char ->
  getRGB ((if a then "rgba(" else "rgb(")
          +:+ d1 +:+ ", " +:+ d2 +:+ ", " +:+ d3 +:+ String c rest)
  = inr (Some (decimal 0 d1), Some (decimal 0 d2), Some (decimal 0 d3)).
Proof.
  intros Hn1 Hd1 Hn2 Hd2 Hn3 Hd3 _ _ _ Hc.
  assert (Hat :
    rgbaAt ((if a then "rgba(" else "rgb(")
            +:+ d1 +:+ ", " +:+ d2 +:+ ", " +:+ d3 +:+ String c rest)
    = Some ((d1, EmptyString), (d2, EmptyString), (d3, EmptyString))).
  { rewrite rgbaAt_open.
    change (", " +:+ ?t) with (String "," (String " " t)).
    rewrite skipSpaces_digits by assumption.
    rewrite number_digits by (try assumption; now left).
    rewrite bind_Some, skipSpaces_comma, strip_comma, bind_Some.
    rewrite skipSpaces_blank, skipSpaces_digits by assumption.
    change (", " +:+ ?t) with (String "," (String " " t)).
    rewrite number_digits by (try assumption; now left).
    rewrite bind_Some, skipSpaces_comma, strip_comma, bind_Some.
    rewrite skipSpaces_blank, skipSpaces_digits by assumption.
    rewrite number_digits by assumption.
    reflexivity. }
  unfold getRGB.
  assert (Hmatch :
    rgbaMatch ((if a then "rgba(" else "rgb(")
               +:+ d1 +:+ ", " +:+ d2 +:+ ", " +:+ d3 +:+ String c rest)
    = Some ((d1, EmptyString), (d2, EmptyString), (d3, EmptyString))).
  { destruct a.
    - change ("rgba(" +:+ ?t) with (String "r" ("gba(" +:+ t)) in *.
      cbn [rgbaMatch]. now rewrite Hat.
    - change ("rgb(" +:+ ?t) with (String "r" ("gb(" +:+ t)) in *.
      cbn [rgbaMatch]. now rewrite Hat. }
  rewrite Hmatch, !Math_round_integer.
  destruct a.
  - change ("rgba(" +:+ ?t) with (String "r" ("gba(" +:+ t)). reflexivity.
  - change ("rgb(" +:+ ?t) with (String "r" ("gb(" +:+ t)). reflexivity.
Qed.

End Colours.

(** ** Normalising the colours inside a markup *)

Section ConvertPieces.

Import Str SVGLoader Words Markup.

Lemma append_empty (s : string) : s +:+ EmptyString = s.
Proof.
  induction s as [|c s IH]; [reflexivity|]. rewrite append_cons. now rewrite IH.
Qed.

Lemma drop_inside (m : nat) (x b : string) :
  (m < String.length x)%nat ->
  drop m (x +:+ b) = drop m x +:+ b /\ drop m x <> EmptyString.
Proof.
  revert x. induction m as [|m IH]; intros [|c x] H; cbn [String.length] in H; try lia.
  - split; [reflexivity | discriminate].
  - rewrite append_cons. cbn [drop]. apply IH. lia.
Qed.

Lemma drop_behind (k : nat) (x b : string) :
  drop (String.length x + k) (x +:+ b) = drop k b.
Proof.
  induction x as [|c x IH]; [reflexivity|].
  rewrite append_cons. cbn [String.length Nat.add drop]. exact IH.
Qed.

(** The scan over a prefix with no match copies the prefix. *)
Lemma replaceFrom_quiet_prefix (re : string -> option nat) (repl a b : string) :
  (forall n, (n < String.length a)%nat -> re (drop n (a +:+ b)) = None) ->
  replaceFrom re repl 0 (a +:+ b) = a +:+ replaceFrom re repl 0 b.
Proof.
  induction a as [|c a IH]; intros H; [reflexivity|].
  rewrite !append_cons. cbn [replaceFrom].
  pose proof (H 0%nat ltac:(cbn; lia)) as H0. cbn [drop] in H0.
  rewrite append_cons in H0. rewrite H0.
  f_equal. apply IH. intros n Hn.
  specialize (H (S n) ltac:(cbn; lia)). now rewrite append_cons in H.
Qed.

Lemma replaceFrom_skip_prefix (re : string -> option nat) (repl a b : string) :
  replaceFrom re repl (String.length a) (a +:+ b) = replaceFrom re repl 0 b.
Proof.
  induction a as [|c a IH]; [reflexivity|].
  rewrite append_cons. cbn [String.length replaceFrom]. exact IH.
Qed.

(** The scan over a match that is a prefix writes the replacement and goes
    on behind the prefix. *)
Lemma replaceFrom_match_prefix (re : string -> option nat) (repl a b : string) :
  re (a +:+ b) = Some (String.length a) -> a <> EmptyString ->
  replaceFrom re repl 0 (a +:+ b) = repl +:+ replaceFrom re repl 0 b.
Proof.
  destruct a as [|c a]; [congruence|]. intros H _.
  rewrite append_cons in *. cbn [replaceFrom]. rewrite H. cbn [String.length].
  now rewrite replaceFrom_skip_prefix.
Qed.

Lemma strip_ci_cons (a : ascii) (lit : string) (c : ascii) (s : string) :
  strip_ci (String a lit) (String c s) = if eq_ci a c then strip_ci lit s else None.
Proof. reflexivity. Qed.

(** A literal that fails on [w] fails on [w] continued by a character it
    does not hold. *)
Lemma strip_ci_stops (lit w : string) (d : ascii) (b : string) :
  avoids lit d = true -> strip_ci lit w = None ->
  strip_ci lit (w +:+ String d b) = None.
Proof.
  revert w. induction lit as [|a lit IH]; intros w Ha H; [discriminate|].
  cbn [avoids] in Ha. apply andb_true_iff in Ha as [Ha1 Ha2].
  apply negb_true_iff in Ha1.
  destruct w as [|c w].
  - change (EmptyString +:+ String d b) with (String d b).
    rewrite strip_ci_cons. now rewrite Ha1.
  - rewrite append_cons. rewrite strip_ci_cons in *.
    destruct (eq_ci a c); [now apply IH | reflexivity].
Qed.

Lemma startsWith_ci_stops (lit w : string) (d : ascii) (b : string) :
  avoids lit d = true -> startsWith_ci lit w = false ->
  startsWith_ci lit (w +:+ String d b) = false.
Proof.
  unfold startsWith_ci. intros Ha H.
  destruct (strip_ci lit w) eqn:E; [discriminate|].
  now rewrite (strip_ci_stops _ _ _ _ Ha E).
Qed.

Lemma avoids_app (lit lit' : string) (d : ascii) :
  avoids (lit +:+ lit') d = avoids lit d && avoids lit' d.
Proof.
  induction lit as [|c lit IH]; [reflexivity|].
  rewrite append_cons. cbn [avoids]. now rewrite IH, andb_assoc.
Qed.

(** What follows the first letter of an opening avoids the character at a
    boundary. *)
Lemma boundary_avoids (opening : string) (d : ascii) (b : string) :
  In opening openings -> boundary (String d b) = true ->
  exists c tail, opening = String c tail /\ avoids tail d = true.
Proof.
  intros Hin Hb. cbn [boundary] in Hb. apply andb_true_iff in Hb as [Hi Ht].
  change "ill=:" with ("ill" +:+ "=" +:+ ":") in Hi.
  change "troke=:" with ("troke" +:+ "=" +:+ ":") in Ht.
  rewrite !avoids_app in Hi, Ht.
  apply andb_true_iff in Hi as [Hi1 Hi]. apply andb_true_iff in Hi as [Hi2 Hi3].
  apply andb_true_iff in Ht as [Ht1 Ht]. apply andb_true_iff in Ht as [Ht2 Ht3].
  destruct Hin as [<- | [<- | [<- | [<- | []]]]].
  - exists "f"%char, ("ill" +:+ "="). split; [reflexivity|].
    now rewrite avoids_app, Hi1, Hi2.
  - exists "f"%char, ("ill" +:+ ":"). split; [reflexivity|].
    now rewrite avoids_app, Hi1, Hi3.
  - exists "s"%char, ("troke" +:+ "="). split; [reflexivity|].
    now rewrite avoids_app, Ht1, Ht2.
  - exists "s"%char, ("troke" +:+ ":"). split; [reflexivity|].
    now rewrite avoids_app, Ht1, Ht3.
Qed.

(** Text that does not begin with an opening does not begin with it when
    continued by a text that fits behind it. *)
Lemma startsWith_ci_inside (opening w b : string) :
  In opening openings -> boundary b = true -> w <> EmptyString ->
  startsWith_ci opening w = false -> startsWith_ci opening (w +:+ b) = false.
Proof.
  intros Hin Hb Hw H. destruct b as [|d b]; [now rewrite append_empty|].
  destruct (boundary_avoids opening d b Hin Hb) as (a & tail & -> & Htail).
  destruct w as [|c w]; [congruence|]. rewrite append_cons.
  unfold startsWith_ci in *. rewrite strip_ci_cons in *.
  destruct (eq_ci a c); [|reflexivity].
  destruct (strip_ci tail w) eqn:E; [discriminate|].
  now rewrite (strip_ci_stops _ _ _ _ Htail E).
Qed.

(** No directive begins inside a text that holds no opening, whatever fits
    behind. *)
Lemma quiet_text (name x b : string) :
  In name openings -> mentions name x = false ->
  boundary b = true ->
  forall m, (m < String.length x)%nat ->
    startsWith_ci name (drop m (x +:+ b)) = false.
Proof.
  intros Hname Hx Hb m Hm.
  destruct (drop_inside m x b Hm) as [-> Hne].
  apply startsWith_ci_inside; [assumption .. |]. now apply mentions_drop.
Qed.

Lemma quiet_split (name x y b : string) :
  (forall m, (m < String.length x)%nat ->
     startsWith_ci name (drop m (x +:+ (y +:+ b))) = false) ->
  (forall m, (m < String.length y)%nat ->
     startsWith_ci name (drop m (y +:+ b)) = false) ->
  forall m, (m < String.length (x +:+ y))%nat ->
    startsWith_ci name (drop m ((x +:+ y) +:+ b)) = false.
Proof.
  intros Hx Hy m Hm. rewrite append_assoc. rewrite length_append in Hm.
  destruct (Nat.lt_ge_cases m (String.length x)) as [Hlt|Hge].
  - now apply Hx.
  - replace m with (String.length x + (m - String.length x))%nat by lia.
    rewrite drop_behind. apply Hy. lia.
Qed.


Lemma length_cons (c : ascii) (s : string) :
  String.length (String c s) = S (String.length s).
Proof. reflexivity. Qed.

Lemma isName_cases (name : string) :
  isName name = true -> name = "fill" \/ name = "stroke".
Proof.
  unfold isName. intros H. apply orb_true_iff in H as [H|H];
    apply String.eqb_eq in H; auto.
Qed.

Lemma isQuote_cases (q : ascii) : isQuote q = true -> q = dquote \/ q = squote.
Proof.
  unfold isQuote. intros H. apply orb_true_iff in H as [H|H];
    apply Ascii.eqb_eq in H; auto.
Qed.

Lemma quiet_cases (name s : string) :
  In name openings -> quiet s = true -> mentions name s = false.
Proof.
  unfold quiet. intros Hname H. rewrite forallb_forall in H.
  apply negb_true_iff. now apply H.
Qed.

(** A character outside [[^;}\s]] is in none of the words. *)
Lemma delimiter_avoids (d : ascii) :
  isValueChar d = false ->
  avoids "ill=:" d = true /\ avoids "troke=:" d = true /\
  avoids "none" d = true /\ avoids "transparent" d = true.
Proof.
  intros H.
  assert (Hall : forallb (fun d => isValueChar d
                                   || (avoids "ill=:" d && avoids "troke=:" d
                                       && avoids "none" d && avoids "transparent" d))
                   codeUnits = true) by (vm_compute; reflexivity).
  rewrite forallb_forall in Hall. specialize (Hall d (In_codeUnits d)).
  rewrite H in Hall. cbn [orb] in Hall.
  apply andb_true_iff in Hall as [Hall H4].
  apply andb_true_iff in Hall as [Hall H3].
  apply andb_true_iff in Hall as [H1 H2]. auto.
Qed.

(** White space does not begin a name. *)
Lemma blank_not_initial (c : ascii) :
  isSpace c = true -> eq_ci "f" c = false /\ eq_ci "s" c = false.
Proof.
  intros H.
  assert (Hall : forallb (fun c => negb (isSpace c)
                                   || (negb (eq_ci "f" c) && negb (eq_ci "s" c)))
                   codeUnits = true) by (vm_compute; reflexivity).
  rewrite forallb_forall in Hall. specialize (Hall c (In_codeUnits c)).
  rewrite H in Hall. cbn [negb orb] in Hall.
  apply andb_true_iff in Hall as [H1 H2].
  now apply negb_true_iff in H1, H2.
Qed.

Lemma delimited_boundary (b : string) : delimited b = true -> boundary b = true.
Proof.
  destruct b as [|d b]; [reflexivity|]. cbn [delimited boundary]. intros H.
  apply negb_true_iff in H. destruct (delimiter_avoids d H) as (H1 & H2 & _).
  now rewrite H1, H2.
Qed.

Lemma delimited_avoids (lit b : string) :
  lit = "none" \/ lit = "transparent" -> delimited b = true ->
  match b with String d _ => avoids lit d = true | EmptyString => True end.
Proof.
  intros Hlit. destruct b as [|d b]; [trivial|]. cbn [delimited]. intros H.
  apply negb_true_iff in H. destruct (delimiter_avoids d H) as (_ & _ & H3 & H4).
  now destruct Hlit as [-> | ->].
Qed.

Lemma quiet_blanks (name blank t : string) :
  In name openings -> Spec.blanks blank = true ->
  forall m, (m < String.length blank)%nat ->
    startsWith_ci name (drop m (blank +:+ t)) = false.
Proof.
  intros Hname. induction blank as [|c blank IH]; intros Hb m Hm;
    [cbn in Hm; lia|].
  cbn [Spec.blanks] in Hb. apply andb_true_iff in Hb as [Hc Hb].
  rewrite append_cons. destruct m as [|m].
  - cbn [drop]. unfold startsWith_ci.
    destruct Hname as [<- | [<- | [<- | [<- | []]]]]; rewrite strip_ci_cons.
    + now rewrite (proj1 (blank_not_initial c Hc)).
    + now rewrite (proj1 (blank_not_initial c Hc)).
    + now rewrite (proj2 (blank_not_initial c Hc)).
    + now rewrite (proj2 (blank_not_initial c Hc)).
  - cbn [drop]. apply IH; [assumption|]. cbn in Hm. lia.
Qed.

(** Behind its first character no piece begins with an opening, and text
    that is not a directive does not at its first character either. *)
Lemma quiet_inside_piece (name : string) (s : segment) (b : string) :
  In name openings ->
  wellFormedSegment s = true -> fits s b = true ->
  forall m, (m < String.length (renderSegment s))%nat ->
    (0 < m)%nat \/ (exists text, s = Other text) ->
    startsWith_ci name (drop m (renderSegment s +:+ b)) = false.
Proof.
  intros Hname Hs Hb m Hm H0. destruct s as [text | n q value | n blank value].
  - cbn [wellFormedSegment fits renderSegment] in *.
    apply quiet_text; auto using quiet_cases.
  - destruct H0 as [H0 | [text H0]]; [|discriminate].
    cbn [wellFormedSegment fits renderSegment] in *.
    apply andb_true_iff in Hs as [Hs Hv].
    apply andb_true_iff in Hs as [Hs Hc].
    apply andb_true_iff in Hs as [Hn Hq].
    apply negb_true_iff in Hc.
    apply isName_cases in Hn. apply isQuote_cases in Hq.
    pose proof (quiet_cases name value Hname Hv) as Hm'.
    assert (Htail : forall k, (k < String.length (value +:+ String q EmptyString))%nat ->
              startsWith_ci name (drop k ((value +:+ String q EmptyString) +:+ b)) = false).
    { apply quiet_split.
      - apply quiet_text; [assumption .. |].
        destruct Hq as [-> | ->]; reflexivity.
      - intros k Hk. cbn in Hk. assert (k = 0%nat) as -> by lia.
        destruct Hname as [<- | [<- | [<- | [<- | []]]]], Hq as [-> | ->]; reflexivity. }
    destruct m as [|m]; [lia|].
    destruct Hn as [-> | ->].
    + do 5 (destruct m as [|m];
            [destruct Hname as [<- | [<- | [<- | [<- | []]]]], Hq as [-> | ->]; reflexivity|]).
      change (startsWith_ci name
                (drop m ((value +:+ String q EmptyString) +:+ b)) = false).
      apply Htail. unfold Spec.attribute in Hm. rewrite ?length_append, ?length_cons, ?length_append, ?length_cons in *.
      change (String.length EmptyString) with 0%nat in *. lia.
    + do 7 (destruct m as [|m];
            [destruct Hname as [<- | [<- | [<- | [<- | []]]]], Hq as [-> | ->]; reflexivity|]).
      change (startsWith_ci name
                (drop m ((value +:+ String q EmptyString) +:+ b)) = false).
      apply Htail. unfold Spec.attribute in Hm. rewrite ?length_append, ?length_cons, ?length_append, ?length_cons in *.
      change (String.length EmptyString) with 0%nat in *. lia.
  - destruct H0 as [H0 | [text H0]]; [|discriminate].
    cbn [wellFormedSegment fits renderSegment] in *.
    apply andb_true_iff in Hs as [Hs Hspan].
    apply andb_true_iff in Hs as [Hs Hlen].
    apply andb_true_iff in Hs as [Hs Hv].
    apply andb_true_iff in Hs as [Hn Hblank].
    apply isName_cases in Hn.
    pose proof (quiet_cases name value Hname Hv) as Hm'.
    assert (Htail : forall k, (k < String.length (blank +:+ value))%nat ->
              startsWith_ci name (drop k ((blank +:+ value) +:+ b)) = false).
    { apply quiet_split.
      - now apply quiet_blanks.
      - apply quiet_text; auto using delimited_boundary. }
    destruct m as [|m]; [lia|].
    destruct Hn as [-> | ->].
    + do 4 (destruct m as [|m]; [destruct Hname as [<- | [<- | [<- | [<- | []]]]]; reflexivity|]).
      change (startsWith_ci name (drop m ((blank +:+ value) +:+ b)) = false).
      apply Htail. unfold Spec.declaration in Hm. rewrite ?length_append, ?length_cons, ?length_append, ?length_cons in *.
      change (String.length EmptyString) with 0%nat in *. lia.
    + do 6 (destruct m as [|m]; [destruct Hname as [<- | [<- | [<- | [<- | []]]]]; reflexivity|]).
      change (startsWith_ci name (drop m ((blank +:+ value) +:+ b)) = false).
      apply Htail. unfold Spec.declaration in Hm. rewrite ?length_append, ?length_cons, ?length_append, ?length_cons in *.
      change (String.length EmptyString) with 0%nat in *. lia.
Qed.


Lemma append_nil_l (s : string) : EmptyString +:+ s = s.
Proof. reflexivity. Qed.

Ltac flatten :=
  repeat (progress rewrite ?append_assoc, ?append_cons, ?append_nil_l).

Ltac lengths :=
  repeat (progress rewrite ?length_append, ?length_cons);
  change (String.length EmptyString) with 0%nat.

Lemma excluded_stops (value : string) (d : ascii) (b : string) :
  avoids "none" d = true -> avoids "transparent" d = true ->
  excluded value = false -> excluded (value +:+ String d b) = false.
Proof.
  unfold excluded. intros Hn Ht H. apply orb_false_iff in H as [H1 H2].
  now rewrite !startsWith_ci_stops.
Qed.

Lemma excluded_delimited (value b : string) :
  delimited b = true -> excluded value = false -> excluded (value +:+ b) = false.
Proof.
  intros Hb H. destruct b as [|d b]; [now rewrite append_empty|].
  apply excluded_stops; [ | | assumption].
  - exact (delimited_avoids "none" (String d b) (or_introl eq_refl) Hb).
  - exact (delimited_avoids "transparent" (String d b) (or_intror eq_refl) Hb).
Qed.

(** The attribute expression matches a directive in front of any text,
    from its name to its closing quote. *)
Lemma attrDirective_at_attribute (name : string) (q : ascii) (value b : string) :
  q = dquote \/ q = squote ->
  excluded value = false -> contains q value = false ->
  attrDirective name q (Spec.attribute name q value +:+ b)
  = Some (String.length (Spec.attribute name q value)).
Proof.
  intros Hq Hex Hquote. unfold attrDirective, Spec.attribute.
  replace ((name +:+ "=" +:+ String q (value +:+ String q "")) +:+ b)
    with ((name +:+ "=" +:+ String q "") +:+ (value +:+ String q b))
    by (flatten; reflexivity).
  rewrite strip_ci_self.
  rewrite excluded_stops; [ | destruct Hq as [-> | ->]; reflexivity .. | exact Hex].
  rewrite span_until_quote by exact Hquote.
  rewrite drop_length_append. f_equal.
  lengths. lia.
Qed.

Lemma attrDirective_at_excluded (name : string) (q : ascii) (value b : string) :
  excluded value = true ->
  attrDirective name q (Spec.attribute name q value +:+ b) = None.
Proof.
  intros Hex. unfold attrDirective, Spec.attribute.
  replace ((name +:+ "=" +:+ String q (value +:+ String q "")) +:+ b)
    with ((name +:+ "=" +:+ String q "") +:+ (value +:+ String q b))
    by (flatten; reflexivity).
  rewrite strip_ci_self. now rewrite excluded_app.
Qed.

Lemma span_blanks (blank t : string) :
  Spec.blanks blank = true ->
  span isSpace (blank +:+ t) = (String.length blank + span isSpace t)%nat.
Proof.
  induction blank as [|c blank IH]; intros H; [reflexivity|].
  cbn [Spec.blanks] in H. apply andb_true_iff in H as [Hc H].
  rewrite append_cons. cbn [span]. rewrite Hc, IH by exact H. reflexivity.
Qed.

Lemma span_whole (p : ascii -> bool) (value b : string) :
  span p value = String.length value ->
  match b with String d _ => p d = false | EmptyString => True end ->
  span p (value +:+ b) = String.length value.
Proof.
  induction value as [|c value IH]; intros H Hb.
  - rewrite append_nil_l. destruct b as [|d b]; [reflexivity|].
    cbn [span]. now rewrite Hb.
  - rewrite append_cons. cbn [span] in *. destruct (p c); [|discriminate].
    cbn [String.length] in *. f_equal. apply IH; [lia | exact Hb].
Qed.

Lemma span_value_no_blank (value b : string) :
  (0 < String.length value)%nat ->
  span isValueChar value = String.length value ->
  span isSpace (value +:+ b) = 0%nat.
Proof.
  destruct value as [|c value]; cbn [String.length]; [lia|]. intros _ H.
  rewrite append_cons. cbn [span] in *.
  destruct (isValueChar c) eqn:E; [|discriminate].
  unfold isValueChar in E. apply negb_true_iff in E.
  apply orb_false_iff in E as [_ E]. now rewrite E.
Qed.

(** The declaration expression matches a directive in front of a text at
    which its value ends. *)
Lemma styleDirective_at_declaration (name blank value b : string) :
  Spec.blanks blank = true -> excluded value = false ->
  (0 < String.length value)%nat ->
  span isValueChar value = String.length value ->
  delimited b = true ->
  styleDirective name (Spec.declaration name blank value +:+ b)
  = Some (String.length (Spec.declaration name blank value)).
Proof.
  intros Hblank Hex Hlen Hspan Hb. unfold styleDirective, Spec.declaration.
  replace ((name +:+ String ":" (blank +:+ value)) +:+ b)
    with ((name +:+ ":") +:+ (blank +:+ (value +:+ b)))
    by (flatten; reflexivity).
  rewrite strip_ci_self. cbv zeta.
  rewrite span_blanks by exact Hblank.
  rewrite span_value_no_blank by assumption.
  rewrite Nat.add_0_r, drop_length_append.
  rewrite excluded_delimited by assumption.
  rewrite span_whole; [ | exact Hspan | ].
  2:{ destruct b as [|d b]; [trivial|]. cbn [delimited] in Hb.
      now apply negb_true_iff in Hb. }
  destruct (String.length value) as [|n] eqn:E; [lia|]. f_equal.
  lengths. lia.
Qed.

Lemma styleDirective_at_excluded (name blank value b : string) :
  Spec.blanks blank = true -> excluded value = true ->
  styleDirective name (Spec.declaration name blank value +:+ b) = None.
Proof.
  intros Hblank Hex. unfold styleDirective, Spec.declaration.
  replace ((name +:+ String ":" (blank +:+ value)) +:+ b)
    with ((name +:+ ":") +:+ (blank +:+ (value +:+ b)))
    by (flatten; reflexivity).
  rewrite strip_ci_self. cbv zeta.
  rewrite skip_blanks; [ | exact Hblank | now apply excluded_app].
  now rewrite excluded_app.
Qed.



(** An expression fails where its opening is not. *)
Lemma attrDirective_needs_opening (name : string) (q : ascii) (s : string) :
  startsWith_ci (name +:+ "=") s = false -> attrDirective name q s = None.
Proof.
  intros H. unfold attrDirective.
  destruct (strip_ci _ s) as [value|] eqn:E; [|reflexivity].
  rewrite <- append_assoc in E. apply strip_ci_prefix in E. congruence.
Qed.

Lemma styleDirective_needs_opening (name : string) (s : string) :
  startsWith_ci (name +:+ ":") s = false -> styleDirective name s = None.
Proof.
  intros H. unfold styleDirective, startsWith_ci in *.
  now destruct (strip_ci _ s).
Qed.

(** What the pass for the attribute [name] in the quote [q] finds at a
    piece: no match at any of its positions, or a match of the whole
    piece. *)
Lemma attribute_pass_piece (name : string) (q : ascii) (s : segment) (b : string) :
  name = "fill" \/ name = "stroke" -> q = dquote \/ q = squote ->
  wellFormedSegment s = true -> fits s b = true ->
  (rewrittenAttribute name q s = s /\
   forall n, (n < String.length (renderSegment s))%nat ->
     attrDirective name q (drop n (renderSegment s +:+ b)) = None) \/
  (renderSegment (rewrittenAttribute name q s) = attrCurrentColor name q /\
   attrDirective name q (renderSegment s +:+ b)
   = Some (String.length (renderSegment s)) /\
   renderSegment s <> EmptyString).
Proof.
  intros Hname Hq Hs Hb.
  assert (Hin : forall n, (n < String.length (renderSegment s))%nat ->
            (0 < n)%nat \/ (exists text, s = Other text) ->
            attrDirective name q (drop n (renderSegment s +:+ b)) = None).
  { intros n Hn H0. apply attrDirective_needs_opening.
    apply quiet_inside_piece; try assumption.
    destruct Hname as [-> | ->];
      [left; reflexivity | right; right; left; reflexivity]. }
  destruct s as [text | n' q' value | n' blank value].
  - left. split; [reflexivity|]. intros n Hn. apply Hin; eauto.
  - pose proof Hs as Hs'. cbn [wellFormedSegment] in Hs'.
    apply andb_true_iff in Hs' as [Hs' Hv].
    apply andb_true_iff in Hs' as [Hs' Hc].
    apply andb_true_iff in Hs' as [Hn' Hq'].
    apply negb_true_iff in Hc.
    apply isName_cases in Hn'. apply isQuote_cases in Hq'.
    cbn [rewrittenAttribute].
    destruct (String.eqb n' name) eqn:En; cbn [andb].
    + apply String.eqb_eq in En. subst n'.
      destruct (Ascii.eqb q' q) eqn:Eq; cbn [andb].
      * apply Ascii.eqb_eq in Eq. subst q'.
        destruct (excluded value) eqn:Ex; cbn [negb].
        -- left. split; [reflexivity|]. intros [|n] Hn; [|apply Hin; [exact Hn | left; lia]].
           cbn [drop renderSegment]. now apply attrDirective_at_excluded.
        -- right. split; [reflexivity|]. split.
           ++ cbn [renderSegment]. now apply attrDirective_at_attribute.
           ++ cbn [renderSegment]. destruct Hname as [-> | ->]; discriminate.
      * left. split; [reflexivity|]. intros [|n] Hn; [|apply Hin; [exact Hn | left; lia]].
        cbn [drop renderSegment].
        destruct Hname as [-> | ->], Hq as [-> | ->], Hq' as [-> | ->];
          try discriminate; reflexivity.
    + left. split; [reflexivity|]. intros [|n] Hn; [|apply Hin; [exact Hn | left; lia]].
      cbn [drop renderSegment]. apply attrDirective_needs_name.
      destruct Hname as [-> | ->], Hn' as [-> | ->]; try discriminate; reflexivity.
  - pose proof Hs as Hs'. cbn [wellFormedSegment] in Hs'.
    apply andb_true_iff in Hs' as [Hs' _].
    apply andb_true_iff in Hs' as [Hs' _].
    apply andb_true_iff in Hs' as [Hs' _].
    apply andb_true_iff in Hs' as [Hn' _].
    apply isName_cases in Hn'.
    left. split; [reflexivity|]. intros [|n] Hn; [|apply Hin; [exact Hn | left; lia]].
    cbn [drop renderSegment].
    destruct Hname as [-> | ->], Hn' as [-> | ->]; reflexivity.
Qed.

(** The same for the pass for the declaration [name]. *)
Lemma declaration_pass_piece (name : string) (s : segment) (b : string) :
  name = "fill" \/ name = "stroke" ->
  wellFormedSegment s = true -> fits s b = true ->
  (rewrittenDeclaration name s = s /\
   forall n, (n < String.length (renderSegment s))%nat ->
     styleDirective name (drop n (renderSegment s +:+ b)) = None) \/
  (renderSegment (rewrittenDeclaration name s) = name +:+ ": currentColor" /\
   styleDirective name (renderSegment s +:+ b)
   = Some (String.length (renderSegment s)) /\
   renderSegment s <> EmptyString).
Proof.
  intros Hname Hs Hb.
  assert (Hin : forall n, (n < String.length (renderSegment s))%nat ->
            (0 < n)%nat \/ (exists text, s = Other text) ->
            styleDirective name (drop n (renderSegment s +:+ b)) = None).
  { intros n Hn H0. apply styleDirective_needs_opening.
    apply quiet_inside_piece; try assumption.
    destruct Hname as [-> | ->];
      [right; left; reflexivity | right; right; right; left; reflexivity]. }
  destruct s as [text | n' q' value | n' blank value].
  - left. split; [reflexivity|]. intros n Hn. apply Hin; eauto.
  - pose proof Hs as Hs'. cbn [wellFormedSegment] in Hs'.
    apply andb_true_iff in Hs' as [Hs' _].
    apply andb_true_iff in Hs' as [Hs' _].
    apply andb_true_iff in Hs' as [Hn' _].
    apply isName_cases in Hn'.
    left. split; [reflexivity|]. intros [|n] Hn; [|apply Hin; [exact Hn | left; lia]].
    cbn [drop renderSegment].
    destruct Hname as [-> | ->], Hn' as [-> | ->]; reflexivity.
  - pose proof Hs as Hs'. cbn [wellFormedSegment] in Hs'.
    apply andb_true_iff in Hs' as [Hs' Hspan].
    apply andb_true_iff in Hs' as [Hs' Hlen].
    apply andb_true_iff in Hs' as [Hs' Hv].
    apply andb_true_iff in Hs' as [Hn' Hblank].
    apply isName_cases in Hn'.
    apply Nat.ltb_lt in Hlen. apply Nat.eqb_eq in Hspan.
    cbn [fits] in Hb. cbn [rewrittenDeclaration].
    destruct (String.eqb n' name) eqn:En; cbn [andb].
    + apply String.eqb_eq in En. subst n'.
      destruct (excluded value) eqn:Ex; cbn [negb].
      * left. split; [reflexivity|]. intros [|n] Hn; [|apply Hin; [exact Hn | left; lia]].
        cbn [drop renderSegment]. now apply styleDirective_at_excluded.
      * right. split; [reflexivity|]. split.
        -- cbn [renderSegment]. now apply styleDirective_at_declaration.
        -- cbn [renderSegment]. destruct Hname as [-> | ->]; discriminate.
    + left. split; [reflexivity|]. intros [|n] Hn; [|apply Hin; [exact Hn | left; lia]].
      cbn [drop renderSegment]. apply styleDirective_needs_name.
      destruct Hname as [-> | ->], Hn' as [-> | ->]; try discriminate; reflexivity.
Qed.

(** A pass that at every piece finds no match or the whole piece rewrites
    the markup piece by piece. *)
Lemma pass_over_pieces (re : string -> option nat) (repl : string)
    (rew : segment -> segment) :
  (forall s b, wellFormedSegment s = true -> fits s b = true ->
     (rew s = s /\
      forall n, (n < String.length (renderSegment s))%nat ->
        re (drop n (renderSegment s +:+ b)) = None) \/
     (renderSegment (rew s) = repl /\
      re (renderSegment s +:+ b) = Some (String.length (renderSegment s)) /\
      renderSegment s <> EmptyString)) ->
  forall l, wellFormed l = true ->
    replaceAll re repl (render l) = render (map rew l).
Proof.
  intros H l. unfold replaceAll.
  induction l as [|s rest IH]; intros Hl; [reflexivity|].
  cbn [wellFormed] in Hl. apply andb_true_iff in Hl as [Hl Hrest].
  apply andb_true_iff in Hl as [Hs Hb].
  cbn [render map].
  destruct (H s (render rest) Hs Hb) as [[Hsame Hnone] | (Hrepl & Hmatch & Hne)].
  - rewrite replaceFrom_quiet_prefix by exact Hnone.
    now rewrite Hsame, IH.
  - rewrite replaceFrom_match_prefix by assumption.
    now rewrite Hrepl, IH.
Qed.

Lemma get_append (x a b : string) :
  String.get 0 a = String.get 0 b -> String.get 0 (x +:+ a) = String.get 0 (x +:+ b).
Proof. destruct x as [|c x]; [trivial | reflexivity]. Qed.

Lemma fits_get (s : segment) (a b : string) :
  String.get 0 a = String.get 0 b -> fits s a = fits s b.
Proof.
  destruct a as [|c a], b as [|d b]; try discriminate; [reflexivity|].
  intros [= ->]. now destruct s.
Qed.

(** Rewriting that keeps the kind, the order and the first character of
    the pieces keeps the markup in order. *)
Lemma wellFormed_map (rew : segment -> segment) :
  (forall s, wellFormedSegment s = true -> wellFormedSegment (rew s) = true) ->
  (forall s b, fits (rew s) b = fits s b) ->
  (forall s b, wellFormedSegment s = true ->
     String.get 0 (renderSegment (rew s) +:+ b) = String.get 0 (renderSegment s +:+ b)) ->
  forall l, wellFormed l = true ->
    wellFormed (map rew l) = true /\
    String.get 0 (render (map rew l)) = String.get 0 (render l).
Proof.
  intros Hok Hfits Hget l.
  induction l as [|s rest IH]; intros Hl; [split; reflexivity|].
  cbn [wellFormed] in Hl. apply andb_true_iff in Hl as [Hl Hrest].
  apply andb_true_iff in Hl as [Hs Hb].
  destruct (IH Hrest) as [IH1 IH2].
  cbn [map wellFormed render]. split.
  - rewrite Hok, IH1 by exact Hs. rewrite Hfits.
    rewrite (fits_get s _ _ IH2), Hb. reflexivity.
  - rewrite Hget by exact Hs. now apply get_append.
Qed.

Lemma rewrittenAttribute_wellFormed (name : string) (q : ascii) (l : list segment) :
  wellFormed l = true ->
  wellFormed (map (rewrittenAttribute name q) l) = true.
Proof.
  intros Hl. apply wellFormed_map; [ | | | exact Hl].
  - intros [text | n q' value | n blank value] Hs; cbn [rewrittenAttribute]; try exact Hs.
    destruct (_ && _); [|exact Hs]. cbn [wellFormedSegment] in *.
    apply andb_true_iff in Hs as [Hs Hv].
    apply andb_true_iff in Hs as [Hs Hc].
    rewrite Hs. apply andb_true_iff in Hs as [_ Hq].
    apply isQuote_cases in Hq. destruct Hq as [-> | ->]; reflexivity.
  - intros [text | n q' value | n blank value] b; cbn [rewrittenAttribute]; try reflexivity.
    now destruct (_ && _).
  - intros [text | n q' value | n blank value] b Hs; cbn [rewrittenAttribute]; try reflexivity.
    destruct (_ && _); [|reflexivity]. cbn [wellFormedSegment] in Hs.
    apply andb_true_iff in Hs as [Hs _].
    apply andb_true_iff in Hs as [Hs _].
    apply andb_true_iff in Hs as [Hn _].
    apply isName_cases in Hn. destruct Hn as [-> | ->]; reflexivity.
Qed.

Lemma rewrittenDeclaration_wellFormed (name : string) (l : list segment) :
  wellFormed l = true ->
  wellFormed (map (rewrittenDeclaration name) l) = true.
Proof.
  intros Hl. apply wellFormed_map; [ | | | exact Hl].
  - intros [text | n q' value | n blank value] Hs; cbn [rewrittenDeclaration]; try exact Hs.
    destruct (_ && _); [|exact Hs]. cbn [wellFormedSegment] in *.
    apply andb_true_iff in Hs as [Hs _].
    apply andb_true_iff in Hs as [Hs _].
    apply andb_true_iff in Hs as [Hs _].
    apply andb_true_iff in Hs as [Hn _].
    rewrite Hn. reflexivity.
  - intros [text | n q' value | n blank value] b; cbn [rewrittenDeclaration]; try reflexivity.
    now destruct (_ && _).
  - intros [text | n q' value | n blank value] b Hs; cbn [rewrittenDeclaration]; try reflexivity.
    destruct (_ && _); [|reflexivity]. cbn [wellFormedSegment] in Hs.
    apply andb_true_iff in Hs as [Hs _].
    apply andb_true_iff in Hs as [Hs _].
    apply andb_true_iff in Hs as [Hs _].
    apply andb_true_iff in Hs as [Hn _].
    apply isName_cases in Hn. destruct Hn as [-> | ->]; reflexivity.
Qed.

Ltac passes Ex :=
  repeat (cbn [rewrittenAttribute rewrittenDeclaration];
          rewrite ?Ex, ?String.eqb_refl, ?Ascii.eqb_refl;
          change (Ascii.eqb squote dquote) with false;
          change (Ascii.eqb dquote squote) with false;
          change (String.eqb "fill" "stroke") with false;
          change (String.eqb "stroke" "fill") with false;
          cbn [negb andb]).

(** The six passes together do to a piece what the specification asks. *)
Lemma passes_rewritten (s : segment) :
  wellFormedSegment s = true ->
  rewrittenDeclaration "stroke"
    (rewrittenDeclaration "fill"
       (rewrittenAttribute "stroke" squote
          (rewrittenAttribute "fill" squote
             (rewrittenAttribute "stroke" dquote
                (rewrittenAttribute "fill" dquote s)))))
  = rewritten s.
Proof.
  intros Hs. destruct s as [text | n q value | n blank value]; [reflexivity | | ].
  - cbn [wellFormedSegment] in Hs.
    apply andb_true_iff in Hs as [Hs _].
    apply andb_true_iff in Hs as [Hs _].
    apply andb_true_iff in Hs as [Hn Hq].
    apply isName_cases in Hn. apply isQuote_cases in Hq.
    cbn [rewritten].
    destruct Hn as [-> | ->], Hq as [-> | ->]; destruct (excluded value) eqn:Ex;
      passes Ex; reflexivity.
  - cbn [wellFormedSegment] in Hs.
    apply andb_true_iff in Hs as [Hs _].
    apply andb_true_iff in Hs as [Hs _].
    apply andb_true_iff in Hs as [Hs _].
    apply andb_true_iff in Hs as [Hn _].
    apply isName_cases in Hn.
    cbn [rewritten].
    destruct Hn as [-> | ->]; destruct (excluded value) eqn:Ex;
      passes Ex; reflexivity.
Qed.

Lemma wellFormed_Forall (l : list segment) :
  wellFormed l = true -> Forall (fun s => wellFormedSegment s = true) l.
Proof.
  induction l as [|s rest IH]; intros Hl; constructor;
    cbn [wellFormed] in Hl; apply andb_true_iff in Hl as [Hl Hrest];
    apply andb_true_iff in Hl as [Hs Hb]; auto.
Qed.

(** On markup that is in order [convertToCurrentColor] does to every piece
    what the specification asks and leaves the order of the pieces. *)
Lemma convertToCurrentColor_pieces (l : list segment) :
  wellFormed l = true ->
  convertToCurrentColor (render l) = render (map rewritten l).
Proof.
  intros Hl. unfold convertToCurrentColor. cbv zeta.
  pose proof (rewrittenAttribute_wellFormed "fill" dquote _ Hl) as H1.
  pose proof (rewrittenAttribute_wellFormed "stroke" dquote _ H1) as H2.
  pose proof (rewrittenAttribute_wellFormed "fill" squote _ H2) as H3.
  pose proof (rewrittenAttribute_wellFormed "stroke" squote _ H3) as H4.
  pose proof (rewrittenDeclaration_wellFormed "fill" _ H4) as H5.
  rewrite (pass_over_pieces _ _ (rewrittenAttribute "fill" dquote)
             (fun s b => attribute_pass_piece "fill" dquote s b
                           (or_introl eq_refl) (or_introl eq_refl)) _ Hl).
  rewrite (pass_over_pieces _ _ (rewrittenAttribute "stroke" dquote)
             (fun s b => attribute_pass_piece "stroke" dquote s b
                           (or_intror eq_refl) (or_introl eq_refl)) _ H1).
  rewrite (pass_over_pieces _ _ (rewrittenAttribute "fill" squote)
             (fun s b => attribute_pass_piece "fill" squote s b
                           (or_introl eq_refl) (or_intror eq_refl)) _ H2).
  rewrite (pass_over_pieces _ _ (rewrittenAttribute "stroke" squote)
             (fun s b => attribute_pass_piece "stroke" squote s b
                           (or_intror eq_refl) (or_intror eq_refl)) _ H3).
  change "fill: currentColor" with ("fill" +:+ ": currentColor").
  change "stroke: currentColor" with ("stroke" +:+ ": currentColor").
  rewrite (pass_over_pieces _ _ (rewrittenDeclaration "fill")
             (fun s b => declaration_pass_piece "fill" s b (or_introl eq_refl)) _ H4).
  rewrite (pass_over_pieces _ _ (rewrittenDeclaration "stroke")
             (fun s b => declaration_pass_piece "stroke" s b (or_intror eq_refl)) _ H5).
  rewrite !map_map. f_equal.
  clear H1 H2 H3 H4 H5. apply wellFormed_Forall in Hl.
  induction Hl as [|s rest Hs _ IH]; [reflexivity|].
  cbn [map]. rewrite passes_rewritten by exact Hs. now rewrite IH.
Qed.


Lemma render_app (before after : list segment) :
  render (before ++ after) = render before +:+ render after.
Proof.
  induction before as [|s before IH]; [reflexivity|].
  cbn [List.app render]. now rewrite IH, append_assoc.
Qed.

Lemma convertToCurrentColor_around (before after : list segment) (s : segment) :
  wellFormed (before ++ s :: after) = true ->
  convertToCurrentColor (render before +:+ renderSegment s +:+ render after)
  = render (map rewritten before) +:+ renderSegment (rewritten s)
    +:+ render (map rewritten after).
Proof.
  intros Hl.
  change (renderSegment s +:+ render after) with (render (s :: after)).
  rewrite <- render_app, (convertToCurrentColor_pieces _ Hl).
  now rewrite map_app, render_app.
Qed.

(** C10: a [fill] or [stroke] directive whose value begins with [none] or
    [transparent], in any case of the letters, is left as it is, whatever
    follows the word in the value ([fill="nonecolor"] stays
    [fill="nonecolor"]): in attribute form with either quote and in
    inline-style form, at any place of a markup whose other directives may
    be rewritten.  The markup is given as a sequence of directives and other
    text ([wellFormed]): the other text may hold what it likes, attributes
    such as [stroke-width] and [fill-rule] too, but no further [fill=],
    [fill:], [stroke=] or [stroke:]; the names of the directives are in
    small letters, the value of an attribute does not hold its quote, and
    the value of a declaration runs to the next [;], [}] or white space.
    What stands in front of the directive and behind it is rewritten as the
    specification says, piece by piece. *)
Theorem convertToCurrentColor_keeps_prefixed_value
    (before after : list segment) (directive : segment)
    (name : string) (q : ascii) (blank value : string) :
  directive = Attribute name q value \/ directive = Declaration name blank value ->
  excluded value = true ->
  wellFormed (before ++ directive :: after) = true ->
  convertToCurrentColor (render before +:+ renderSegment directive +:+ render after)
  = render (map rewritten before) +:+ renderSegment directive
    +:+ render (map rewritten after).
Proof.
  intros Hd Hex Hl. rewrite (convertToCurrentColor_around _ _ _ Hl).
  destruct Hd as [-> | ->]; cbn [rewritten]; now rewrite Hex.
Qed.

(** X20: a [fill] or [stroke] attribute, with either quote, whose value
    does not begin with [none] or [transparent] becomes the [currentColor]
    attribute, at any place of a markup given as a sequence of directives
    and other text in which no further directive begins ([wellFormed]); what
    stands in front of it and behind it is rewritten piece by piece. *)
Theorem convertToCurrentColor_rewrites_attribute
    (before after : list segment) (name : string) (q : ascii) (value : string) :
  excluded value = false ->
  wellFormed (before ++ Attribute name q value :: after) = true ->
  convertToCurrentColor
    (render before +:+ Spec.attribute name q value +:+ render after)
  = render (map rewritten before) +:+ Spec.attribute name q "currentColor"
    +:+ render (map rewritten after).
Proof.
  intros Hex Hl.
  change (Spec.attribute name q value)
    with (renderSegment (Attribute name q value)).
  rewrite (convertToCurrentColor_around _ _ (Attribute name q value) Hl).
  cbn [rewritten]. now rewrite Hex.
Qed.

End ConvertPieces.

Section ConvertWitness.

Import Str SVGLoader Markup Samples.

Lemma convertToCurrentColor_keeps_prefixed_value_witness :
  convertToCurrentColor
    (render iconHead +:+ Spec.attribute "fill" dquote "nonecolor" +:+ render iconTail)
  = render iconHead +:+ Spec.attribute "fill" dquote "nonecolor"
    +:+ " stroke-width=" +:+ quoted "2" +:+ " "
    +:+ Spec.attribute "stroke" dquote "currentColor"
    +:+ " style=" +:+ quoted "fill:none;stroke: currentColor;" +:+ "/></svg>" /\
  convertToCurrentColor
    (render ruleHead +:+ Spec.declaration "fill" " " "Transparent-ish" +:+ render ruleTail)
  = render ruleHead +:+ Spec.declaration "fill" " " "Transparent-ish"
    +:+ ";opacity:0.5}</style><path class=" +:+ quoted "a" +:+ " "
    +:+ Spec.attribute "fill" squote "currentColor" +:+ "/></svg>".
Proof.
  split.
  - apply (convertToCurrentColor_keeps_prefixed_value iconHead iconTail
             (Attribute "fill" dquote "nonecolor") "fill" dquote EmptyString "nonecolor").
    + left. reflexivity.
    + reflexivity.
    + vm_compute. reflexivity.
  - apply (convertToCurrentColor_keeps_prefixed_value ruleHead ruleTail
             (Declaration "fill" " " "Transparent-ish") "fill" dquote " "
             "Transparent-ish").
    + right. reflexivity.
    + reflexivity.
    + vm_compute. reflexivity.
Defined.

Lemma convertToCurrentColor_rewrites_attribute_witness :
  convertToCurrentColor
    (render iconHead +:+ Spec.attribute "fill" squote "#1a2b3c" +:+ render iconTail)
  = render iconHead +:+ Spec.attribute "fill" squote "currentColor"
    +:+ " stroke-width=" +:+ quoted "2" +:+ " "
    +:+ Spec.attribute "stroke" dquote "currentColor"
    +:+ " style=" +:+ quoted "fill:none;stroke: currentColor;" +:+ "/></svg>".
Proof.
  apply (convertToCurrentColor_rewrites_attribute iconHead iconTail
           "fill" squote "#1a2b3c").
  - reflexivity.
  - vm_compute. reflexivity.
Defined.

End ConvertWitness.

(** ** Contrast against black and white *)

Section ReadableLabels.

Import StyleManager.
Local Open Scope R_scope.

Lemma channel_0 : channel 0 = 0.
Proof. rewrite channel_linear; lra. Qed.

Lemma channel_255 : channel 255 = 1.
Proof.
  rewrite channel_gamma by lra.
  replace ((255 / 255 + 0.055) / 1.055) with 1 by lra.
  unfold Rpower. now rewrite ln_1, Rmult_0_r, exp_0.
Qed.

(** X28: for every colour with channels between 0 and 255 the contrast
    ratio against black or the one against white is at least 4.58, above
    the 4.5 asked of a readable label.  (In exact arithmetic the two ratios
    multiply to 21, so the larger one is at least the root of 21; the bound
    stated keeps a distance from it and from 4.5.) *)
Theorem black_or_white_label_is_readable (r g b : R) :
  0 <= r <= 255 -> 0 <= g <= 255 -> 0 <= b <= 255 ->
  4.58 <= Rmax (calculateContrastRGBA 0 0 0 r g b)
               (calculateContrastRGBA 255 255 255 r g b).
Proof.
  intros Hr Hg Hb.
  pose proof (getLuminance_range r g b Hr Hg Hb) as HL.
  assert (Hblack : calculateContrastRGBA 0 0 0 r g b
                   = (getLuminance r g b + 0.05) / 0.05).
  { unfold calculateContrastRGBA. cbv zeta.
    replace (getLuminance 0 0 0) with 0
      by (unfold getLuminance; cbv zeta; rewrite channel_0; lra).
    rewrite Rmax_right, Rmin_left by lra. f_equal. lra. }
  assert (Hwhite : calculateContrastRGBA 255 255 255 r g b
                   = 1.05 / (getLuminance r g b + 0.05)).
  { unfold calculateContrastRGBA. cbv zeta.
    replace (getLuminance 255 255 255) with 1
      by (unfold getLuminance; cbv zeta; rewrite channel_255; lra).
    rewrite Rmax_left, Rmin_right by lra. f_equal. lra. }
  rewrite Hblack, Hwhite. set (L := getLuminance r g b) in *. clearbody L.
  assert (Hprod : (L + 0.05) / 0.05 * (1.05 / (L + 0.05)) = 21).
  { replace ((L + 0.05) / 0.05) with (20 * (L + 0.05)) by lra.
    replace 1.05 with (21 / 20) by lra.
    set (d := L + 0.05). assert (Hd : d <> 0) by (subst d; lra). clearbody d.
    field. exact Hd. }
  assert (H1 : 1 <= (L + 0.05) / 0.05).
  { apply Rmult_le_reg_r with 0.05; [lra|].
    replace ((L + 0.05) / 0.05 * 0.05) with (L + 0.05) by (field; lra). lra. }
  assert (H2 : 0 < 1.05 / (L + 0.05)).
  { apply Rdiv_lt_0_compat; lra. }
  destruct (Rle_lt_dec 4.58 (Rmax ((L + 0.05) / 0.05) (1.05 / (L + 0.05))))
    as [|Hlt]; [assumption|].
  exfalso.
  assert (Ha : (L + 0.05) / 0.05 < 4.58).
  { eapply Rle_lt_trans; [apply Rmax_l | exact Hlt]. }
  assert (Hb' : 1.05 / (L + 0.05) < 4.58).
  { eapply Rle_lt_trans; [apply Rmax_r | exact Hlt]. }
  assert (Hlt' : (L + 0.05) / 0.05 * (1.05 / (L + 0.05)) < 4.58 * 4.58).
  { apply Rmult_le_0_lt_compat; lra. }
  lra.
Qed.

End ReadableLabels.

(** ** The catalog and its generator *)

Section Catalog.

Import Icons.

Lemma lookupPath_own_file (paths : list (string * string)) (iconKey : string) :
  Forall (fun entry => snd entry = fst entry +:+ ".svg") paths ->
  lookupPath paths iconKey
  = if bool_decide (iconKey ∈ map fst paths) then Some (iconKey +:+ ".svg") else None.
Proof.
  induction 1 as [|[k f] rest Hk _ IH]; [reflexivity|].
  cbn [lookupPath map fst snd] in *.
  rewrite (bool_decide_ext _ _ (elem_of_cons (map fst rest) iconKey k)), bool_decide_or.
  destruct (String.eqb_spec k iconKey) as [->|Hne].
  - rewrite bool_decide_true by reflexivity. now rewrite Hk.
  - rewrite (bool_decide_false (iconKey = k)) by congruence. exact IH.
Qed.

Lemma iconPaths_own_files :
  Forall (fun entry => snd entry = fst entry +:+ ".svg") iconPaths.
Proof. repeat constructor. Qed.

(** X29: [getIconPath] gives every identifier of the catalog the path of
    the file named after it, and every other key the path of the fallback
    icon (for a key that names no property of [Object.prototype]). *)
Theorem getIconPath_own_file_or_fallback (iconKey : string) :
  ~ In iconKey Words.inheritedKeys ->
  getIconPath iconKey
  = if bool_decide (iconKey ∈ map fst iconPaths)
    then "./assets/icons/" +:+ iconKey +:+ ".svg"
    else getIconPath fallbackIcon.
Proof.
  intros _. unfold getIconPath at 1. unfold getIconPathIn.
  rewrite (lookupPath_own_file iconPaths iconKey iconPaths_own_files).
  destruct (bool_decide (iconKey ∈ map fst iconPaths)); [|reflexivity].
  now destruct iconKey.
Qed.

End Catalog.

Section Generator.

Import Str UpdateIcons.

(** A literal without a point does not begin a text that ends in front of
    a point. *)
Lemma strip_before_point (lit t u : string) :
  contains "." lit = false ->
  strip lit t = None -> strip lit (t +:+ String "." u) = None.
Proof.
  revert t. induction lit as [|a lit IH]; intros t Hlit Ht; [discriminate|].
  cbn [contains] in Hlit. apply orb_false_iff in Hlit as [Ha Hlit].
  destruct t as [|c t].
  - change (EmptyString +:+ String "." u) with (String "." u).
    cbn [strip]. rewrite Ascii.eqb_sym in Ha. now rewrite Ha.
  - rewrite append_cons. cbn [strip] in *.
    destruct (Ascii.eqb a c); [now apply IH | reflexivity].
Qed.

Lemma strip_svg_before_suffix (c : ascii) (t : string) :
  strip ".svg" (String c t) = None ->
  strip ".svg" (String c t +:+ ".svg") = None.
Proof.
  rewrite append_cons. cbn [strip]. destruct (Ascii.eqb "." c); [|reflexivity].
  now apply (strip_before_point "svg" t "svg").
Qed.

Lemma includes_head (pat s : string) :
  includes pat s = false -> strip pat s = None.
Proof.
  destruct s; cbn [includes]; destruct (strip pat _); congruence.
Qed.

Lemma endsWith_append (stem suffix : string) : endsWith suffix (stem +:+ suffix) = true.
Proof.
  unfold endsWith. rewrite length_append.
  replace (String.length stem + String.length suffix - String.length suffix)%nat
    with (String.length stem) by lia.
  rewrite drop_length_append. apply String.eqb_refl.
Qed.

(** A file [stem.svg] whose stem holds no [.svg] passes the filter and is
    entered under its stem. *)
Lemma iconKey_of_file (stem : string) :
  includes ".svg" stem = false ->
  endsWith ".svg" (stem +:+ ".svg") = true /\
  iconKey (stem +:+ ".svg") = stem.
Proof.
  intros H. split; [apply endsWith_append|].
  unfold iconKey. induction stem as [|c t IH]; [reflexivity|].
  pose proof (includes_head _ _ H) as Hhead.
  pose proof (strip_svg_before_suffix c t Hhead) as Hnone.
  rewrite append_cons in *. cbn [replaceFirst]. rewrite Hnone. f_equal.
  apply IH. cbn [includes] in H. now rewrite Hhead in H.
Qed.

Lemma take_drop (n : nat) (s : string) : take n s +:+ drop n s = s.
Proof.
  revert s. induction n as [|n IH]; intros [|c s]; try reflexivity.
  cbn [take drop]. rewrite append_cons. now rewrite IH.
Qed.

Lemma endsWith_split (suffix s : string) :
  endsWith suffix s = true -> exists stem, s = stem +:+ suffix.
Proof.
  unfold endsWith. intros H. apply String.eqb_eq in H.
  exists (take (String.length s - String.length suffix) s).
  rewrite <- H at 2. symmetry. apply take_drop.
Qed.

Lemma strip_app (pat s rest t : string) :
  strip pat s = Some rest -> strip pat (s +:+ t) = Some (rest +:+ t).
Proof.
  revert s. induction pat as [|a pat IH]; intros s; [now intros [= ->]|].
  destruct s as [|c s]; [discriminate|]. rewrite append_cons. cbn [strip].
  destruct (Ascii.eqb a c); [apply IH | discriminate].
Qed.

Lemma strip_length (pat s rest : string) :
  strip pat s = Some rest -> (String.length pat <= String.length s)%nat.
Proof.
  intros H. apply length_strip in H. lia.
Qed.

Lemma includes_length (pat s : string) :
  includes pat s = true -> (String.length pat <= String.length s)%nat.
Proof.
  induction s as [|c s IH]; cbn [includes].
  - destruct (strip pat EmptyString) eqn:E; [|discriminate].
    intros _. now apply strip_length in E.
  - destruct (strip pat (String c s)) eqn:E.
    + intros _. now apply strip_length in E.
    + intros H. specialize (IH H). cbn [String.length]. lia.
Qed.

(** A literal that does not match at the head of [s] matches at the head
    of [s +:+ t] only when [s] is shorter than the literal. *)
Lemma strip_app_None (pat s t : string) :
  strip pat s = None -> (String.length pat <= String.length s)%nat ->
  strip pat (s +:+ t) = None.
Proof.
  revert s. induction pat as [|a pat IH]; intros s; [discriminate|].
  destruct s as [|c s]; [cbn [String.length]; lia|].
  rewrite append_cons. cbn [strip String.length].
  destruct (Ascii.eqb a c); [|reflexivity].
  intros H Hlen. apply IH; [exact H | lia].
Qed.

Lemma replaceFirst_app (pat repl s t : string) :
  includes pat s = true ->
  replaceFirst pat repl (s +:+ t) = replaceFirst pat repl s +:+ t.
Proof.
  induction s as [|c s IH]; cbn [includes].
  - destruct (strip pat EmptyString) as [rest|] eqn:E; [|discriminate].
    intros _. destruct pat; [|discriminate]. injection E as <-.
    change (EmptyString +:+ t) with t.
    destruct t; cbn [replaceFirst strip]; now rewrite append_assoc.
  - destruct (strip pat (String c s)) as [rest|] eqn:E.
    + intros _. pose proof (strip_app _ _ _ t E) as E'.
      rewrite append_cons in *. cbn [replaceFirst]. rewrite E, E'.
      now rewrite append_assoc.
    + intros H. pose proof (includes_length _ _ H) as Hlen.
      assert (E' : strip pat (String c s +:+ t) = None).
      { apply strip_app_None; [exact E | cbn [String.length]; lia]. }
      rewrite append_cons in *. cbn [replaceFirst]. rewrite E, E'.
      rewrite append_cons. now rewrite IH.
Qed.

Lemma includes_suffix (pat s : string) : includes pat (s +:+ pat) = true.
Proof.
  assert (Hself : forall u, strip pat (pat +:+ u) = Some u).
  { induction pat as [|a pat IH]; intros u; [reflexivity|].
    rewrite append_cons. cbn [strip]. now rewrite Ascii.eqb_refl. }
  induction s as [|c s IH].
  - change (EmptyString +:+ pat) with pat.
    destruct pat as [|a pat]; [reflexivity|].
    cbn [includes]. specialize (Hself EmptyString).
    replace (String a pat +:+ EmptyString) with (String a pat) in Hself.
    + now rewrite Hself.
    + clear. induction (String a pat) as [|x l IHl]; [reflexivity|].
      rewrite append_cons. now rewrite <- IHl.
  - rewrite append_cons. cbn [includes]. rewrite IH.
    now destruct (strip pat _).
Qed.

(** Only the file [stem.svg] is entered under a key [stem] that holds no
    [.svg]. *)
Lemma iconKey_clean (file stem : string) :
  endsWith ".svg" file = true ->
  includes ".svg" stem = false ->
  iconKey file = stem -> file = stem +:+ ".svg".
Proof.
  intros Hends Hclean Hkey.
  apply endsWith_split in Hends as [stem' ->].
  destruct (includes ".svg" stem') eqn:E.
  - unfold iconKey in Hkey. rewrite (replaceFirst_app _ _ _ _ E) in Hkey.
    rewrite <- Hkey, includes_suffix in Hclean. discriminate.
  - destruct (iconKey_of_file stem' E) as [_ H]. congruence.
Qed.

Lemma fold_enter_lookup (files : list string) (paths : gmap string string)
    (key file : string) :
  key <> "__proto__" ->
  (forall f, In f files -> iconKey f = key -> f = file) ->
  In file files \/ paths !! key = Some file ->
  (In file files -> iconKey file = key) ->
  fold_left enter files paths !! key = Some file.
Proof.
  intros Hproto. revert paths.
  induction files as [|f files IH]; intros paths Honly Hin Hkey.
  - destruct Hin as [[]|H]. exact H.
  - cbn [fold_left]. apply IH.
    + intros f' Hf'. apply Honly. now right.
    + unfold enter. cbv zeta.
      destruct (decide (iconKey f = key)) as [Ef|Ef].
      * right. pose proof (Honly f (or_introl eq_refl) Ef) as Hf. subst f.
        rewrite Ef. apply String.eqb_neq in Hproto. rewrite Hproto.
        apply lookup_insert_eq.
      * destruct Hin as [[->|H]|H].
        -- destruct Ef. apply Hkey. now left.
        -- now left.
        -- right. destruct (String.eqb (iconKey f) "__proto__"); [exact H|].
           now rewrite lookup_insert_ne.
    + intros H. apply Hkey. now right.
Qed.

Lemma In_insertSorted (x y : string) (l : list string) :
  In y (insertSorted x l) <-> y = x \/ In y l.
Proof.
  induction l as [|z l IH]; cbn [insertSorted].
  - cbn. intuition congruence.
  - destruct (String.leb x z); cbn [In]; [intuition congruence|].
    rewrite IH. intuition congruence.
Qed.

Lemma In_sort (y : string) (l : list string) : In y (sort l) <-> In y l.
Proof.
  unfold sort. induction l as [|x l IH]; cbn [fold_right In]; [tauto|].
  rewrite In_insertSorted, IH. intuition congruence.
Qed.

(** X30: a file [stem.svg] of the directory whose stem holds no [.svg] and
    is not [__proto__] is entered in the generated [iconPaths] under its
    stem, with its own name as the value, whatever else the directory
    holds. *)
Theorem iconPaths_indexes_file (listing : list string) (stem : string) :
  In (stem +:+ ".svg") listing ->
  includes ".svg" stem = false ->
  stem <> "__proto__" ->
  iconPaths listing !! stem = Some (stem +:+ ".svg").
Proof.
  intros Hin Hclean Hproto. unfold iconPaths.
  destruct (iconKey_of_file stem Hclean) as [Hends Hkey].
  apply fold_enter_lookup; [exact Hproto| | |].
  - intros f Hf Hk. apply In_sort, filter_In in Hf as [_ Hf].
    now apply iconKey_clean.
  - left. apply In_sort, filter_In. now split.
  - intros _. exact Hkey.
Qed.

End Generator.

(** ** Examples *)

Section StartupExamples.

Import SVGLoader StyleManager Interaction Handlers Startup Samples.

Lemma setupIconInjection_prepares_toggles_witness :
  exists prepared,
    setupIconInjection [(rawToggle, iconAndLabel); (okButton, iconAndLabel)]
    = (prepared, None) /\
    Forall2 (fun el el' =>
               if toggle (fst el)
               then isToggleButton (fst el') = Some "true" /\
                    ariaPressed (fst el')
                    = Some (if pressed (fst el) then "true" else "false") /\
                    existsb (holds iconPressed) (snd el') = true
               else el' = el)
            [(rawToggle, iconAndLabel); (okButton, iconAndLabel)] prepared /\
    setupIconInjection prepared = (prepared, None).
Proof.
  apply (setupIconInjection_prepares_toggles
           [(rawToggle, iconAndLabel); (okButton, iconAndLabel)]).
  constructor; [intros _ _; discriminate|].
  constructor; [intros H; discriminate H|].
  constructor.
Defined.

Lemma setupIconInjection_nested_icon_throws_witness :
  setupIconInjection ([] ++ (rawToggle, wrappedIcon) :: [(rawToggle, iconAndLabel)])
  = ([] ++ (rawToggle, wrappedIcon) :: [(rawToggle, iconAndLabel)],
     Some NotFoundError).
Proof.
  apply (setupIconInjection_nested_icon_throws [] [] rawToggle wrappedIcon
           [(rawToggle, iconAndLabel)]).
  - constructor.
  - reflexivity.
  - reflexivity.
  - reflexivity.
Defined.

Lemma updateButtonLabels_idempotent_witness :
  ReadBack.updateButtonLabels (fun _ => "21.00") escaped
    [Button false false None None None true (Some 0%nat) "rgb(255, 255, 255)"
       (Some (Label "OK<br>21.00" "rgb(0, 0, 0)"))]
  = ([Button false false None None None true (Some 0%nat) "rgb(255, 255, 255)"
        (Some (Label "OK<br>21.00" "rgb(0, 0, 0)"))], None) /\
  Forall2 (fun b b' =>
             option_map (fun l => beforeBr (labelHTML l)) (buttonLabel b')
             = option_map (fun l => beforeBr (labelHTML l)) (buttonLabel b))
          [okButton]
          [Button false false None None None true (Some 0%nat) "rgb(255, 255, 255)"
             (Some (Label "OK<br>21.00" "rgb(0, 0, 0)"))].
Proof.
  apply (updateButtonLabels_idempotent (fun _ => "21.00") escaped [okButton]).
  - constructor; [|constructor]. intros s [= <-]. reflexivity.
  - reflexivity.
Defined.

Lemma unparsable_colour_stops_start_up_witness :
  exists a' f,
    initializeApp (fun _ => "21.00") patchyNetwork Icons.createIconMap brokenApp
    = (a', Some f, []).
Proof.
  apply (unparsable_colour_stops_start_up (fun _ => "21.00") patchyNetwork
           Icons.createIconMap brokenApp 1 srgbButton iconAndLabel
           (Label "Go" "color(srgb 1 0 0)") (ColorParseFailure "color(srgb 1 0 0)"));
    reflexivity.
Defined.

End StartupExamples.

Section ResizeExamples.

Import SVGLoader StyleManager Interaction Handlers Startup Samples.

Lemma init_freshApp :
  snd (init (fun _ => "21.00") patchyNetwork Icons.createIconMap freshApp) = None.
Proof. vm_compute. reflexivity. Qed.

Lemma started_app_keeps_toggle_marks_witness :
  Forall (fun el => toggle (fst el) = true -> isToggleButton (fst el) = Some "true")
         (buttonElements
            (fst (init (fun _ => "21.00") patchyNetwork Icons.createIconMap freshApp))) /\
  Forall wellMarked
    (buttons (current (run
       (World (Page (map fst (buttonElements
                 (fst (init (fun _ => "21.00") patchyNetwork Icons.createIconMap
                         freshApp)))) 0) [])
       [Click [0%nat]; KeyDown "Enter" [1%nat]; TimerExpires]))).
Proof.
  apply (started_app_keeps_toggle_marks (fun _ => "21.00") patchyNetwork
           Icons.createIconMap freshApp
           (fst (init (fun _ => "21.00") patchyNetwork Icons.createIconMap freshApp))
           [Click [0%nat]; KeyDown "Enter" [1%nat]; TimerExpires]).
  - constructor; [intros H; discriminate H|].
    constructor; [intros _; reflexivity|].
    constructor.
  - rewrite <- init_freshApp. apply surjective_pairing.
Defined.

Local Open Scope R_scope.

Lemma applyDynamicStyles_sizes_every_button_witness :
  Forall2 (fun l l' =>
             let minSide := Rmin (width l) (height l) in
             default 0 (styleCache l') = minSide /\
             (default 0 (styleCache l) = minSide ->
              minSideProperty l' = minSideProperty l /\
              styleCache l' = styleCache l) /\
             (default 0 (styleCache l) <> minSide ->
              minSideProperty l' = Some minSide /\ styleCache l' = Some minSide))
          [unsized; Layout 40 30 None (Some 30)]
          (fst (fst (applyDynamicStyles (fun _ => "21.00")
                       [unsized; Layout 40 30 None (Some 30)]
                       [srgbButton; okButton]))) /\
  (snd (fst (applyDynamicStyles (fun _ => "21.00")
               [unsized; Layout 40 30 None (Some 30)] [srgbButton; okButton])),
   snd (applyDynamicStyles (fun _ => "21.00")
          [unsized; Layout 40 30 None (Some 30)] [srgbButton; okButton]))
  = updateButtonLabels (fun _ => "21.00") [srgbButton; okButton].
Proof.
  apply (applyDynamicStyles_sizes_every_button (fun _ => "21.00")
           [unsized; Layout 40 30 None (Some 30)] [srgbButton; okButton]).
  discriminate.
Defined.

Lemma resize_burst_applies_styles_once_witness :
  let w := Window false 0 0 [unsized] [okButton] in
  let burst := [Resize; Relayout (fun _ => (20, 10)); Resize] in
  let w' := windowRun (fun _ => "21.00") w (burst ++ [AnimationFrame]) in
  styleRuns w' = 1%nat /\ animationFrames w' = 0%nat /\
  ([okButton] <> [] ->
   Forall (fun l => default 0 (styleCache l) = Rmin (width l) (height l)) (sizes w')).
Proof.
  apply (resize_burst_applies_styles_once (fun _ => "21.00")
           (Window false 0 0 [unsized] [okButton])
           [Resize; Relayout (fun _ => (20, 10)); Resize]).
  - reflexivity.
  - reflexivity.
  - repeat (constructor; [discriminate|]). constructor.
  - left. reflexivity.
Defined.

Lemma resize_stops_after_failed_label_pass_witness :
  let w := Window false 0 0 [unsized] [srgbButton] in
  let events := [Relayout (fun _ => (20, 10)); Resize; AnimationFrame; Resize] in
  let stuck := windowRun (fun _ => "21.00") w [Resize; AnimationFrame] in
  styleRuns stuck = 1%nat /\
  sizes stuck = map sizeButton [unsized] /\
  styleRuns (windowRun (fun _ => "21.00") stuck events) = styleRuns stuck /\
  map minSideProperty (sizes (windowRun (fun _ => "21.00") stuck events))
  = map minSideProperty (sizes stuck) /\
  map styleCache (sizes (windowRun (fun _ => "21.00") stuck events))
  = map styleCache (sizes stuck).
Proof.
  apply (resize_stops_after_failed_label_pass (fun _ => "21.00")
           (Window false 0 0 [unsized] [srgbButton])
           [Relayout (fun _ => (20, 10)); Resize; AnimationFrame; Resize]
           (ColorParseFailure "color(srgb 1 0 0)")); reflexivity.
Defined.

Lemma black_or_white_label_is_readable_witness :
  4.58 <= Rmax (calculateContrastRGBA 0 0 0 128 128 128)
               (calculateContrastRGBA 255 255 255 128 128 128).
Proof.
  apply (black_or_white_label_is_readable 128 128 128); lra.
Defined.

End ResizeExamples.

Section LoaderExamples.

Import Str SVGLoader StyleManager Icons Startup Words Samples.

Lemma convertToCurrentColor_keeps_other_markup_witness :
  convertToCurrentColor "<svg viewBox='0 0 24 24'><path d='M0 0h24v24H0z'/></svg>"
  = "<svg viewBox='0 0 24 24'><path d='M0 0h24v24H0z'/></svg>".
Proof.
  apply (convertToCurrentColor_keeps_other_markup
           "<svg viewBox='0 0 24 24'><path d='M0 0h24v24H0z'/></svg>");
    reflexivity.
Defined.

Lemma loadAndInject_offline_witness :
  exists cache console,
    loadAndInject offline (rev createIconMap) (createIconMapIn Icons.iconPaths)
      [Target (Some "home") false false "old"] {[ "home" := "<svg/>" ]}
    = (cache, inr ([Target (Some "home") false false "old"], console)).
Proof.
  apply (loadAndInject_offline offline Icons.iconPaths (rev createIconMap)
           [Target (Some "home") false false "old"] {[ "home" := "<svg/>" ]}).
  - symmetry. apply Permutation_rev.
  - intros key attempt path c markup. discriminate.
Defined.

Lemma loadAndInject_content_witness :
  exists cache console document',
    loadAndInject patchyNetwork (rev createIconMap) (createIconMapIn Icons.iconPaths)
      [Target (Some "home") false false "old"] ∅
    = (cache, inr (document', console)) /\
    innerHTML <$> document' !! 0%nat
    = Some (match Spec.cachedMarkup patchyNetwork "home"
                    (Config (getIconPathIn Icons.iconPaths "home") "home") with
            | EmptyString => innerHTML (Target (Some "home") false false "old")
            | markup => convertToCurrentColor markup
            end).
Proof.
  apply (loadAndInject_content patchyNetwork Icons.iconPaths (rev createIconMap)
           [Target (Some "home") false false "old"] ∅ 0
           (Target (Some "home") false false "old") "home").
  - symmetry. apply Permutation_rev.
  - intros other _. unfold Spec.cachedMarkup, patchyNetwork.
    destruct (String.eqb other "add"); reflexivity.
  - repeat constructor.
  - reflexivity.
  - reflexivity.
  - vm_compute. tauto.
  - discriminate.
  - reflexivity.
Defined.

Lemma getRGB_hex_witness :
  getRGB "#fF800080"
  = inr (Some (16 * 15 + 15), Some (16 * 8 + 0), Some (16 * 0 + 0))%Z /\
  (0 <= 16 * 15 + 15 <= 255)%Z /\ (0 <= 16 * 8 + 0 <= 255)%Z /\
  (0 <= 16 * 0 + 0 <= 255)%Z.
Proof.
  apply (getRGB_hex "f" "F" "8" "0" "0" "0" 15 15 8 0 0 0 "80"); reflexivity.
Defined.

Lemma getRGB_short_hex_throws_witness :
  getRGB "#fff" = inl (ColorParseFailure "#fff").
Proof.
  apply (getRGB_short_hex_throws "fff"). cbn. lia.
Defined.

Lemma getRGB_reads_channels_ignores_alpha_witness :
  getRGB ("rgba(" +:+ "255" +:+ ", " +:+ "128" +:+ ", " +:+ "0" +:+ String "," " 0.5)")
  = inr (Some (decimal 0 "255"), Some (decimal 0 "128"), Some (decimal 0 "0")).
Proof.
  apply (getRGB_reads_channels_ignores_alpha true "255" "128" "0" " 0.5)" ",");
    solve [discriminate | reflexivity | now left | vm_compute; discriminate].
Defined.

Lemma iconPaths_indexes_file_witness :
  UpdateIcons.iconPaths ["index.js"; "home" +:+ ".svg"; "add.svg"; "a.svg.svg"] !! "home"
  = Some ("home" +:+ ".svg").
Proof.
  apply (iconPaths_indexes_file ["index.js"; "home" +:+ ".svg"; "add.svg"; "a.svg.svg"]
           "home").
  - right. left. reflexivity.
  - reflexivity.
  - discriminate.
Defined.

Lemma getIconPath_own_file_or_fallback_witness :
  getIconPath "home" = "./assets/icons/" +:+ "home" +:+ ".svg" /\
  getIconPath "logo" = getIconPath fallbackIcon.
Proof.
  split.
  - apply (getIconPath_own_file_or_fallback "home").
    cbn. intuition discriminate.
  - apply (getIconPath_own_file_or_fallback "logo").
    cbn. intuition discriminate.
Defined.

End LoaderExamples.
